(** * nplab message-bus instruments: query / response parsing

    A shallow embedding of [nplab/instrument/message_bus_instrument.py]
    (classes [MessageBusInstrument], [queried_property],
    [queried_channel_property] and [EchoInstrument]) together with the
    parts of the Python 2 runtime the module relies on: [str] methods,
    [int] and [float] conversion, [str.format] and [%] formatting, and the
    [re] module ([re.sub], [re.finditer], [re.search]).

    Python [str] values are [string]s, Python integers are [Z], objects
    live in a store indexed by object identifiers, and every method is a
    computation in a state-and-exception monad over that store. *)

From Stdlib Require Import ZArith QArith Ascii Lia.
From Stdlib Require Import DecimalString.
From stdpp Require Import gmap strings sorting.

Local Open Scope Z_scope.
Local Open Scope stdpp_scope.

(** stdpp keeps [simpl] from unfolding [String.append]; the strings here
    are mostly literals, on which it should compute. *)
#[global] Arguments String.append !_ _ : simpl nomatch.

(** ** Characters and strings *)

Module Chr.

Definition code (c : ascii) : N := N_of_ascii c.

Definition in_range (lo hi c : ascii) : bool :=
  ((code lo <=? code c) && (code c <=? code hi))%N.

Definition is_digit (c : ascii) : bool := in_range "0" "9" c.
Definition is_octdigit (c : ascii) : bool := in_range "0" "7" c.
Definition is_lower (c : ascii) : bool := in_range "a" "z" c.
Definition is_upper (c : ascii) : bool := in_range "A" "Z" c.
Definition is_alnum (c : ascii) : bool := is_digit c || is_lower c || is_upper c.

(** The characters [" \t\n\v\f\r"]: C [isspace], which is what
    [str.strip], [int], [float] and the regex class [\s] use on byte
    strings. *)
Definition is_space (c : ascii) : bool :=
  ((code c =? 32) || ((9 <=? code c) && (code c <=? 13)))%N.

Definition LF : ascii := ascii_of_N 10.
Definition CR : ascii := ascii_of_N 13.
Definition TAB : ascii := ascii_of_N 9.

Definition lower (c : ascii) : ascii :=
  if is_upper c then ascii_of_N (code c + 32) else c.

(** Value of a character as a digit in bases up to 36
    ([_PyLong_DigitValue]). *)
Definition digit_value (c : ascii) : option Z :=
  if is_digit c then Some (Z.of_N (code c) - 48)
  else if is_lower c then Some (Z.of_N (code c) - 97 + 10)
  else if is_upper c then Some (Z.of_N (code c) - 65 + 10)
  else None.

End Chr.

Definition LF : string := String Chr.LF EmptyString.
Definition CRLF : string := String Chr.CR LF.

Module Str.

Definition len (s : string) : nat := String.length s.

Fixpoint all (p : ascii → bool) (s : string) : bool :=
  match s with
  | EmptyString => true
  | String c s' => p c && all p s'
  end.

(** [take n s] is the slice [s[:n]] and [drop n s] the slice [s[n:]]. *)
Fixpoint take (n : nat) (s : string) : string :=
  match n, s with
  | S n', String c s' => String c (take n' s')
  | _, _ => EmptyString
  end.

Fixpoint drop (n : nat) (s : string) : string :=
  match n, s with
  | S n', String _ s' => drop n' s'
  | _, _ => s
  end.

(** [sub in s]: the Python operator [sub in s] on two [str]. *)
Fixpoint contains (sub s : string) : bool :=
  if String.prefix sub s then true
  else match s with
       | EmptyString => false
       | String _ s' => contains sub s'
       end.

(** [s.strip()] with no argument. *)
Fixpoint lstrip (s : string) : string :=
  match s with
  | EmptyString => EmptyString
  | String c s' => if Chr.is_space c then lstrip s' else s
  end.

Fixpoint rstrip (s : string) : string :=
  match s with
  | EmptyString => EmptyString
  | String c s' =>
      match rstrip s' with
      | EmptyString => if Chr.is_space c then EmptyString else String c EmptyString
      | r => String c r
      end
  end.

Definition strip (s : string) : string := rstrip (lstrip s).

Fixpoint lower (s : string) : string :=
  match s with
  | EmptyString => EmptyString
  | String c s' => String (Chr.lower c) (lower s')
  end.

Fixpoint concat (l : list string) : string :=
  match l with
  | [] => EmptyString
  | s :: l' => s +:+ concat l'
  end.

Definition of_Z (z : Z) : string := NilZero.string_of_int (Z.to_int z).

End Str.

(** ** Python values, exceptions and outcomes *)

(** A Python [float]. The model keeps the exact rational denoted by the
    decimal text it was converted from, in lowest terms; the rounding of
    that rational to binary64 is not represented. *)
Inductive PyFloat :=
| FFinite (q : Q)
| FInf (negative : bool)
| FNan.

Inductive Value :=
| VNone
| VInt (z : Z)
| VFloat (f : PyFloat)
| VStr (s : string)
| VTuple (items : list Value)
| VList (items : list Value).

Inductive PyExn :=
| ValueError (msg : string)
| TypeError (msg : string)
| IndexError (msg : string)
| AttributeError (msg : string)
| AssertionError (msg : string)
| NotImplementedError (msg : string)
| ReError (msg : string)          (* [sre_constants.error] *)
| BusError (msg : string).        (* whatever a concrete transport raises *)

(** What lies outside the model: a loop that used up the iteration bound it
    was run with, or a library feature that is not embedded. *)
Inductive Limit :=
| OutOfFuel
| Unsupported (what : string).

Inductive Res (A : Type) :=
| Ok (a : A)
| Raise (e : PyExn)
| Beyond (l : Limit).
Arguments Ok {A} a.
Arguments Raise {A} e.
Arguments Beyond {A} l.

#[global] Instance res_ret : MRet Res := @Ok.
#[global] Instance res_bind : MBind Res := λ A B k r,
  match r with
  | Ok a => k a
  | Raise e => Raise e
  | Beyond l => Beyond l
  end.

Fixpoint res_mapM {A B} (f : A → Res B) (l : list A) : Res (list B) :=
  match l with
  | [] => Ok []
  | a :: l' => b ← f a ; bs ← res_mapM f l' ; Ok (b :: bs)
  end.

(** ** Built-in conversions: [int], [float], [str] *)

Module Py.

(** [span p s] splits [s] after its longest prefix of characters
    satisfying [p]. *)
Fixpoint span (p : ascii → bool) (s : string) : string * string :=
  match s with
  | EmptyString => (EmptyString, EmptyString)
  | String c s' =>
      if p c then let '(a, b) := span p s' in (String c a, b)
      else (EmptyString, s)
  end.

(** Horner evaluation of a digit string; [None] on a character that is
    not a digit of the base. *)
Fixpoint digits_value (base : Z) (acc : Z) (s : string) : option Z :=
  match s with
  | EmptyString => Some acc
  | String c s' =>
      match Chr.digit_value c with
      | Some d => if d <? base then digits_value base (acc * base + d) s' else None
      | None => None
      end
  end.

Definition split_sign (s : string) : bool * string :=
  match s with
  | String "-" s' => (true, s')
  | String "+" s' => (false, s')
  | _ => (false, s)
  end.

(** After the sign: the radix in force and the digits it applies to.
    With base 0 the radix is read off the prefix ([0x], [0o], [0b], or
    a bare leading [0] for octal, as in Python 2); with base 16, 8 or 2
    the matching prefix is optional. *)
Definition radix_and_digits (base : Z) (s : string) : Z * string :=
  match s with
  | String "0" (String c rest) =>
      let c' := Chr.lower c in
      if (base =? 0) then
        if Ascii.eqb c' "x" then (16, rest)
        else if Ascii.eqb c' "o" then (8, rest)
        else if Ascii.eqb c' "b" then (2, rest)
        else (8, s)
      else if (base =? 16) && Ascii.eqb c' "x" then (16, rest)
      else if (base =? 8) && Ascii.eqb c' "o" then (8, rest)
      else if (base =? 2) && Ascii.eqb c' "b" then (2, rest)
      else (base, s)
  | String "0" EmptyString => if base =? 0 then (8, s) else (base, s)
  | _ => if base =? 0 then (10, s) else (base, s)
  end.

Definition invalid_literal (base : Z) (s : string) : PyExn :=
  ValueError ("invalid literal for int() with base " +:+ Str.of_Z base
              +:+ ": '" +:+ s +:+ "'").

(** [int(s, base)] on a [str]: surrounding whitespace is skipped, then an
    optional sign, an optional radix prefix and at least one digit of
    the radix. The result is unbounded (Python 2 promotes to [long]). *)
Definition int_of_string (base : Z) (s : string) : Res Z :=
  if negb ((base =? 0) || ((2 <=? base) && (base <=? 36))) then
    Raise (ValueError "int() base must be >= 2 and <= 36")
  else
    let '(neg, body) := split_sign (Str.strip s) in
    let '(radix, ds) := radix_and_digits base body in
    match ds with
    | EmptyString => Raise (invalid_literal base s)
    | _ =>
        match digits_value radix 0 ds with
        | Some v => Ok (if neg then - v else v)
        | None => Raise (invalid_literal base s)
        end
    end.

(** The callable [int] applied to one regex group, and the lambdas
    [lambda x: int(x, b)]. A group that took no part in the match is
    [None], on which [int] raises [TypeError]. *)
Definition int (x : option string) : Res Value :=
  match x with
  | Some s => z ← int_of_string 10 s ; Ok (VInt z)
  | None => Raise (TypeError "int() argument must be a string or a number, not 'NoneType'")
  end.

Definition int_base (base : Z) (x : option string) : Res Value :=
  match x with
  | Some s => z ← int_of_string base s ; Ok (VInt z)
  | None => Raise (TypeError "int() can't convert non-string with explicit base")
  end.

(** [m * 10^e] as a rational in lowest terms. *)
Definition decimal (m e : Z) : Q :=
  Qred (if 0 <=? e then (m * 10 ^ e) # 1
        else m # (Pos.pow 10 (Z.to_pos (- e)))).

Definition could_not_convert (s : string) : PyExn :=
  ValueError ("could not convert string to float: " +:+ s).

(** [float(s)] on a [str]: surrounding whitespace, a sign, then either
    [inf], [infinity] or [nan] in any case, or a decimal numeral with an
    optional fraction and an optional exponent. The value is kept as
    the exact decimal rational: the rounding to the nearest binary64
    number and the overflow to infinity that Python performs are not
    modelled, so the result is that of Python only where the decimal
    is itself a binary64 number (as 3.5 is, and 0.1 is not). *)
Definition float_of_string (s : string) : Res PyFloat :=
  let '(neg, body) := split_sign (Str.strip s) in
  let low := Str.lower body in
  if String.eqb low "inf" || String.eqb low "infinity" then Ok (FInf neg)
  else if String.eqb low "nan" then Ok FNan
  else
    let '(ip, r1) := span Chr.is_digit body in
    let '(fp, r2) := match r1 with
                     | String "." r => span Chr.is_digit r
                     | _ => (EmptyString, r1)
                     end in
    let mant := digits_value 10 0 (ip +:+ fp) in
    let expo : option Z :=
      match r2 with
      | EmptyString => Some 0
      | String c r =>
          if Ascii.eqb (Chr.lower c) "e" then
            let '(eneg, eb) := split_sign r in
            match eb with
            | EmptyString => None
            | _ => if Str.all Chr.is_digit eb
                   then e ← digits_value 10 0 eb; Some (if eneg then - e else e)
                   else None
            end
          else None
      end in
    match ip +:+ fp, mant, expo with
    | String _ _, Some m, Some e =>
        Ok (FFinite (decimal (if neg then - m else m) (e - Z.of_nat (Str.len fp))))
    | _, _, _ => Raise (could_not_convert s)
    end.

Definition float (x : option string) : Res Value :=
  match x with
  | Some s => f ← float_of_string s ; Ok (VFloat f)
  | None => Raise (TypeError "float() argument must be a string or a number")
  end.

(** [str(v)] for the values whose text the model determines. *)
Definition str (v : Value) : Res string :=
  match v with
  | VNone => Ok "None"
  | VInt z => Ok (Str.of_Z z)
  | VStr s => Ok s
  | VFloat _ => Beyond (Unsupported "str of a float")
  | VTuple _ => Beyond (Unsupported "str of a tuple")
  | VList _ => Beyond (Unsupported "str of a list")
  end.

End Py.

(** ** The [re] module

    Regular expressions as Python 2.7's [sre] reads and runs them, for
    the syntax the instrument templates and the placeholder table are
    written in: literals, [.], the classes [\d \D \s \S \w \W], bracketed
    sets with ranges and negation, capturing and [(?:...)] groups,
    alternation and the greedy repeats [* + ? {m} {m,n}]. Other syntax
    (anchors, lazy repeats, backreferences, look-around, flags) is
    reported as [Unsupported]. Matching is by backtracking, first
    alternative and longest repeat first, as in [sre]. *)

Module Re.

Inductive cset_item :=
| CChar (c : ascii)
| CRange (lo hi : ascii)
| CDigit (negated : bool)
| CSpace (negated : bool)
| CWord (negated : bool).

Inductive regex :=
| REmpty
| RChar (c : ascii)
| RAny
| RSet (negate : bool) (items : list cset_item)
| RSeq (r1 r2 : regex)
| RAlt (r1 r2 : regex)
| RRepeat (lo : nat) (hi : option nat) (r : regex)
| RGroup (index : nat) (r : regex)
| RNonCapture (r : regex).

(** *** Reading a pattern *)

Inductive tok :=
| TLit (c : ascii)         (* a character standing by itself *)
| TEsc (c : ascii)         (* a backslash and the character after it *)
| TEscEnd.                 (* a backslash at the very end *)

Fixpoint lex (s : string) : list tok :=
  match s with
  | EmptyString => []
  | String "\" EmptyString => [TEscEnd]
  | String "\" (String e s') => TEsc e :: lex s'
  | String c s' => TLit c :: lex s'
  end.

Definition syntax_error {A} (msg : string) : Res A := Raise (ReError msg).
Definition unsupported {A} (what : string) : Res A := Beyond (Unsupported what).

Definition control_char (e : ascii) : option ascii :=
  if Ascii.eqb e "n" then Some (ascii_of_N 10)
  else if Ascii.eqb e "t" then Some (ascii_of_N 9)
  else if Ascii.eqb e "r" then Some (ascii_of_N 13)
  else if Ascii.eqb e "f" then Some (ascii_of_N 12)
  else if Ascii.eqb e "v" then Some (ascii_of_N 11)
  else if Ascii.eqb e "a" then Some (ascii_of_N 7)
  else None.

Definition category (e : ascii) : option cset_item :=
  if Ascii.eqb e "d" then Some (CDigit false)
  else if Ascii.eqb e "D" then Some (CDigit true)
  else if Ascii.eqb e "s" then Some (CSpace false)
  else if Ascii.eqb e "S" then Some (CSpace true)
  else if Ascii.eqb e "w" then Some (CWord false)
  else if Ascii.eqb e "W" then Some (CWord true)
  else None.

(** One member of a bracketed set ([_class_escape] for the escapes). *)
Definition class_code (t : tok) : Res cset_item :=
  match t with
  | TLit c => Ok (CChar c)
  | TEscEnd => syntax_error "bogus escape (end of line)"
  | TEsc e =>
      match category e, control_char e with
      | Some i, _ => Ok i
      | None, Some c => Ok (CChar c)
      | None, None =>
          if Ascii.eqb e "b" then Ok (CChar (ascii_of_N 8))
          else if Chr.is_digit e || Ascii.eqb e "x" then unsupported "numeric escape"
          else Ok (CChar e)
      end
  end.

(** The members of a set up to its closing bracket; [ts] starts after
    the opening bracket and the optional [^]. *)
Fixpoint p_class (ts : list tok) (items : list cset_item) : Res (list cset_item * list tok) :=
  match ts with
  | [] => syntax_error "unexpected end of regular expression"
  | t :: rest =>
      match t, items with
      | TLit "]", _ :: _ => Ok (rev items, rest)
      | _, _ =>
          code1 ← class_code t ;
          match rest with
          | TLit "-" :: TLit "]" :: rest' => Ok (rev (CChar "-" :: code1 :: items), rest')
          | TLit "-" :: t2 :: rest' =>
              code2 ← class_code t2 ;
              match code1, code2 with
              | CChar lo, CChar hi =>
                  if (Chr.code hi <? Chr.code lo)%N then syntax_error "bad character range"
                  else p_class rest' (CRange lo hi :: items)
              | _, _ => syntax_error "bad character range"
              end
          | [TLit "-"] => syntax_error "unexpected end of regular expression"
          | _ => p_class rest (code1 :: items)
          end
      end
  end.

Fixpoint tok_digits (ts : list tok) : string * list tok :=
  match ts with
  | TLit c :: rest =>
      if Chr.is_digit c then let '(ds, r) := tok_digits rest in (String c ds, r)
      else (EmptyString, ts)
  | _ => (EmptyString, ts)
  end.

Definition nat_of_digits (ds : string) : nat :=
  Z.to_nat (default 0 (Py.digits_value 10 0 ds)).

(** The text after an opening brace, read as a repeat count [{m}],
    [{m,}], [{,n}] or [{m,n}]; [None] when it is not one, in which case
    the brace is an ordinary character. *)
Definition p_braces (ts : list tok) : option (nat * option nat * list tok) :=
  match ts with
  | TLit "}" :: _ => None
  | _ =>
      let '(lo, r1) := tok_digits ts in
      let '(hi, r2) := match r1 with
                       | TLit "," :: r => tok_digits r
                       | _ => (lo, r1)
                       end in
      match r2 with
      | TLit "}" :: r3 =>
          Some (nat_of_digits lo,
                match hi with EmptyString => None | _ => Some (nat_of_digits hi) end,
                r3)
      | _ => None
      end
  end.

Definition seq_of (items : list regex) : regex :=
  fold_left (fun acc r => match acc with REmpty => r | _ => RSeq r acc end) items REmpty.

Definition alt_of (branches : list regex) (last : regex) : regex :=
  fold_left (fun acc r => RAlt r acc) branches last.

(** Attach a repeat to the item parsed last. *)
Definition repeat_last (lo : nat) (hi : option nat) (items : list regex) (rest : list tok)
  : Res (list regex) :=
  match rest with
  | TLit "?" :: _ => unsupported "non-greedy repeat"
  | _ =>
      match items with
      | [] => syntax_error "nothing to repeat"
      | RRepeat _ _ _ :: _ => syntax_error "multiple repeat"
      | r :: items' =>
          match hi with
          | Some h => if (h <? lo)%nat then syntax_error "bad repeat interval"
                      else Ok (RRepeat lo hi r :: items')
          | None => Ok (RRepeat lo hi r :: items')
          end
      end
  end.

(** [p_branches fuel ts g nested branches items] reads alternatives up
    to the end of the pattern, or up to the parenthesis closing the
    group being read when [nested]. [g] counts the capturing groups
    opened so far, [items] holds the current alternative and [branches]
    the finished ones, both latest first. *)
Fixpoint p_branches (fuel : nat) (ts : list tok) (g : nat) (nested : bool)
    (branches items : list regex) : Res (regex * list tok * nat) :=
  match fuel with
  | O => Beyond OutOfFuel
  | S fuel' =>
      let continue ts' g' items' := p_branches fuel' ts' g' nested branches items' in
      match ts with
      | [] =>
          if nested then syntax_error "unbalanced parenthesis"
          else Ok (alt_of branches (seq_of items), [], g)
      | TEscEnd :: _ => syntax_error "bogus escape (end of line)"
      | TEsc e :: rest =>
          match category e, control_char e with
          | Some i, _ => continue rest g (RSet false [i] :: items)
          | None, Some c => continue rest g (RChar c :: items)
          | None, None =>
              if Chr.is_digit e then unsupported "backreference or octal escape"
              else if existsb (Ascii.eqb e) ["A"; "Z"; "b"; "B"; "x"]%char
              then unsupported "assertion or numeric escape"
              else continue rest g (RChar e :: items)
          end
      | TLit c :: rest =>
          if Ascii.eqb c ")" then
            if nested then Ok (alt_of branches (seq_of items), rest, g)
            else syntax_error "unbalanced parenthesis"
          else if Ascii.eqb c "|" then
            p_branches fuel' rest g nested (seq_of items :: branches) []
          else if Ascii.eqb c "(" then
            match rest with
            | TLit "?" :: TLit ":" :: rest' =>
                '(r, rest'', g') ← p_branches fuel' rest' g true [] [] ;
                continue rest'' g' (RNonCapture r :: items)
            | TLit "?" :: _ => unsupported "extension group"
            | _ =>
                '(r, rest'', g') ← p_branches fuel' rest (S g) true [] [] ;
                continue rest'' g' (RGroup (S g) r :: items)
            end
          else if Ascii.eqb c "[" then
            let '(neg, body) := match rest with
                                | TLit "^" :: b => (true, b)
                                | _ => (false, rest)
                                end in
            '(set, rest') ← p_class body [] ;
            continue rest' g (RSet neg set :: items)
          else if Ascii.eqb c "." then continue rest g (RAny :: items)
          else if Ascii.eqb c "^" || Ascii.eqb c "$" then unsupported "anchor"
          else if Ascii.eqb c "*" then
            items' ← repeat_last 0 None items rest ; continue rest g items'
          else if Ascii.eqb c "+" then
            items' ← repeat_last 1 None items rest ; continue rest g items'
          else if Ascii.eqb c "?" then
            items' ← repeat_last 0 (Some 1%nat) items rest ; continue rest g items'
          else if Ascii.eqb c "{" then
            match p_braces rest with
            | Some (lo, hi, rest') =>
                items' ← repeat_last lo hi items rest' ; continue rest' g items'
            | None => continue rest g (RChar c :: items)
            end
          else continue rest g (RChar c :: items)
      end
  end.

Record pattern := Pattern { p_regex : regex; p_groups : nat }.

(** [re.compile(pattern)], without flags. *)
Definition compile (pat : string) : Res pattern :=
  let ts := lex pat in
  '(r, _, g) ← p_branches (S (length ts)) ts 0 false [] [] ;
  Ok (Pattern r g).

(** *** Matching *)

Definition item_matches (i : cset_item) (c : ascii) : bool :=
  match i with
  | CChar c' => Ascii.eqb c' c
  | CRange lo hi => Chr.in_range lo hi c
  | CDigit n => xorb n (Chr.is_digit c)
  | CSpace n => xorb n (Chr.is_space c)
  | CWord n => xorb n (Chr.is_alnum c || Ascii.eqb c "_")
  end.

Definition set_matches (negate : bool) (items : list cset_item) (c : ascii) : bool :=
  xorb negate (existsb (fun i => item_matches i c) items).

(** The groups of a match in progress: [None] until a group has taken
    part, as [m.groups()] reports them. *)
Definition captures := list (option string).

(** A matcher consumes a prefix of the text and hands the rest, with the
    groups, to its continuation; [None] makes the caller backtrack. *)
Definition cont (R : Type) := string → captures → option R.
Definition matcher (R : Type) := string → captures → cont R → option R.

Definition one_char {R} (p : ascii → bool) : matcher R := λ s caps k,
  match s with
  | String c s' => if p c then k s' caps else None
  | EmptyString => None
  end.

Fixpoint rep_exactly {R} (step : matcher R) (n : nat) : matcher R := λ s caps k,
  match n with
  | O => k s caps
  | S n' => step s caps (λ s' caps', rep_exactly step n' s' caps' k)
  end.

(** Up to [hi] further rounds, as many as possible first. A round that
    consumes nothing ends the repetition. [budget] bounds the rounds by
    the length of the text still to be read. The empty round is
    dropped together with the groups it set, where [sre] keeps them:
    a group inside a repetition that matches the empty string is
    [None] here and the empty string in Python. The groups made for
    the placeholders of [parsed_query] enclose their pattern and are
    never inside a repetition. *)
Fixpoint rep_greedy {R} (step : matcher R) (budget : nat) (hi : option nat) : matcher R :=
  λ s caps k,
  match budget, hi with
  | O, _ | _, Some O => k s caps
  | S b, _ =>
      match step s caps (λ s' caps',
               if (Str.len s' <? Str.len s)%nat
               then rep_greedy step b (pred <$> hi) s' caps' k
               else None) with
      | Some x => Some x
      | None => k s caps
      end
  end.

Fixpoint run {R} (r : regex) : matcher R := λ s caps k,
  match r with
  | REmpty => k s caps
  | RChar c => one_char (Ascii.eqb c) s caps k
  | RAny => one_char (λ c, negb (Ascii.eqb c Chr.LF)) s caps k
  | RSet neg items => one_char (set_matches neg items) s caps k
  | RSeq r1 r2 => run r1 s caps (λ s' caps', run r2 s' caps' k)
  | RAlt r1 r2 =>
      match run r1 s caps k with
      | Some x => Some x
      | None => run r2 s caps k
      end
  | RRepeat lo hi r' =>
      rep_exactly (run r') lo s caps (λ s' caps',
        rep_greedy (run r') (Str.len s') ((λ h, h - lo)%nat <$> hi) s' caps' k)
  | RGroup i r' =>
      run r' s caps (λ s' caps',
        k s' (<[pred i := Some (Str.take (Str.len s - Str.len s') s)]> caps'))
  | RNonCapture r' => run r' s caps k
  end.

(** A match anchored at the start of [s]: its length and groups. *)
Definition match_prefix (p : pattern) (s : string) : option (nat * captures) :=
  run (p_regex p) s (replicate (p_groups p) None)
      (λ s' caps, Some ((Str.len s - Str.len s')%nat, caps)).

(** The leftmost match at or after the start of [s], [pos] being the
    offset of [s] in the whole text: start offset, length, groups. *)
Fixpoint search_from (p : pattern) (pos : nat) (s : string) : option (nat * nat * captures) :=
  match match_prefix p s with
  | Some (n, caps) => Some (pos, n, caps)
  | None =>
      match s with
      | EmptyString => None
      | String _ s' => search_from p (S pos) s'
      end
  end.

(** [re.search(pattern, string, flags)]: the groups of the leftmost
    match, or [None]. *)
Definition search (pat s : string) (flags : Z) : Res (option captures) :=
  if negb (flags =? 0) then unsupported "regex flags"
  else p ← compile pat ; Ok (snd <$> search_from p 0 s).

(** *** Replacement templates *)

Inductive titem :=
| TText (c : ascii)
| TGroup (n : nat).

Definition digit_nat (c : ascii) : nat := N.to_nat (Chr.code c - 48).

(** [sre_parse.parse_template]: [\1] .. [\99] refer to groups, the
    escapes of [control_char] and [\\] denote one character, and any
    other escaped character stays as it is, backslash included. *)
Fixpoint parse_template (groups : nat) (ts : list tok) : Res (list titem) :=
  let group n (rest : Res (list titem)) : Res (list titem) :=
    if (groups <? n)%nat then syntax_error "invalid group reference"
    else t ← rest ; Ok (TGroup n :: t) in
  match ts with
  | [] => Ok []
  | TLit c :: rest => t ← parse_template groups rest ; Ok (TText c :: t)
  | TEscEnd :: _ => Ok [TText "\"]
  | TEsc e :: rest =>
      if Ascii.eqb e "g" || Ascii.eqb e "0" then unsupported "named group or octal escape"
      else if Chr.is_digit e then
        match rest with
        | TLit d :: rest' =>
            if Chr.is_digit d then
              match rest' with
              | TLit o :: _ =>
                  if Chr.is_octdigit e && Chr.is_octdigit d && Chr.is_octdigit o
                  then unsupported "octal escape"
                  else group (digit_nat e * 10 + digit_nat d)%nat (parse_template groups rest')
              | _ => group (digit_nat e * 10 + digit_nat d)%nat (parse_template groups rest')
              end
            else group (digit_nat e) (parse_template groups rest)
        | _ => group (digit_nat e) (parse_template groups rest)
        end
      else
        t ← parse_template groups rest ;
        match control_char e with
        | Some c => Ok (TText c :: t)
        | None => if Ascii.eqb e "\" then Ok (TText "\" :: t)
                  else Ok (TText "\" :: TText e :: t)
        end
  end.

Fixpoint expand (t : list titem) (caps : captures) : Res string :=
  match t with
  | [] => Ok EmptyString
  | TText c :: t' => r ← expand t' caps ; Ok (String c r)
  | TGroup n :: t' =>
      match caps !! pred n with
      | Some (Some g) => r ← expand t' caps ; Ok (g +:+ r)
      | _ => syntax_error "unmatched group"
      end
  end.

(** *** [re.sub] and [re.finditer] *)

(** The scan of [pattern.sub], [at_start] being the match attempt at
    the current position: [skip] characters of a match found earlier
    remain to be passed over; [adjacent] holds right after a match,
    where an empty match is not replaced. *)
Fixpoint sub_scan (at_start : string → option (nat * captures)) (t : list titem)
    (skip : nat) (adjacent : bool) (s : string) : Res string :=
  match skip, s with
  | S n, String _ s' => sub_scan at_start t n true s'
  | S _, EmptyString => Ok EmptyString
  | O, _ =>
      match at_start s with
      | Some (S n, caps) =>
          e ← expand t caps ;
          rest ← match s with
                 | String _ s' => sub_scan at_start t n true s'
                 | EmptyString => Ok EmptyString
                 end ;
          Ok (e +:+ rest)
      | Some (O, caps) =>
          e ← (if adjacent then Ok EmptyString else expand t caps) ;
          match s with
          | String c s' => rest ← sub_scan at_start t 0 false s' ; Ok (e +:+ String c rest)
          | EmptyString => Ok e
          end
      | None =>
          match s with
          | String c s' => rest ← sub_scan at_start t 0 false s' ; Ok (String c rest)
          | EmptyString => Ok EmptyString
          end
      end
  end.

(** [re.sub(pattern, repl, string)] with a string [repl]. *)
Definition sub (pat repl s : string) : Res string :=
  p ← compile pat ;
  t ← parse_template (p_groups p) (lex repl) ;
  sub_scan (match_prefix p) t 0 false s.

(** The start offsets [m.start()] of the matches [re.finditer] yields;
    [pos] is the offset of [s] in the whole text. *)
Fixpoint finditer_scan (at_start : string → option (nat * captures)) (skip pos : nat)
    (s : string) : list nat :=
  match skip, s with
  | S n, String _ s' => finditer_scan at_start n (S pos) s'
  | S _, EmptyString => []
  | O, _ =>
      match at_start s with
      | Some (n, _) =>
          pos :: match s with
                 | String _ s' => finditer_scan at_start (pred n) (S pos) s'
                 | EmptyString => []
                 end
      | None =>
          match s with
          | String _ s' => finditer_scan at_start 0 (S pos) s'
          | EmptyString => []
          end
      end
  end.

Definition finditer_starts (pat s : string) : Res (list nat) :=
  p ← compile pat ; Ok (finditer_scan (match_prefix p) 0 0 s).

End Re.

(** ** String formatting: [str.format] and [%] *)

Module Fmt.

(** How replacement fields have been numbered so far. *)
Inductive numbering := Undecided | Automatic (next : nat) | Manual.

Definition field_index (field : string) (n : numbering) : Res (nat * numbering) :=
  match field with
  | EmptyString =>
      match n with
      | Undecided => Ok (O, Automatic 1)
      | Automatic k => Ok (k, Automatic (S k))
      | Manual => Raise (ValueError
          "cannot switch from manual field specification to automatic field numbering")
      end
  | _ =>
      if Str.all Chr.is_digit field then
        match n with
        | Automatic _ => Raise (ValueError
            "cannot switch from automatic field numbering to manual field specification")
        | _ => Ok (Re.nat_of_digits field, Manual)
        end
      else Beyond (Unsupported "format field with attribute, index, conversion or spec")
  end.

(** [field] is [Some f] inside a replacement field, [f] being the text
    read since its opening brace. *)
Fixpoint format_scan (args : list Value) (n : numbering) (field : option string)
    (s : string) : Res string :=
  match field, s with
  | None, EmptyString => Ok EmptyString
  | None, String "{" (String "{" s') =>
      r ← format_scan args n None s' ; Ok (String "{" r)
  | None, String "}" (String "}" s') =>
      r ← format_scan args n None s' ; Ok (String "}" r)
  | None, String "}" _ => Raise (ValueError "Single '}' encountered in format string")
  | None, String "{" EmptyString =>
      Raise (ValueError "Single '{' encountered in format string")
  | None, String "{" s' => format_scan args n (Some EmptyString) s'
  | None, String c s' => r ← format_scan args n None s' ; Ok (String c r)
  | Some f, EmptyString => Raise (ValueError "unmatched '{' in format")
  | Some f, String "}" s' =>
      '(i, n') ← field_index f n ;
      match args !! i with
      | None => Raise (IndexError "tuple index out of range")
      | Some v =>
          txt ← Py.str v ;
          r ← format_scan args n' None s' ;
          Ok (txt +:+ r)
      end
  | Some f, String c s' => format_scan args n (Some (f +:+ String c EmptyString)) s'
  end.

(** [template.format( *args )]. *)
Definition format (template : string) (args : list Value) : Res string :=
  format_scan args Undecided None template.

Fixpoint percent_scan (args : list Value) (s : string) : Res string :=
  match s with
  | EmptyString =>
      match args with
      | [] => Ok EmptyString
      | _ :: _ => Raise (TypeError "not all arguments converted during string formatting")
      end
  | String "%" EmptyString => Raise (ValueError "incomplete format")
  | String "%" (String c s') =>
      if Ascii.eqb c "%" then r ← percent_scan args s' ; Ok (String "%" r)
      else if Ascii.eqb c "s" then
        match args with
        | [] => Raise (TypeError "not enough arguments for format string")
        | v :: args' => txt ← Py.str v ; r ← percent_scan args' s' ; Ok (txt +:+ r)
        end
      else if Ascii.eqb c "d" || Ascii.eqb c "i" then
        match args with
        | [] => Raise (TypeError "not enough arguments for format string")
        | VInt z :: args' => r ← percent_scan args' s' ; Ok (Str.of_Z z +:+ r)
        | VFloat _ :: _ => Beyond (Unsupported "integer conversion of a float")
        | _ :: _ => Raise (TypeError "%d format: a number is required")
        end
      else Beyond (Unsupported "conversion with flags, width, precision or another type")
  | String c s' => r ← percent_scan args s' ; Ok (String c r)
  end.

(** [template % value]: a tuple supplies one argument per conversion,
    any other value is the single argument. *)
Definition percent (template : string) (value : Value) : Res string :=
  percent_scan (match value with VTuple items => items | v => [v] end) template.

End Fmt.

(** ** The transport an instrument talks over *)

Definition oid := nat.
Definition Timeout := Z.

(** The three methods a subclass of [MessageBusInstrument] overrides,
    acting on the state [T] of its port. *)
Class Bus (T : Type) := {
  bus_write : string → T → Res unit * T;
  bus_readline : option Timeout → T → Res string * T;
  bus_flush_input_buffer : T → Res unit * T;
}.

(** [MessageBusInstrument] itself: [write] and [readline] are left to the
    subclasses, [flush_input_buffer] does nothing. *)
#[export] Instance MessageBusInstrument_bus : Bus unit := {
  bus_write _ t :=
    (Raise (NotImplementedError
              "Subclasses of MessageBusInstrument must override the write method!"), t);
  bus_readline _ t :=
    (Raise (NotImplementedError
              "Subclasses of MessageBusInstrument must override the readline method!"), t);
  bus_flush_input_buffer t := (Ok (), t);
}.

(** [EchoInstrument]: it echoes back what was written last. *)
Record EchoInstrument := { _last_write : string }.

Definition EchoInstrument_init : EchoInstrument := {| _last_write := "" |}.

#[export] Instance EchoInstrument_bus : Bus EchoInstrument := {
  bus_write msg _ := (Ok (), {| _last_write := msg |});
  bus_readline _ t := (Ok (_last_write t), t);
  bus_flush_input_buffer t := (Ok (), t);
}.

(** A port replaying a script: [readline] hands out the queued lines one
    by one and the empty string once they are used up; [write] keeps
    what was sent. *)
Record ScriptedPort := { pending : list string; sent : list string }.

#[export] Instance ScriptedPort_bus : Bus ScriptedPort := {
  bus_write msg t := (Ok (), {| pending := pending t; sent := sent t ++ [msg] |});
  bus_readline _ t :=
    match pending t with
    | [] => (Ok "", t)
    | line :: rest => (Ok line, {| pending := rest; sent := sent t |})
    end;
  bus_flush_input_buffer t := (Ok (), t);
}.

(** ** Parse functions and the placeholder table *)

(** A parse function receives one group of the match: its text, or
    [None] for a group that took no part. *)
Definition parse_fn := option string → Res Value.

Definition noop : parse_fn := λ x,
  Ok (match x with Some s => VStr s | None => VNone end).

(** The list [placeholders] of [parsed_query]: regex matching the
    placeholder, regex to replace it with, parse function. *)
Definition placeholders : list (string * string * parse_fn) :=
  [ ("%c", ".", noop);
    ("%(\d+)c", ".{\1}", noop);
    ("%d", "[-+]?\d+", Py.int);
    ("%[eEfg]", "[-+]?(?:\d+(?:\.\d*)?|\.\d+)(?:[eE][-+]?\d+)?", Py.float);
    ("%i", "[-+]?(?:0[xX][\dA-Fa-f]+|0[0-7]*|\d+)", Py.int_base 0);
    ("%o", "[-+]?[0-7]+", Py.int_base 8);
    ("%s", "\S+", noop);
    ("%u", "\d+", Py.int);
    ("%[xX]", "[-+]?(?:0[xX])?[\dA-Fa-f]+", Py.int_base 16) ].

(** [sorted(l, key=...)]: a stable sort, here by insertion. *)
Fixpoint insert_by {A} (key : A → nat) (x : A) (l : list A) : list A :=
  match l with
  | [] => [x]
  | y :: l' => if (key x <=? key y)%nat then x :: l else y :: insert_by key x l'
  end.

Definition sorted {A} (key : A → nat) (l : list A) : list A :=
  foldr (insert_by key) [] l.

(** One round of the [for] loop over [placeholders]: substitute in the
    regex built so far, and record where the placeholder occurs in the
    original [response_string]. *)
Definition substitute_placeholder (response_string : string)
    (acc : string * list (parse_fn * nat)) (entry : string * string * parse_fn)
  : Res (string * list (parse_fn * nat)) :=
  let '(response_regex, matched_placeholders) := acc in
  let '(placeholder, regex, parse_fun) := entry in
  response_regex ← Re.sub placeholder ("(" +:+ regex +:+ ")") response_regex ;
  starts ← Re.finditer_starts placeholder response_string ;
  Ok (response_regex, matched_placeholders ++ map (λ start, (parse_fun, start)) starts).

Fixpoint res_foldl {A B} (f : A → B → Res A) (a : A) (l : list B) : Res A :=
  match l with
  | [] => Ok a
  | b :: l' => a' ← f a b ; res_foldl f a' l'
  end.

(** Lines 123-139 of [parsed_query]: the generated regex and the list
    [matched_placeholders]. *)
Definition compile_template (response_string : string)
  : Res (string * list (parse_fn * nat)) :=
  res_foldl (substitute_placeholder response_string) (response_string, []) placeholders.

(** The optional argument [parse_function]: one callable or a list. *)
Inductive ParseArg :=
| OneFunction (f : parse_fn)
| Functions (fs : list parse_fn).

(** Lines 140-143: the parse functions in the order of the placeholders
    in the original string, unless the caller supplied them. *)
Definition resolve_parse_function (parse_function : option ParseArg)
    (matched_placeholders : list (parse_fn * nat)) : list parse_fn :=
  match parse_function with
  | None => map fst (sorted snd matched_placeholders)
  | Some (OneFunction f) => [f]
  | Some (Functions fs) => fs
  end.

(** ** Objects, the world and the monad of methods *)

Inductive BusEvent :=
| EvFlush (obj : oid)
| EvWrite (obj : oid) (msg : string)
| EvReadline (obj : oid) (timeout : option Timeout).

Inductive Printed :=
| PrintSet (obj : oid) (value : Value)               (* print 'set', obj, value *)
| PrintLine (line : string)
| PrintMatchedGroups (groups : list (option string))
| PrintParsingFunctions (fs : list parse_fn).

(** The keyword arguments [parsed_query] passes on to [query]. *)
Record QueryKwargs := {
  multiline : bool;
  kw_termination_line : option string;
  timeout : option Timeout;
}.

Definition no_kwargs : QueryKwargs :=
  {| multiline := false; kw_termination_line := None; timeout := None |}.

Section Instruments.

Context {T : Type} `{Bus T}.

(** Bound on the number of rounds of the [while] loop of
    [read_multiline] that a run follows. *)
Variable fuel : nat.

(** An object: the state of its port and the attributes the module
    looks at. [ch] and [parent] are absent on objects that are not
    channels. *)
Record Instrument := {
  port : T;
  termination_line : option string;
  ch : option Value;
  parent : option oid;
}.

(** The world: the objects, what was printed, and the calls made to
    the transport methods of each object, oldest first. *)
Record World := {
  heap : gmap oid Instrument;
  stdout : list Printed;
  trace : list BusEvent;
}.

Definition M (A : Type) : Type := World → Res A * World.

#[export] Instance M_ret : MRet M := λ A a w, (Ok a, w).
#[export] Instance M_bind : MBind M := λ A B k m w,
  match m w with
  | (Ok a, w') => k a w'
  | (Raise e, w') => (Raise e, w')
  | (Beyond l, w') => (Beyond l, w')
  end.

Definition raise {A} (e : PyExn) : M A := λ w, (Raise e, w).
Definition beyond {A} (l : Limit) : M A := λ w, (Beyond l, w).
Definition lift {A} (r : Res A) : M A := λ w, (r, w).

Definition print (p : Printed) : M () := λ w,
  (Ok (), {| heap := heap w; stdout := stdout w ++ [p]; trace := trace w |}).

Definition get_object (obj : oid) : M Instrument := λ w,
  match heap w !! obj with
  | Some o => (Ok o, w)
  | None => (Beyond (Unsupported "dangling object reference"), w)
  end.

(** A call of a transport method of [obj]: it acts on the port of
    [obj] and is entered in the trace. *)
Definition on_port {A} (obj : oid) (ev : BusEvent) (op : T → Res A * T) : M A := λ w,
  match heap w !! obj with
  | Some o =>
      let '(r, t') := op (port o) in
      (r, {| heap := <[obj := {| port := t';
                                 termination_line := termination_line o;
                                 ch := ch o;
                                 parent := parent o |}]> (heap w);
             stdout := stdout w;
             trace := trace w ++ [ev] |})
  | None => (Beyond (Unsupported "dangling object reference"), w)
  end.

(** ** [MessageBusInstrument] *)

Definition write (self : oid) (query_string : string) : M () :=
  on_port self (EvWrite self query_string) (bus_write query_string).

Definition flush_input_buffer (self : oid) : M () :=
  on_port self (EvFlush self) bus_flush_input_buffer.

Definition readline (self : oid) (timeout : option Timeout) : M string :=
  on_port self (EvReadline self timeout) (bus_readline timeout).

(** The [while] loop of [read_multiline], [n] rounds at most. *)
Fixpoint read_multiline_loop (n : nat) (self : oid) (termination_line : string)
    (timeout : option Timeout) (response last_line : string) : M string :=
  if negb (Str.contains termination_line last_line) && (0 <? Str.len last_line)%nat then
    match n with
    | O => beyond OutOfFuel
    | S n' =>
        last_line ← readline self timeout ;
        read_multiline_loop n' self termination_line timeout
                            (response +:+ last_line) last_line
    end
  else mret response.

Definition read_multiline (self : oid) (termination_line : option string)
    (timeout : option Timeout) : M string :=
  termination_line ← match termination_line with
                     | None => o ← get_object self ; mret (Instruments.termination_line o)
                     | Some t => mret (Some t)
                     end ;
  match termination_line with
  | None => raise (AssertionError "If you perform a multiline query, you must specify a termination line either through the termination_line keyword argument or the termination_line property of the NPSerialInstrument.")
  | Some termination_line =>
      read_multiline_loop fuel self termination_line timeout "" "dummy"
  end.

Definition query (self : oid) (queryString : string) (kw : QueryKwargs) : M string :=
  flush_input_buffer self ;;
  write self queryString ;;
  let multiline := match kw_termination_line kw with
                   | Some _ => true
                   | None => multiline kw
                   end in
  if multiline then read_multiline self (kw_termination_line kw) None
  else line ← readline self (timeout kw) ; mret (Str.strip line).

Definition not_matched (query_string reply response_string response_regex : string) : string :=
  "Stage response to '" +:+ query_string +:+ "' ('" +:+ reply
    +:+ "') wasn't matched by /" +:+ response_string
    +:+ "/ (generated regex /" +:+ response_regex +:+ "/".

Definition not_parsed (query_string reply : string) : string :=
  "Stage response to " +:+ query_string +:+ " ('" +:+ reply
    +:+ "') couldn't be parsed by the supplied function".

Definition not_matched_old (query_string reply response_string : string) : string :=
  "Stage response to '" +:+ query_string +:+ "' ('" +:+ reply
    +:+ "') wasn't matched by /" +:+ response_string +:+ "/".

(** [parsed_query_old]: the regex is used as given, one callable is
    mapped over all groups, and a lone group gives a bare value. *)
Definition parsed_query_old (self : oid) (query_string response_string : string)
    (re_flags : Z) (parse_function : parse_fn) (kwargs : QueryKwargs) : M Value :=
  reply ← query self query_string kwargs ;
  res ← lift (Re.search response_string reply re_flags) ;
  match res with
  | None => raise (ValueError (not_matched_old query_string reply response_string))
  | Some groups =>
      match (match groups with
             | [g] => parse_function g
             | _ => l ← res_mapM parse_function groups ; Ok (VList l)
             end) with
      | Ok v => mret v
      | Raise (ValueError _) => raise (ValueError (not_parsed query_string reply))
      | Raise e => raise e
      | Beyond l => beyond l
      end
  end.

Definition parsed_query (self : oid) (query_string response_string : string)
    (re_flags : Z) (parse_function : option ParseArg) (kwargs : QueryKwargs) : M Value :=
  '(response_regex, matched_placeholders) ← lift (compile_template response_string) ;
  let parse_function := resolve_parse_function parse_function matched_placeholders in
  reply ← query self query_string kwargs ;
  res ← lift (Re.search response_regex reply re_flags) ;
  match res with
  | None =>
      raise (ValueError (not_matched query_string reply response_string response_regex))
  | Some groups =>
      match res_mapM (λ '(f, g), f g) (zip parse_function groups) with
      | Ok parsed_result =>
          match parsed_result with
          | [v] => mret v
          | _ => mret (VList parsed_result)
          end
      | Raise (ValueError _) =>
          print (PrintLine "Parsing Error") ;;
          print (PrintMatchedGroups groups) ;;
          print (PrintParsingFunctions parse_function) ;;
          raise (ValueError (not_parsed query_string reply))
      | Raise e => raise e
      | Beyond l => beyond l
      end
  end.

Definition int_query (self : oid) (query_string : string) (kwargs : QueryKwargs) : M Value :=
  parsed_query self query_string "%d" 0 None kwargs.

Definition float_query (self : oid) (query_string : string) (kwargs : QueryKwargs) : M Value :=
  parsed_query self query_string "%f" 0 None kwargs.

(** ** [queried_property] and [queried_channel_property] *)

Record queried_property := {
  dtype : string;
  get_cmd : option string;
  set_cmd : option string;
  fvalidate : option (oid → Value → M ());
  fdel : option (oid → M ());
}.

(** What a read of the attribute yields: the descriptor itself when it
    is read on the class, a value when it is read on an object. *)
Inductive Got :=
| GotDescriptor (p : queried_property)
| GotValue (v : Value).

(** The bound method picked by [dtype], called with one argument. *)
Definition getter (dtype : string) (target : oid) (cmd : string) : M Value :=
  if String.eqb dtype "float" then float_query target cmd no_kwargs
  else if String.eqb dtype "int" then int_query target cmd no_kwargs
  else reply ← query target cmd no_kwargs ; mret (VStr reply).

(** [queried_property.__get__(self, obj)] *)
Definition queried_property_get (self : queried_property) (obj : option oid) : M Got :=
  match obj with
  | None => mret (GotDescriptor self)
  | Some obj =>
      match get_cmd self with
      | None => raise (AttributeError "unreadable attribute")
      | Some cmd => v ← getter (dtype self) obj cmd ; mret (GotValue v)
      end
  end.

(** [queried_property.__set__(self, obj, value)] *)
Definition queried_property_set (self : queried_property) (obj : oid) (value : Value) : M () :=
  print (PrintSet obj value) ;;
  match set_cmd self with
  | None => raise (AttributeError "can't set attribute")
  | Some message =>
      match fvalidate self with
      | Some f => f obj value
      | None => mret ()
      end ;;
      message ← lift (if Str.contains "{0" message then Fmt.format message [value]
                      else if Str.contains "%" message then Fmt.percent message value
                      else Ok message) ;
      print (PrintLine message) ;;
      write obj message
  end.

(** [queried_property.__delete__(self, obj)] *)
Definition queried_property_delete (self : queried_property) (obj : oid) : M () :=
  match fdel self with
  | None => raise (AttributeError "can't delete attribute")
  | Some f => f obj
  end.

(** [assert hasattr(obj, 'ch') and hasattr(obj, 'parent'), ...] *)
Definition assert_channel (obj : option oid) : M () :=
  let failed := raise (AssertionError
                  "object must have a ch attribute and a parent attribute") in
  match obj with
  | None => failed
  | Some obj =>
      o ← get_object obj ;
      match ch o, parent o with
      | Some _, Some _ => mret ()
      | _, _ => failed
      end
  end.

(** The attribute reads [obj.ch] and [obj.parent]. *)
Definition get_ch (obj : oid) : M Value :=
  o ← get_object obj ;
  match ch o with
  | Some c => mret c
  | None => raise (AttributeError "object has no attribute 'ch'")
  end.

Definition get_parent (obj : oid) : M oid :=
  o ← get_object obj ;
  match parent o with
  | Some p => mret p
  | None => raise (AttributeError "object has no attribute 'parent'")
  end.

(** [queried_channel_property.__get__(self, obj)] *)
Definition queried_channel_property_get (self : queried_property) (obj : option oid) : M Got :=
  assert_channel obj ;;
  match obj with
  | None => mret (GotDescriptor self)
  | Some obj =>
      match get_cmd self with
      | None => raise (AttributeError "unreadable attribute")
      | Some message =>
          obj_parent ← get_parent obj ;
          obj_ch ← get_ch obj ;
          message ← lift (if Str.contains "{0" message then Fmt.format message [obj_ch]
                          else if Str.contains "%" message then Fmt.percent message obj_ch
                          else Ok message) ;
          v ← getter (dtype self) obj_parent message ;
          mret (GotValue v)
      end
  end.

(** [queried_channel_property.__set__(self, obj, value)] *)
Definition queried_channel_property_set (self : queried_property) (obj : oid) (value : Value)
  : M () :=
  assert_channel (Some obj) ;;
  match set_cmd self with
  | None => raise (AttributeError "can't set attribute")
  | Some message =>
      match fvalidate self with
      | Some f => f obj value
      | None => mret ()
      end ;;
      obj_ch ← get_ch obj ;
      message ← lift (if Str.contains "{0" message then Fmt.format message [obj_ch; value]
                      else if Str.contains "%" message
                           then Fmt.percent message (VTuple [obj_ch; value])
                      else Ok message) ;
      obj_parent ← get_parent obj ;
      write obj_parent message
  end.

End Instruments.

Arguments Instrument : clear implicits.
Arguments World : clear implicits.
Arguments M : clear implicits.
Arguments queried_property : clear implicits.
Arguments Got : clear implicits.

(** ** Templates read from left to right

    The reading of a template that the ordering of the parse functions
    is stated against: one pass from the left, which at each [%] either
    recognises one placeholder or leaves the character as text. *)

Inductive kind := Kc | KNc | Kd | Kf | Ki | Ko | Ks | Ku | Kx.

#[export] Instance kind_eq_dec : EqDecision kind.
Proof. solve_decision. Defined.

(** The kinds in the order of the rows of [placeholders]. *)
Definition kinds : list kind := [Kc; KNc; Kd; Kf; Ki; Ko; Ks; Ku; Kx].

Definition row (k : kind) : nat :=
  match k with
  | Kc => 0 | KNc => 1 | Kd => 2 | Kf => 3 | Ki => 4
  | Ko => 5 | Ks => 6 | Ku => 7 | Kx => 8
  end%nat.

Definition entry (k : kind) : string * string * parse_fn :=
  default (EmptyString, EmptyString, noop) (placeholders !! row k).

Definition parser_of (k : kind) : parse_fn := snd (entry k).

(** The kind a conversion letter selects. *)
Definition kind_of_letter (c : ascii) : option kind :=
  if Ascii.eqb c "c" then Some Kc
  else if Ascii.eqb c "d" then Some Kd
  else if existsb (Ascii.eqb c) ["e"; "E"; "f"; "g"]%char then Some Kf
  else if Ascii.eqb c "i" then Some Ki
  else if Ascii.eqb c "o" then Some Ko
  else if Ascii.eqb c "s" then Some Ks
  else if Ascii.eqb c "u" then Some Ku
  else if existsb (Ascii.eqb c) ["x"; "X"]%char then Some Kx
  else None.

(** A piece of a template: a character of text, or a placeholder with
    its argument, the conversion letter or, for [%Nc], the digits [N]. *)
Inductive token :=
| Text (c : ascii)
| Placeholder (k : kind) (arg : string).

(** The placeholder starting at the head of [s], if any: a [%] and a
    conversion letter, or a [%], one or more digits and a [c]. *)
Definition placeholder_at (s : string) : option (kind * string) :=
  match s with
  | String p (String c s') =>
      if Ascii.eqb p "%" then
        match kind_of_letter c with
        | Some k => Some (k, String c EmptyString)
        | None =>
            match Py.span Chr.is_digit (String c s') with
            | (String d ds, String c' _) =>
                if Ascii.eqb c' "c" then Some (KNc, String d ds) else None
            | _ => None
            end
        end
      else None
  | _ => None
  end.

(** The placeholder as written in the template. *)
Definition written (k : kind) (arg : string) : string :=
  match k with
  | KNc => "%" +:+ arg +:+ "c"
  | _ => "%" +:+ arg
  end.

(** The capture group that stands for it in the generated regex. *)
Definition group_for (k : kind) (arg : string) : string :=
  match k with
  | KNc => "(.{" +:+ arg +:+ "})"
  | _ => "(" +:+ snd (fst (entry k)) +:+ ")"
  end.

Fixpoint tokens_upto (n : nat) (s : string) : list token :=
  match n, s with
  | S n', String c s' =>
      match placeholder_at s with
      | Some (k, arg) =>
          Placeholder k arg :: tokens_upto n' (Str.drop (Str.len (written k arg)) s)
      | None => Text c :: tokens_upto n' s'
      end
  | _, _ => []
  end.

Definition tokenize (s : string) : list token := tokens_upto (Str.len s) s.

(** A template with the placeholders of the kinds in [done] replaced by
    their groups and the others as written. *)
Definition show (done : kind → bool) (t : token) : string :=
  match t with
  | Text c => String c EmptyString
  | Placeholder k arg => if done k then group_for k arg else written k arg
  end.

Definition render (done : kind → bool) (toks : list token) : string :=
  Str.concat (map (show done) toks).

(** The regex in which every placeholder has become its group, in
    place. *)
Definition regex_of_tokens (toks : list token) : string := render (λ _, true) toks.

(** The placeholders in order of occurrence, each with the offset of
    its [%] in the template; [pos] is the offset of the first token. *)
Fixpoint occurrences (pos : nat) (toks : list token) : list (kind * nat) :=
  match toks with
  | [] => []
  | Text _ :: toks' => occurrences (S pos) toks'
  | Placeholder k arg :: toks' =>
      (k, pos) :: occurrences (pos + Str.len (written k arg)) toks'
  end.

(** ** Worlds for the examples *)

(** An object with nothing but a port. *)
Definition lone {T} (t : T) : Instrument T :=
  {| port := t; termination_line := None; ch := None; parent := None |}.

(** The world holding that object alone, as object 0. *)
Definition single {T} (t : T) : World T :=
  {| heap := {[ 0%nat := lone t ]}; stdout := []; trace := [] |}.

(** A port about to deliver [lines]. *)
Definition script (lines : list string) : ScriptedPort :=
  {| pending := lines; sent := [] |}.

(** A line less its final newline, if it has one. *)
Fixpoint without_terminator (line : string) : string :=
  match line with
  | EmptyString => EmptyString
  | String c EmptyString => if Ascii.eqb c Chr.LF then EmptyString else line
  | String c rest => String c (without_terminator rest)
  end.

(** A validator that accepts strings only. *)
Definition strings_only {T} : oid → Value → M T () := λ _ v,
  match v with
  | VStr _ => mret ()
  | _ => raise (ValueError "a string is required")
  end.

(** Two echo instruments: object 0, and object 1 which is channel 3 of
    object 0. *)
Definition parent_and_channel : World EchoInstrument :=
  {| heap := {[ 0%nat := lone EchoInstrument_init;
                1%nat := {| port := EchoInstrument_init; termination_line := None;
                            ch := Some (VInt 3); parent := Some 0%nat |} ]};
     stdout := [];
     trace := [] |}.


(** The conversion letters of a kind. *)
Definition letters (k : kind) : list ascii :=
  match k with
  | Kc => ["c"] | KNc => [] | Kd => ["d"] | Kf => ["e"; "E"; "f"; "g"] | Ki => ["i"]
  | Ko => ["o"] | Ks => ["s"] | Ku => ["u"] | Kx => ["x"; "X"]
  end%char.

Definition letter_of (k : kind) (c : ascii) : bool :=
  existsb (λ l, Ascii.eqb l c) (letters k).

(** The match attempt of the placeholder regex of kind [k] at the head
    of [s], told from the reading of [placeholder_at]: length of the
    match and groups. *)
Definition at_placeholder (k : kind) (s : string) : option (nat * Re.captures) :=
  match placeholder_at s with
  | Some (k', arg) =>
      if decide (k' = k)
      then Some (Str.len (written k arg), match k with KNc => [Some arg] | _ => [] end)
      else None
  | None => None
  end.

(** The compiled placeholder regex of the row of [k]. *)
Definition pattern_of (k : kind) : Re.pattern :=
  match Re.compile (fst (fst (entry k))) with
  | Ok p => p
  | _ => Re.Pattern Re.REmpty 0
  end.

(** The compiled replacement of the row of [k]. *)
Definition template_of (k : kind) : list Re.titem :=
  match Re.parse_template (Re.p_groups (pattern_of k))
          (Re.lex ("(" +:+ snd (fst (entry k)) +:+ ")")) with
  | Ok t => t
  | _ => []
  end.

(** The arguments a placeholder of kind [k] can have. *)
Definition valid_arg (k : kind) (arg : string) : Prop :=
  match k with
  | KNc => arg ≠ EmptyString ∧ Str.all Chr.is_digit arg = true
  | _ => ∃ c, arg = String c EmptyString ∧ letter_of k c = true
  end.

(** [reads_as s toks]: read from the left, the template [s] consists of
    the tokens [toks]. *)
Inductive reads_as : string → list token → Prop :=
| reads_nil : reads_as EmptyString []
| reads_text c s toks :
    placeholder_at (String c s) = None →
    reads_as s toks →
    reads_as (String c s) (Text c :: toks)
| reads_placeholder k arg s toks :
    valid_arg k arg →
    reads_as s toks →
    reads_as (written k arg +:+ s) (Placeholder k arg :: toks).

(** The kinds substituted after one more round of the loop. *)
Definition and_kind (k : kind) (done : kind → bool) : kind → bool :=
  λ k', if decide (k' = k) then true else done k'.

Definition no_kind : kind → bool := λ _, false.

(** The start offsets of the placeholders of kind [k]. *)
Definition starts_of (k : kind) (occ : list (kind * nat)) : list nat :=
  map snd (filter (λ x, x.1 = k) occ).

(** What a [%Nc] placeholder depends on in the text after the [%]: the
    leading digits, and whether a [c] follows them. *)
Definition count_view (s : string) : string * bool :=
  let '(ds, r) := Py.span Chr.is_digit s in
  (ds, match r with
       | String c _ => Ascii.eqb c "c"
       | EmptyString => false
       end).

Definition no_percent (c : ascii) : bool := negb (Ascii.eqb c "%").

Definition no_brace (c : ascii) : bool := negb (Ascii.eqb c "{" || Ascii.eqb c "}").

(** ** Notions the properties are stated with *)

(** [sub] occurs in [s]. *)
Definition substring (sub s : string) : Prop := ∃ pre post, s = pre +:+ sub +:+ post.

(** What [strip] leaves: the text between the leading and the trailing
    run of whitespace. *)
Definition no_space_at_ends (s : string) : Prop :=
  match s with
  | EmptyString => True
  | String c _ => Chr.is_space c = false ∧ ∃ s' d, s = s' +:+ String d "" ∧ Chr.is_space d = false
  end.

Definition caps_of (k : kind) (arg : string) : Re.captures :=
  match k with KNc => [Some arg] | _ => [] end.

(** The kinds substituted after the rounds [ks]. *)
Definition after (ks : list kind) (done : kind → bool) : kind → bool :=
  foldl (λ d k, and_kind k d) done ks.

(** What the rounds [ks] add to [matched_placeholders]. *)
Definition found (ks : list kind) (occ : list (kind * nat)) : list (parse_fn * nat) :=
  concat (map (λ k, map (λ start, (parser_of k, start)) (starts_of k occ)) ks).

Definition tag (x : kind * nat) : parse_fn * nat := (parser_of x.1, x.2).

Definition by_start : relation (kind * nat) := λ a b, (a.2 ≤ b.2)%nat.

Section Footprint.

Context {T : Type} `{Bus T}.

(** A computation only ever adds to the trace. *)
Definition extends_trace {A} (m : M T A) : Prop :=
  ∀ w, ∃ later, trace (m w).2 = trace w ++ later.


End Footprint.

(** ** Numerals, for stating what [int] computes *)

(** The number a digit string denotes in a base, position by position. *)
Fixpoint numeral (base : Z) (ds : string) : Z :=
  match ds with
  | EmptyString => 0
  | String c rest =>
      default 0 (Chr.digit_value c) * base ^ Z.of_nat (Str.len rest) + numeral base rest
  end.

(** A character that is a digit of the base. *)
Definition digit_in (base : Z) (c : ascii) : bool :=
  match Chr.digit_value c with
  | Some d => d <? base
  | None => false
  end.

(** An optional sign. *)
Inductive sign := NoSign | Plus | Minus.

Definition sign_text (s : sign) : string :=
  match s with
  | NoSign => ""
  | Plus => "+"
  | Minus => "-"
  end.

Definition signed (s : sign) (z : Z) : Z :=
  match s with
  | Minus => - z
  | _ => z
  end.

Definition not_space (c : ascii) : bool := negb (Chr.is_space c).

(** The object [o] with its port in the state [t]. *)
Definition with_port {T} (o : Instrument T) (t : T) : Instrument T :=
  {| port := t; termination_line := termination_line o; ch := ch o; parent := parent o |}.

(** [n] calls of [readline] in a row that all return: the lines and the
    port afterwards. *)
Fixpoint readlines {T} `{Bus T} (timeout : option Timeout) (n : nat) (t : T)
  : option (list string * T) :=
  match n with
  | O => Some ([], t)
  | S n' =>
      match bus_readline timeout t with
      | (Ok line, t') =>
          match readlines timeout n' t' with
          | Some (lines, t'') => Some (line :: lines, t'')
          | None => None
          end
      | _ => None
      end
  end.

(** ** [VisaInstrument] *)

(** The VISA resource [self.instr] as far as [VisaInstrument.query]
    uses it: [instr.query] called with the arguments [A], acting on the
    state [R] of the resource. *)
Class Resource (R A : Type) := {
  resource_query : A → R → Res string * R;
}.

Inductive VisaEvent :=
| VisaQuery (returned : bool)     (* a call of [instr.query] *)
| VisaSleep (seconds : Q)         (* time.sleep *)
| VisaPrint (line : string).

Record Visa (R : Type) := { instr : R; visa_log : list VisaEvent }.
Arguments instr {R} _.
Arguments visa_log {R} _.

Definition visa_step {R} (w : Visa R) (r : R) (evs : list VisaEvent) : Visa R :=
  {| instr := r; visa_log := visa_log w ++ evs |}.

(** [VisaInstrument.query]: the loop [while fail == True]
    with its bare [except], [n] rounds at most. *)
Fixpoint VisaInstrument_query {R A} `{Resource R A} (n : nat) (args : A) (w : Visa R)
  : Res string * Visa R :=
  match n with
  | O => (Beyond OutOfFuel, w)
  | S n' =>
      match resource_query args (instr w) with
      | (Ok _, r1) =>
          let w1 := visa_step w r1 [VisaQuery true; VisaSleep (1 # 10)] in
          match resource_query args r1 with
          | (Ok reply, r2) => (Ok reply, visa_step w1 r2 [VisaQuery true])
          | (Raise _, r2) =>
              VisaInstrument_query n' args (visa_step w1 r2 [VisaQuery false; VisaPrint "fail"])
          | (Beyond l, r2) => (Beyond l, visa_step w1 r2 [VisaQuery false])
          end
      | (Raise _, r1) =>
          VisaInstrument_query n' args (visa_step w r1 [VisaQuery false; VisaPrint "fail"])
      | (Beyond l, r1) => (Beyond l, visa_step w r1 [VisaQuery false])
      end
  end.

(** One round of the loop that ended in the [except] branch. *)
Definition failed_round (evs : list VisaEvent) : Prop :=
  evs = [VisaQuery false; VisaPrint "fail"]
  ∨ evs = [VisaQuery true; VisaSleep (1 # 10); VisaQuery false; VisaPrint "fail"].

(** A resource that raises on its first [failures] calls and answers
    with the number of the call from then on. *)
Record Flaky := { failures : nat; calls : nat }.

#[export] Instance Flaky_resource : Resource Flaky string := {
  resource_query _ r :=
    match failures r with
    | O => (Ok (Str.of_Z (Z.of_nat (S (calls r)))), {| failures := O; calls := S (calls r) |})
    | S f => (Raise (BusError "timeout"), {| failures := f; calls := S (calls r) |})
    end;
}.

(** Characters that cannot begin or belong to a decimal numeral. *)
Definition no_digit (c : ascii) : bool := negb (Chr.is_digit c).

Definition no_digit_or_sign (c : ascii) : bool :=
  negb (Chr.is_digit c || Ascii.eqb c "-" || Ascii.eqb c "+").

(** [s] does not go on with a digit. *)
Definition ends_numeral (s : string) : Prop :=
  match s with
  | String c _ => Chr.is_digit c = false
  | EmptyString => True
  end.

(** [s] does not go on with a character other than white space. *)
Definition ends_word (s : string) : Prop :=
  match s with
  | String c _ => Chr.is_space c = true
  | EmptyString => True
  end.

#[local] Arguments Str.contains : simpl never.

(** * Properties *)

(** ** Strings *)

Lemma str_app_nil_r (s : string) : s +:+ "" = s.
Proof. induction s as [|c s IH]; simpl; [done|]. congruence. Qed.

Lemma str_app_assoc (a b c : string) : (a +:+ b) +:+ c = a +:+ b +:+ c.
Proof. induction a as [|x a IH]; simpl; congruence. Qed.

Lemma len_app (a b : string) : Str.len (a +:+ b) = (Str.len a + Str.len b)%nat.
Proof. induction a as [|x a IH]; simpl; [done|]. unfold Str.len in *. simpl. lia. Qed.

Lemma drop_app (a b : string) : Str.drop (Str.len a) (a +:+ b) = b.
Proof. induction a as [|x a IH]; simpl; [by destruct b|done]. Qed.

Lemma take_app (a b : string) : Str.take (Str.len a) (a +:+ b) = a.
Proof. induction a as [|x a IH]; simpl; [by destruct b|congruence]. Qed.

Lemma prefix_iff (a s : string) : String.prefix a s = true ↔ ∃ b, s = a +:+ b.
Proof.
  revert s. induction a as [|x a IH]; intros s; simpl.
  - destruct s; split; eauto.
  - destruct s as [|y s]; simpl.
    + split; [done|]. by intros [b ?].
    + destruct (ascii_dec x y) as [->|Hne].
      * rewrite IH. split; intros [b Hb]; exists b; congruence.
      * split; [done|]. intros [b Hb]. congruence.
Qed.

Lemma contains_unfold (sub s : string) :
  Str.contains sub s =
    if String.prefix sub s then true
    else match s with
         | EmptyString => false
         | String _ s' => Str.contains sub s'
         end.
Proof. by destruct s. Qed.

Lemma contains_iff (sub s : string) : Str.contains sub s = true ↔ substring sub s.
Proof.
  induction s as [|c s IH]; rewrite contains_unfold.
  - destruct (String.prefix sub "") eqn:E.
    + split; [|done]. intros _. apply prefix_iff in E as [b Hb]. by exists "", b.
    + split; [done|]. intros ([|??] & post & Hs); simpl in Hs; [|done].
      assert (String.prefix sub "" = true) as E' by (apply prefix_iff; eauto). congruence.
  - destruct (String.prefix sub (String c s)) eqn:E.
    + split; [|done]. intros _. apply prefix_iff in E as [b Hb]. by exists "", b.
    + rewrite IH. split.
      * intros (pre & post & ->). by exists (String c pre), post.
      * intros ([|x pre] & post & Hs); simpl in Hs.
        -- assert (String.prefix sub (String c s) = true) as E' by (apply prefix_iff; eauto).
           congruence.
        -- injection Hs as -> ->. by exists pre, post.
Qed.

Lemma contains_middle (pre sub post : string) : Str.contains sub (pre +:+ sub +:+ post) = true.
Proof. apply contains_iff. by exists pre, post. Qed.

Lemma lstrip_app (ws s : string) :
  Str.all Chr.is_space ws = true → Str.lstrip (ws +:+ s) = Str.lstrip s.
Proof.
  induction ws as [|c ws IH]; simpl; [done|].
  intros [Hc Hws]%andb_prop. rewrite Hc. auto.
Qed.

Lemma rstrip_spaces (ws : string) : Str.all Chr.is_space ws = true → Str.rstrip ws = "".
Proof.
  induction ws as [|c ws IH]; simpl; [done|].
  intros [Hc Hws]%andb_prop. by rewrite IH, Hc.
Qed.

Lemma rstrip_last (s : string) (d : ascii) (ws : string) :
  Chr.is_space d = false → Str.all Chr.is_space ws = true →
  Str.rstrip (s +:+ String d ws) = s +:+ String d "".
Proof.
  intros Hd Hws. induction s as [|c s IH]; simpl.
  - by rewrite (rstrip_spaces ws Hws), Hd.
  - rewrite IH. by destruct s.
Qed.

Lemma strip_spec (pre core post : string) :
  Str.all Chr.is_space pre = true → Str.all Chr.is_space post = true →
  no_space_at_ends core →
  Str.strip (pre +:+ core +:+ post) = core.
Proof.
  intros Hpre Hpost Hcore. unfold Str.strip. rewrite lstrip_app by done.
  destruct core as [|c core]; simpl in *.
  - assert (Str.lstrip post = "") as ->; [|done].
    clear -Hpost. induction post as [|c post IH]; simpl in *; [done|].
    apply andb_prop in Hpost as [-> ?]. auto.
  - destruct Hcore as (Hc & s' & d & Hs & Hd). rewrite Hc.
    change (String c (core +:+ post)) with (String c core +:+ post).
    rewrite Hs, str_app_assoc. simpl. by apply rstrip_last.
Qed.

(** ** The monad of methods *)

Section MethodLaws.

Context {T : Type} `{Bus T}.

Lemma bind_ok {A B} (m : M T A) (k : A → M T B) (w w' : World T) (a : A) :
  m w = (Ok a, w') → (m ≫= k) w = k a w'.
Proof. intros Hm. unfold mbind, M_bind. by rewrite Hm. Qed.

Lemma bind_raise {A B} (m : M T A) (k : A → M T B) (w w' : World T) (e : PyExn) :
  m w = (Raise e, w') → (m ≫= k) w = (Raise e, w').
Proof. intros Hm. unfold mbind, M_bind. by rewrite Hm. Qed.

Lemma bind_beyond {A B} (m : M T A) (k : A → M T B) (w w' : World T) (l : Limit) :
  m w = (Beyond l, w') → (m ≫= k) w = (Beyond l, w').
Proof. intros Hm. unfold mbind, M_bind. by rewrite Hm. Qed.

Lemma extends_trace_bind {A B} (m : M T A) (k : A → M T B) :
  extends_trace m → (∀ a, extends_trace (k a)) → extends_trace (m ≫= k).
Proof.
  intros Hm Hk w. destruct (Hm w) as [l1 Hl1].
  unfold mbind, M_bind. destruct (m w) as [[a|e|l] w1]; simpl in *.
  - destruct (Hk a w1) as [l2 Hl2]. exists (l1 ++ l2). by rewrite Hl2, Hl1, <-app_assoc.
  - eauto.
  - eauto.
Qed.

Lemma extends_trace_on_port {A} obj ev (op : T → Res A * T) :
  extends_trace (on_port obj ev op).
Proof.
  intros w. unfold on_port. destruct (heap w !! obj) as [o|].
  - destruct (op (port o)) as [r t']. by exists [ev].
  - exists []. by rewrite app_nil_r.
Qed.

Lemma on_port_trace {A} obj ev (op : T → Res A * T) w :
  is_Some (heap w !! obj) → trace (on_port obj ev op w).2 = trace w ++ [ev].
Proof.
  intros [o Ho]. unfold on_port. rewrite Ho. by destruct (op (port o)).
Qed.

Lemma extends_trace_loop n self term tmo response last_line :
  extends_trace (read_multiline_loop n self term tmo response last_line).
Proof.
  revert response last_line. induction n as [|n IH]; intros response last_line; simpl.
  - destruct (_ && _); intros w; exists []; by rewrite app_nil_r.
  - destruct (_ && _).
    + apply extends_trace_bind; [apply extends_trace_on_port|]. intros a. apply IH.
    + intros w; exists []; by rewrite app_nil_r.
Qed.

(** The sentinel the loop starts from decides whether it is entered. *)
Lemma read_multiline_not_entered fuel self term tmo w :
  Str.contains term "dummy" = true →
  read_multiline fuel self (Some term) tmo w = (Ok "", w).
Proof.
  intros Hin. unfold read_multiline. simpl.
  unfold mbind, M_bind, mret, M_ret. destruct fuel; simpl; by rewrite Hin.
Qed.

Lemma read_multiline_entered fuel self term tmo w :
  Str.contains term "dummy" = false → (0 < fuel)%nat → is_Some (heap w !! self) →
  ∃ later, trace (read_multiline fuel self (Some term) tmo w).2
           = trace w ++ EvReadline self tmo :: later.
Proof.
  intros Hin Hfuel Hobj. unfold read_multiline. simpl.
  unfold mbind at 1, M_bind at 1, mret, M_ret. destruct fuel as [|n]; [lia|].
  simpl. rewrite Hin. simpl.
  pose proof (on_port_trace self (EvReadline self tmo) (bus_readline tmo) w Hobj) as Hrd.
  fold (readline self tmo) in Hrd.
  unfold mbind, M_bind. destruct (readline self tmo w) as [[line|e|l] w1] eqn:E; simpl in *.
  - destruct (extends_trace_loop n self term tmo line line w1) as [later Hl].
    exists later. rewrite Hl, Hrd. by rewrite <-app_assoc.
  - by exists [].
  - by exists [].
Qed.

(** More rounds do not change a run that came to an end. *)
Lemma read_multiline_loop_more n m self term tmo response last_line w r w' :
  (n ≤ m)%nat →
  read_multiline_loop n self term tmo response last_line w = (r, w') →
  r ≠ Beyond OutOfFuel →
  read_multiline_loop m self term tmo response last_line w = (r, w').
Proof.
  revert m response last_line w. induction n as [|n IH]; intros m response last_line w Hle.
  - simpl. destruct (_ && _) eqn:E.
    + unfold beyond. intros [= <- <-]. done.
    + intros Hr _. destruct m; simpl; by rewrite E.
  - destruct m as [|m]; [lia|]. simpl. destruct (_ && _); [|done].
    unfold mbind, M_bind. destruct (readline self tmo w) as [[line|e|l] w1]; [|done..].
    apply IH. lia.
Qed.

Lemma read_multiline_more n m self term tmo w r w' :
  (n ≤ m)%nat →
  read_multiline n self (Some term) tmo w = (r, w') →
  r ≠ Beyond OutOfFuel →
  read_multiline m self (Some term) tmo w = (r, w').
Proof.
  unfold read_multiline. simpl. unfold mbind, M_bind, mret, M_ret.
  apply read_multiline_loop_more.
Qed.

End MethodLaws.

(** ** Formatting *)

Lemma format_scan_text (args : list Value) (n : Fmt.numbering) (a s : string) :
  Str.all no_brace a = true →
  Fmt.format_scan args n None (a +:+ s)
  = r ← Fmt.format_scan args n None s ; Ok (a +:+ r).
Proof.
  induction a as [|c a IH]; intros Ha.
  - simpl. by destruct (Fmt.format_scan args n None s).
  - simpl in Ha. apply andb_prop in Ha as [Hc Ha].
    assert (c ≠ "{"%char ∧ c ≠ "}"%char) as [H1 H2].
    { unfold no_brace in Hc. apply negb_true_iff, orb_false_elim in Hc as [H1 H2].
      split; intros ->; by rewrite ?Ascii.eqb_refl in *. }
    change (String c a +:+ s) with (String c (a +:+ s)).
    assert (Fmt.format_scan args n None (String c (a +:+ s))
            = r ← Fmt.format_scan args n None (a +:+ s) ; Ok (String c r)) as ->.
    { simpl. destruct c as [[] [] [] [] [] [] [] []]; try done. }
    rewrite IH by done. by destruct (Fmt.format_scan args n None s).
Qed.

Lemma format_scan_end (args : list Value) (n : Fmt.numbering) (a : string) :
  Str.all no_brace a = true → Fmt.format_scan args n None a = Ok a.
Proof.
  intros Ha. rewrite <-(str_app_nil_r a) at 1. rewrite format_scan_text by done.
  simpl. by rewrite str_app_nil_r.
Qed.

(** A field [{0}] is replaced by the text of the first argument. *)
Lemma format_scan_field0 (v : Value) (rest : list Value) (txt s : string) :
  Py.str v = Ok txt →
  Fmt.format_scan (v :: rest) Fmt.Undecided None ("{0}" +:+ s)
  = r ← Fmt.format_scan (v :: rest) Fmt.Manual None s ; Ok (txt +:+ r).
Proof. intros Hv. simpl. by rewrite Hv. Qed.

Lemma format_scan_field1 (v0 v : Value) (rest : list Value) (txt s : string) :
  Py.str v = Ok txt →
  Fmt.format_scan (v0 :: v :: rest) Fmt.Manual None ("{1}" +:+ s)
  = r ← Fmt.format_scan (v0 :: v :: rest) Fmt.Manual None s ; Ok (txt +:+ r).
Proof. intros Hv. simpl. by rewrite Hv. Qed.

(** Text, the field [{0}], text: whatever the text is, [%] included, it
    is kept as it stands. *)
Lemma format_one_field (pre post txt : string) (v : Value) :
  Str.all no_brace pre = true → Str.all no_brace post = true → Py.str v = Ok txt →
  Fmt.format (pre +:+ "{0}" +:+ post) [v] = Ok (pre +:+ txt +:+ post).
Proof.
  intros Hpre Hpost Hv. unfold Fmt.format.
  rewrite format_scan_text by done.
  rewrite (format_scan_field0 v [] txt post Hv).
  by rewrite format_scan_end.
Qed.

Lemma format_two_fields (pre mid post txt0 txt1 : string) (v0 v1 : Value) :
  Str.all no_brace pre = true → Str.all no_brace mid = true → Str.all no_brace post = true →
  Py.str v0 = Ok txt0 → Py.str v1 = Ok txt1 →
  Fmt.format (pre +:+ "{0}" +:+ mid +:+ "{1}" +:+ post) [v0; v1]
  = Ok (pre +:+ txt0 +:+ mid +:+ txt1 +:+ post).
Proof.
  intros Hpre Hmid Hpost Hv0 Hv1. unfold Fmt.format.
  rewrite format_scan_text by done.
  rewrite (format_scan_field0 v0 [v1] txt0 _ Hv0).
  rewrite format_scan_text by done.
  rewrite (format_scan_field1 v0 v1 [] txt1 _ Hv1).
  by rewrite format_scan_end.
Qed.

Lemma contains_field0 (pre post : string) :
  Str.contains "{0" (pre +:+ "{0}" +:+ post) = true.
Proof. apply contains_iff. by exists pre, ("}" +:+ post). Qed.

(** ** Which object a method talks to *)

Section Confinement.

Context {T : Type} `{Bus T}.
















End Confinement.

(** ** The placeholder regexes *)

Lemma compile_entry (k : kind) : Re.compile (fst (fst (entry k))) = Ok (pattern_of k).
Proof. by destruct k. Qed.

Lemma template_entry (k : kind) :
  Re.parse_template (Re.p_groups (pattern_of k)) (Re.lex ("(" +:+ snd (fst (entry k)) +:+ ")"))
  = Ok (template_of k).
Proof. by destruct k. Qed.

Lemma len_cons c s : Str.len (String c s) = S (Str.len s).
Proof. done. Qed.

Lemma span_digits_app (ds : string) (c : ascii) (s : string) :
  Str.all Chr.is_digit ds = true → Chr.is_digit c = false →
  Py.span Chr.is_digit (ds +:+ String c s) = (ds, String c s).
Proof.
  intros Hds Hc. induction ds as [|d ds IH]; simpl.
  - by rewrite Hc.
  - simpl in Hds. apply andb_prop in Hds as [Hd Hds]. by rewrite Hd, IH.
Qed.

Lemma span_spec (p : ascii → bool) (s a b : string) :
  Py.span p s = (a, b) →
  s = a +:+ b ∧ Str.all p a = true ∧ match b with String c _ => p c = false | _ => True end.
Proof.
  revert a b. induction s as [|c s IH]; intros a b; simpl.
  - by intros [= <- <-].
  - destruct (p c) eqn:Hc.
    + destruct (Py.span p s) as [a' b']. intros [= <- <-].
      destruct (IH a' b' eq_refl) as (-> & Ha & Hb). simpl. by rewrite Hc.
    + intros [= <- <-]. simpl. by rewrite Hc.
Qed.

(** Longest-first repetition of a character class, followed by
    something that cannot start with a character of the class: the
    whole run is taken. *)
Lemma rep_greedy_run {R} (p : ascii → bool) (budget : nat) (s : string)
    (caps : Re.captures) (k : Re.cont R) :
  (Str.len s ≤ budget)%nat →
  (∀ c s' caps', p c = true → k (String c s') caps' = None) →
  Re.rep_greedy (Re.one_char p) budget None s caps k = k (Py.span p s).2 caps.
Proof.
  intros Hb Hk. revert s Hb. induction budget as [|b IH]; intros s Hb.
  - destruct s; [done|]. rewrite len_cons in Hb. lia.
  - destruct s as [|c s]; [done|]. rewrite len_cons in Hb.
    cbn [Re.rep_greedy Re.one_char Py.span]. destruct (p c) eqn:Hc.
    + assert ((Str.len s <? Str.len (String c s))%nat = true) as ->.
      { apply Nat.ltb_lt. rewrite len_cons. lia. }
      cbn [fmap option_fmap option_map]. rewrite IH by lia.
      destruct (Py.span p s) as [a r]. cbn [snd].
      destruct (k r caps) eqn:Hr; [done|].
      by rewrite Hk.
    + done.
Qed.

Lemma two_more (s : string) : (S (S (Str.len s)) - Str.len s)%nat = 2%nat.
Proof. lia. Qed.

Lemma kind_of_letter_spec (c : ascii) :
  match kind_of_letter c with
  | Some k => letter_of k c = true ∧ Chr.is_digit c = false
              ∧ ∀ k', k' ≠ k → letter_of k' c = false
  | None => ∀ k, letter_of k c = false
  end.
Proof.
  unfold kind_of_letter. cbn [existsb orb].
  repeat match goal with
         | |- context [Ascii.eqb c ?l] =>
             destruct (Ascii.eqb_spec c l) as [->|?];
             [cbn; split; [done|split; [done|by intros []]]|cbn [orb]]
         end.
  intros k. unfold letter_of.
  destruct k; cbn [letters existsb];
    repeat match goal with
           | |- context [Ascii.eqb ?l c] =>
               destruct (Ascii.eqb_spec l c) as [<-|?]; [congruence|cbn [orb]]
           end; done.
Qed.

Lemma is_digit_no_letter (c : ascii) (k : kind) : Chr.is_digit c = true → letter_of k c = false.
Proof.
  intros Hd. pose proof (kind_of_letter_spec c) as Hs.
  destruct (kind_of_letter c) as [k0|]; [|done].
  destruct Hs as (_ & Hnd & _). congruence.
Qed.

(** What [at_placeholder] says for a kind with conversion letters. *)
Lemma at_placeholder_letter (k : kind) (c1 c2 : ascii) (s : string) :
  k ≠ KNc →
  at_placeholder k (String c1 (String c2 s))
  = if Ascii.eqb "%" c1 && letter_of k c2 then Some (2%nat, []) else None.
Proof.
  intros Hk. unfold at_placeholder, placeholder_at.
  rewrite (Ascii.eqb_sym c1). destruct (Ascii.eqb "%" c1); [|done]. cbn [andb].
  pose proof (kind_of_letter_spec c2) as Hs.
  destruct (kind_of_letter c2) as [k0|].
  - destruct Hs as (Hk0 & _ & Hother). destruct (decide (k0 = k)) as [->|Hne].
    + rewrite Hk0. by destruct k.
    + by rewrite Hother.
  - rewrite Hs.
    destruct (Py.span Chr.is_digit (String c2 s)) as [[|d ds] [|c' r]]; try done.
    destruct (Ascii.eqb c' "c"); [|done]. by destruct (decide (KNc = k)) as [<-|].
Qed.

Lemma at_placeholder_short (k : kind) (s : string) :
  (Str.len s < 2)%nat → at_placeholder k s = None.
Proof. destruct s as [|c1 [|c2 s]]; [done..|]. rewrite !len_cons. lia. Qed.

(** The regexes of the rows with a conversion letter match a [%]
    followed by one of their letters, and nothing else. *)
Lemma match_prefix_letter (k : kind) (s : string) :
  k ≠ KNc → Re.match_prefix (pattern_of k) s = at_placeholder k s.
Proof.
  intros Hk. destruct s as [|c1 [|c2 s]].
  - by destruct k.
  - rewrite at_placeholder_short by (rewrite len_cons; simpl; lia).
    destruct k; try done; unfold Re.match_prefix;
      match goal with
      | |- context [pattern_of ?k] =>
          let p := eval vm_compute in (pattern_of k) in change (pattern_of k) with p
      end;
      cbn [Re.p_regex Re.p_groups Re.run replicate]; unfold Re.one_char;
      by destruct (Ascii.eqb "%" c1).
  - rewrite at_placeholder_letter by done.
    destruct k; try done; unfold Re.match_prefix;
      match goal with
      | |- context [pattern_of ?k] =>
          let p := eval vm_compute in (pattern_of k) in change (pattern_of k) with p
      end;
      cbn [Re.p_regex Re.p_groups Re.run replicate]; unfold Re.one_char;
      rewrite !len_cons, two_more;
      destruct (Ascii.eqb "%" c1); try done;
      unfold letter_of, Re.set_matches;
      cbn [letters existsb Re.item_matches xorb andb]; by rewrite ?orb_false_r.
Qed.

Lemma set_matches_digit (c : ascii) :
  Re.set_matches false [Re.CDigit false] c = Chr.is_digit c.
Proof. unfold Re.set_matches. cbn [existsb Re.item_matches xorb]. by rewrite orb_false_r. Qed.

Lemma span_ext (p q : ascii → bool) (s : string) :
  (∀ c, p c = q c) → Py.span p s = Py.span q s.
Proof. intros Hpq. induction s as [|c s IH]; simpl; [done|]. by rewrite Hpq, IH. Qed.

Lemma kind_of_letter_digit (c : ascii) : Chr.is_digit c = true → kind_of_letter c = None.
Proof.
  intros Hd. pose proof (kind_of_letter_spec c) as Hs.
  destruct (kind_of_letter c) as [k|]; [|done]. destruct Hs as (_ & Hnd & _). congruence.
Qed.

Lemma kind_of_letter_not_count (c : ascii) : kind_of_letter c ≠ Some KNc.
Proof.
  intros Hk. pose proof (kind_of_letter_spec c) as Hs. rewrite Hk in Hs.
  by destruct Hs as [? _].
Qed.

Lemma digit_not_c (c : ascii) : Chr.is_digit c = true → Ascii.eqb "c" c = false.
Proof. intros Hd. destruct (Ascii.eqb_spec "c" c) as [<-|]; [done|done]. Qed.

(** The regex of the row [%Nc] matches a [%], one or more digits and a
    [c]; its group is the digits. *)
Lemma match_prefix_count (s : string) :
  Re.match_prefix (pattern_of KNc) s = at_placeholder KNc s.
Proof.
  unfold Re.match_prefix.
  let p := eval vm_compute in (pattern_of KNc) in change (pattern_of KNc) with p.
  cbn [Re.p_regex Re.p_groups Re.run replicate Re.rep_exactly fmap option_fmap option_map].
  destruct s as [|c1 [|d s1]]; [done| |].
  { unfold at_placeholder, placeholder_at, Re.one_char. by destruct (Ascii.eqb "%" c1). }
  unfold at_placeholder, placeholder_at. rewrite (Ascii.eqb_sym c1).
  unfold Re.one_char at 1. destruct (Ascii.eqb "%" c1); [|done].
  unfold Re.one_char at 1. rewrite set_matches_digit.
  destruct (Chr.is_digit d) eqn:Hd.
  - rewrite (kind_of_letter_digit d Hd). cbn [Py.span]. rewrite Hd.
    rewrite rep_greedy_run.
    + rewrite (span_ext _ Chr.is_digit) by apply set_matches_digit.
      destruct (Py.span Chr.is_digit s1) as [ds r] eqn:Hspan. cbn [snd].
      apply span_spec in Hspan as (-> & Hds & Hr).
      destruct r as [|c' r']; [done|].
      unfold Re.one_char. rewrite (Ascii.eqb_sym c').
      destruct (Ascii.eqb "c" c'); [|done].
      destruct (decide (KNc = KNc)); [|done]. f_equal. f_equal.
      * unfold written. rewrite !len_cons, !len_app, !len_cons. simpl. lia.
      * cbn [list_insert pred]. unfold insert. cbn. do 2 f_equal.
        pose proof (len_app ds (String c' r')) as Hlen. rewrite len_cons in Hlen.
        unfold Str.len in Hlen.
        replace (String.length (ds +:+ String c' r') - String.length r')%nat
          with (Str.len (String d ds)) by (rewrite Hlen, len_cons; unfold Str.len; lia).
        apply (take_app (String d ds) (String c' r')).
    + done.
    + intros c s' caps' Hc. unfold Re.one_char. rewrite set_matches_digit in Hc.
      by rewrite digit_not_c.
  - pose proof (kind_of_letter_not_count d) as Hnc.
    destruct (kind_of_letter d) as [k0|].
    + destruct (decide (k0 = KNc)) as [->|]; [done|done].
    + cbn [Py.span]. by rewrite Hd.
Qed.

(** Every row of the table matches where [at_placeholder] says. *)
Lemma match_prefix_entry (k : kind) (s : string) :
  Re.match_prefix (pattern_of k) s = at_placeholder k s.
Proof.
  destruct (decide (k = KNc)) as [->|Hk];
    [apply match_prefix_count|by apply match_prefix_letter].
Qed.

(** ** Reading a template from the left *)

Lemma letter_kind (k : kind) (c : ascii) : letter_of k c = true → kind_of_letter c = Some k.
Proof.
  intros Hl. pose proof (kind_of_letter_spec c) as Hs.
  destruct (kind_of_letter c) as [k0|].
  - destruct Hs as (_ & _ & Hother). destruct (decide (k = k0)) as [->|Hne]; [done|].
    rewrite Hother in Hl by done. done.
  - by rewrite Hs in Hl.
Qed.

Lemma letter_not_percent (k : kind) (c : ascii) : letter_of k c = true → c ≠ "%"%char.
Proof. intros Hl ->. by destruct k. Qed.

Lemma digit_not_percent (c : ascii) : Chr.is_digit c = true → c ≠ "%"%char.
Proof. by intros Hd ->. Qed.

Lemma written_count_app (arg rest : string) :
  written KNc arg +:+ rest = String "%" (arg +:+ String "c" rest).
Proof. unfold written. simpl. by rewrite str_app_assoc. Qed.

(** A placeholder is read wherever it is written, whatever follows. *)
Lemma placeholder_at_written (k : kind) (arg rest : string) :
  valid_arg k arg → placeholder_at (written k arg +:+ rest) = Some (k, arg).
Proof.
  intros Hv. destruct (decide (k = KNc)) as [->|Hk].
  - destruct Hv as [Hne Hds]. destruct arg as [|d ds]; [done|].
    simpl in Hds. apply andb_prop in Hds as [Hd Hds].
    rewrite written_count_app. unfold placeholder_at. cbn [String.append].
    rewrite Ascii.eqb_refl, (kind_of_letter_digit d Hd).
    change (String d (ds +:+ String "c" rest)) with (String d ds +:+ String "c" rest).
    rewrite span_digits_app; [done| |done]. simpl. by rewrite Hd.
  - assert (∃ c, arg = String c "" ∧ letter_of k c = true) as (c & -> & Hc) by by destruct k.
    assert (written k (String c "") = String "%" (String c "")) as -> by by destruct k.
    unfold placeholder_at. cbn [String.append]. rewrite Ascii.eqb_refl.
    by rewrite (letter_kind k c Hc).
Qed.

Lemma placeholder_at_spec (s : string) (k : kind) (arg : string) :
  placeholder_at s = Some (k, arg) → valid_arg k arg ∧ ∃ rest, s = written k arg +:+ rest.
Proof.
  unfold placeholder_at. destruct s as [|p [|c s]]; [done..|].
  destruct (Ascii.eqb_spec p "%") as [->|]; [|done].
  pose proof (kind_of_letter_spec c) as Hs.
  destruct (kind_of_letter c) as [k0|].
  - intros [= <- <-]. destruct Hs as (Hl & _ & _). split.
    + destruct k0; try (by exists c). by destruct (kind_of_letter_not_count c); apply letter_kind.
    + exists s. destruct k0; try done.
  - destruct (Py.span Chr.is_digit (String c s)) as [[|d ds] [|c' r]] eqn:Hspan; try done.
    destruct (Ascii.eqb_spec c' "c") as [->|]; [|done]. intros [= <- <-].
    apply span_spec in Hspan as (Heq & Hds & _). split; [done|].
    exists r. by rewrite written_count_app, Heq.
Qed.

Lemma written_len (k : kind) (arg : string) :
  ∃ w, written k arg = String "%" w ∧ Str.len (written k arg) = S (Str.len w).
Proof. destruct k; by eexists. Qed.

Lemma tokens_upto_reads (n : nat) (s : string) :
  (Str.len s ≤ n)%nat → reads_as s (tokens_upto n s).
Proof.
  revert s. induction n as [|n IH]; intros s Hn.
  - destruct s; [constructor|]. rewrite len_cons in Hn. lia.
  - destruct s as [|c s]; [constructor|]. rewrite len_cons in Hn.
    cbn [tokens_upto]. destruct (placeholder_at (String c s)) as [[k arg]|] eqn:Hp.
    + apply placeholder_at_spec in Hp as (Hv & rest & Hs). rewrite Hs at 1.
      rewrite Hs, drop_app. constructor; [done|]. apply IH.
      destruct (written_len k arg) as (w & Hw & Hlen).
      assert (Str.len (String c s) = Str.len (written k arg +:+ rest)) as Hl by by rewrite Hs.
      rewrite len_app, len_cons, Hlen in Hl. lia.
    + constructor; [done|]. apply IH. lia.
Qed.

Lemma tokenize_reads (s : string) : reads_as s (tokenize s).
Proof. by apply tokens_upto_reads. Qed.

Lemma concat_cons (a : string) (l : list string) : Str.concat (a :: l) = a +:+ Str.concat l.
Proof. done. Qed.

Lemma render_cons (done : kind → bool) (t : token) (toks : list token) :
  render done (t :: toks) = show done t +:+ render done toks.
Proof. done. Qed.

Lemma reads_render (s : string) (toks : list token) :
  reads_as s toks → render no_kind toks = s.
Proof.
  induction 1 as [|c s toks Hp Hr IH|k arg s toks Hv Hr IH]; [done|..];
    by rewrite render_cons, IH.
Qed.

Lemma placeholder_at_view (p c : ascii) (s : string) :
  placeholder_at (String p (String c s))
  = if Ascii.eqb p "%" then
      match kind_of_letter c with
      | Some k => Some (k, String c "")
      | None =>
          match count_view (String c s) with
          | (String d ds, true) => Some (KNc, String d ds)
          | _ => None
          end
      end
    else None.
Proof.
  unfold placeholder_at, count_view. destruct (Ascii.eqb p "%"); [|done].
  destruct (kind_of_letter c); [done|].
  by destruct (Py.span Chr.is_digit (String c s)) as [[|d ds] [|c' r]].
Qed.

Lemma count_view_cons (c : ascii) (s : string) :
  count_view (String c s)
  = if Chr.is_digit c then (String c (count_view s).1, (count_view s).2)
    else ("", Ascii.eqb c "c").
Proof.
  unfold count_view. cbn [Py.span]. destruct (Chr.is_digit c); [|done].
  by destruct (Py.span Chr.is_digit s).
Qed.

Lemma show_head (done : kind → bool) (k : kind) (arg : string) :
  ∃ c rest, show done (Placeholder k arg) = String c rest
            ∧ (c = "%" ∨ c = "(")%char.
Proof. cbn [show]. destruct (done k); destruct k; eauto. Qed.

Lemma count_view_render (done : kind → bool) (toks : list token) :
  count_view (render done toks) = count_view (render no_kind toks).
Proof.
  induction toks as [|[x|k arg] toks IH]; [done|..]; rewrite !render_cons.
  - cbn [show String.append]. by rewrite !count_view_cons, IH.
  - destruct (show_head done k arg) as (c & r & -> & Hc).
    destruct (show_head no_kind k arg) as (c' & r' & -> & Hc').
    cbn [String.append]. rewrite !count_view_cons. by destruct Hc as [->| ->], Hc' as [->| ->].
Qed.

(** Whether a placeholder starts at a character of the template does
    not depend on which placeholders after it have been substituted. *)
Lemma placeholder_at_render (done : kind → bool) (c : ascii) (toks : list token) :
  placeholder_at (String c (render done toks))
  = placeholder_at (String c (render no_kind toks)).
Proof.
  destruct toks as [|[x|k arg] toks]; [done|..]; rewrite !render_cons.
  - cbn [show String.append]. rewrite !placeholder_at_view, !count_view_cons.
    by rewrite (count_view_render done).
  - destruct (show_head done k arg) as (h & r & -> & Hh).
    destruct (show_head no_kind k arg) as (h' & r' & -> & Hh').
    cbn [String.append]. rewrite !placeholder_at_view, !count_view_cons.
    by destruct Hh as [->| ->], Hh' as [->| ->].
Qed.

(** ** One round of the loop over the table *)

Lemma sub_scan_here h t adj (s : string) :
  Re.sub_scan h t 0 adj s
  = match h s with
    | Some (S n, caps) =>
        e ← Re.expand t caps ;
        rest ← match s with
               | String _ s' => Re.sub_scan h t n true s'
               | EmptyString => Ok EmptyString
               end ;
        Ok (e +:+ rest)
    | Some (O, caps) =>
        e ← (if adj then Ok EmptyString else Re.expand t caps) ;
        match s with
        | String c s' => rest ← Re.sub_scan h t 0 false s' ; Ok (e +:+ String c rest)
        | EmptyString => Ok e
        end
    | None =>
        match s with
        | String c s' => rest ← Re.sub_scan h t 0 false s' ; Ok (String c rest)
        | EmptyString => Ok EmptyString
        end
    end.
Proof. by destruct s. Qed.

Lemma sub_scan_ext h h' t skip adj (s : string) :
  (∀ x, h x = h' x) → Re.sub_scan h t skip adj s = Re.sub_scan h' t skip adj s.
Proof.
  intros Hh. revert skip adj. induction s as [|c s IH]; intros skip adj.
  - destruct skip; [|done]. by rewrite (sub_scan_here h), (sub_scan_here h'), Hh.
  - destruct skip as [|n]; [|apply IH].
    rewrite (sub_scan_here h), (sub_scan_here h'), Hh.
    destruct (h' (String c s)) as [[[|n] caps]|]; by rewrite ?IH.
Qed.

Lemma finditer_scan_ext h h' skip pos (s : string) :
  (∀ x, h x = h' x) → Re.finditer_scan h skip pos s = Re.finditer_scan h' skip pos s.
Proof.
  intros Hh. revert skip pos. induction s as [|c s IH]; intros skip pos.
  - destruct skip; [|done]. simpl. by rewrite Hh.
  - destruct skip as [|n]; [|apply IH]. simpl. rewrite Hh.
    destruct (h' (String c s)) as [[n caps]|]; by rewrite IH.
Qed.

Lemma sub_scan_skip h t adj (u v : string) :
  Re.sub_scan h t (Str.len u) adj (u +:+ v) = Re.sub_scan h t 0 (match u with "" => adj | _ => true end) v.
Proof.
  revert adj. induction u as [|c u IH]; intros adj; [done|].
  cbn [Str.len String.length String.append Re.sub_scan]. fold (Str.len u).
  rewrite IH. by destruct u.
Qed.

Lemma finditer_scan_skip h pos (u v : string) :
  Re.finditer_scan h (Str.len u) pos (u +:+ v) = Re.finditer_scan h 0 (pos + Str.len u) v.
Proof.
  revert pos. induction u as [|c u IH]; intros pos.
  - simpl. by rewrite Nat.add_0_r.
  - cbn [Str.len String.length String.append Re.finditer_scan]. fold (Str.len u).
    rewrite IH. f_equal. unfold Str.len. lia.
Qed.

Lemma at_placeholder_not_percent (k : kind) (c : ascii) (s : string) :
  no_percent c = true → at_placeholder k (String c s) = None.
Proof.
  intros Hc. unfold at_placeholder, placeholder_at. destruct s; [done|].
  apply negb_true_iff in Hc. by rewrite Hc.
Qed.

Lemma at_placeholder_positive (k : kind) (s : string) (n : nat) caps :
  at_placeholder k s = Some (n, caps) → ∃ m, n = S m.
Proof.
  unfold at_placeholder. destruct (placeholder_at s) as [[k' arg]|]; [|done].
  destruct (decide (k' = k)); [|done]. intros [= <- _].
  destruct (written_len k arg) as (w & _ & ->). eauto.
Qed.

Lemma sub_scan_adjacent (k : kind) t adj adj' (s : string) :
  Re.sub_scan (at_placeholder k) t 0 adj s = Re.sub_scan (at_placeholder k) t 0 adj' s.
Proof.
  rewrite (sub_scan_here _ _ adj), (sub_scan_here _ _ adj').
  destruct (at_placeholder k s) as [[[|n] caps]|] eqn:E; [|done..].
  apply at_placeholder_positive in E as [m ?]. done.
Qed.

(** Text without [%] is copied. *)
Lemma sub_scan_text (k : kind) t adj (u v : string) :
  Str.all no_percent u = true →
  Re.sub_scan (at_placeholder k) t 0 adj (u +:+ v)
  = rest ← Re.sub_scan (at_placeholder k) t 0 adj v ; Ok (u +:+ rest).
Proof.
  revert adj. induction u as [|c u IH]; intros adj Hu.
  - cbn [String.append]. by destruct (Re.sub_scan _ _ _ _ _).
  - simpl in Hu. apply andb_prop in Hu as [Hc Hu].
    cbn [String.append]. rewrite sub_scan_here, at_placeholder_not_percent by done.
    rewrite IH by done. rewrite (sub_scan_adjacent k t false adj).
    by destruct (Re.sub_scan _ _ _ _ _).
Qed.

Lemma finditer_scan_text (k : kind) pos (u v : string) :
  Str.all no_percent u = true →
  Re.finditer_scan (at_placeholder k) 0 pos (u +:+ v)
  = Re.finditer_scan (at_placeholder k) 0 (pos + Str.len u) v.
Proof.
  revert pos. induction u as [|c u IH]; intros pos Hu.
  - simpl. by rewrite Nat.add_0_r.
  - simpl in Hu. apply andb_prop in Hu as [Hc Hu].
    cbn [String.append Re.finditer_scan]. rewrite at_placeholder_not_percent by done.
    rewrite IH by done. f_equal. rewrite len_cons. lia.
Qed.

Lemma expand_entry (k : kind) (arg : string) :
  Re.expand (template_of k) (caps_of k arg) = Ok (group_for k arg).
Proof. destruct k; reflexivity. Qed.

Lemma all_app (p : ascii → bool) (a b : string) :
  Str.all p (a +:+ b) = Str.all p a && Str.all p b.
Proof. induction a as [|c a IH]; simpl; [done|]. by rewrite IH, andb_assoc. Qed.

Lemma digits_no_percent (ds : string) :
  Str.all Chr.is_digit ds = true → Str.all no_percent ds = true.
Proof.
  induction ds as [|d ds IH]; simpl; [done|]. intros [Hd Hds]%andb_prop.
  rewrite IH by done. rewrite andb_true_r. unfold no_percent.
  destruct (Ascii.eqb_spec d "%") as [->|]; done.
Qed.

Lemma group_no_percent (k : kind) (arg : string) :
  valid_arg k arg → Str.all no_percent (group_for k arg) = true.
Proof.
  intros Hv. destruct k; try reflexivity.
  destruct Hv as [_ Hds]. unfold group_for.
  rewrite !all_app, (digits_no_percent arg Hds). done.
Qed.

Lemma written_tail (k : kind) (arg : string) :
  valid_arg k arg →
  ∃ w, written k arg = String "%" w ∧ Str.all no_percent w = true.
Proof.
  intros Hv. destruct (decide (k = KNc)) as [->|Hk].
  - destruct Hv as [_ Hds]. exists (arg +:+ "c"). split; [done|].
    by rewrite all_app, (digits_no_percent arg Hds).
  - assert (∃ c, arg = String c "" ∧ letter_of k c = true) as (c & -> & Hc) by by destruct k.
    exists (String c ""). split; [by destruct k|]. simpl. rewrite andb_true_r.
    unfold no_percent. destruct (Ascii.eqb_spec c "%") as [->|]; [|done].
    by destruct (letter_not_percent k "%" Hc).
Qed.

Lemma at_placeholder_written (k k' : kind) (arg rest : string) :
  valid_arg k' arg →
  at_placeholder k (written k' arg +:+ rest)
  = if decide (k' = k) then Some (Str.len (written k arg), caps_of k arg) else None.
Proof. intros Hv. unfold at_placeholder. by rewrite placeholder_at_written. Qed.

Lemma and_kind_same (k : kind) (done : kind → bool) : and_kind k done k = true.
Proof. unfold and_kind. by destruct (decide (k = k)). Qed.

Lemma and_kind_other (k k' : kind) (done : kind → bool) :
  k' ≠ k → and_kind k done k' = done k'.
Proof. intros Hne. unfold and_kind. by destruct (decide (k' = k)). Qed.

(** Substituting the placeholders of kind [k] in a template in which
    the kinds [done] have been substituted turns exactly the
    placeholders of kind [k] into their groups. *)
Lemma sub_scan_round (k : kind) (done : kind → bool) (s : string) (toks : list token) adj :
  reads_as s toks → done k = false →
  Re.sub_scan (at_placeholder k) (template_of k) 0 adj (render done toks)
  = Ok (render (and_kind k done) toks).
Proof.
  intros Hr Hk. revert adj.
  induction Hr as [|c s toks Hp Hr IH|k' arg s toks Hv Hr IH]; intros adj.
  - done.
  - rewrite !render_cons. cbn [show String.append]. rewrite sub_scan_here.
    assert (at_placeholder k (String c (render done toks)) = None) as ->.
    { unfold at_placeholder.
      by rewrite placeholder_at_render, (reads_render s toks Hr), Hp. }
    by rewrite IH.
  - rewrite !render_cons. cbn [show].
    destruct (done k') eqn:Hd.
    + assert (k' ≠ k) as Hne by congruence.
      rewrite and_kind_other, Hd by done.
      rewrite sub_scan_text by by apply group_no_percent. by rewrite IH.
    + destruct (decide (k' = k)) as [->|Hne].
      * rewrite and_kind_same, sub_scan_here, at_placeholder_written by done.
        destruct (decide (k = k)); [|done].
        destruct (written_tail k arg Hv) as (w & Hw & _).
        rewrite Hw, len_cons. cbn [String.append]. rewrite expand_entry.
        rewrite sub_scan_skip, IH. done.
      * rewrite and_kind_other, Hd by done.
        destruct (written_tail k' arg Hv) as (w & Hw & Hnp).
        rewrite sub_scan_here.
        rewrite at_placeholder_written by done.
        destruct (decide (k' = k)); [done|].
        rewrite Hw. cbn [String.append]. rewrite sub_scan_text, IH by done. done.
Qed.

Lemma occurrences_text pos c toks :
  occurrences pos (Text c :: toks) = occurrences (S pos) toks.
Proof. done. Qed.

(** [re.finditer] on the original template finds the placeholders of
    kind [k] where the left-to-right reading has them. *)
Lemma finditer_scan_round (k : kind) (s : string) (toks : list token) (pos : nat) :
  reads_as s toks →
  Re.finditer_scan (at_placeholder k) 0 pos s = starts_of k (occurrences pos toks).
Proof.
  intros Hr. revert pos.
  induction Hr as [|c s toks Hp Hr IH|k' arg s toks Hv Hr IH]; intros pos.
  - done.
  - rewrite occurrences_text. cbn [Re.finditer_scan].
    assert (at_placeholder k (String c s) = None) as -> by (unfold at_placeholder; by rewrite Hp).
    apply IH.
  - cbn [occurrences]. unfold starts_of. rewrite filter_cons. cbn [fst].
    destruct (written_tail k' arg Hv) as (w & Hw & Hnp).
    pose proof (at_placeholder_written k k' arg s Hv) as Hat.
    rewrite Hw in *. cbn [String.append] in *. cbn [Re.finditer_scan]. rewrite Hat.
    rewrite len_cons.
    destruct (decide (k' = k)) as [->|Hne].
    + assert (Str.len (written k arg) = S (Str.len w)) as -> by (by rewrite Hw).
      cbn [pred map snd]. rewrite finditer_scan_skip, IH. unfold starts_of.
      by replace (S pos + Str.len w)%nat with (pos + S (Str.len w))%nat by lia.
    + rewrite finditer_scan_text, IH by done. unfold starts_of.
      by replace (S pos + Str.len w)%nat with (pos + S (Str.len w))%nat by lia.
Qed.

(** ** All rounds: the generated regex *)

Lemma sub_entry (k : kind) (done : kind → bool) (s : string) (toks : list token) :
  reads_as s toks → done k = false →
  Re.sub (fst (fst (entry k))) ("(" +:+ snd (fst (entry k)) +:+ ")") (render done toks)
  = Ok (render (and_kind k done) toks).
Proof.
  intros Hr Hk. unfold Re.sub. rewrite compile_entry. cbn [mbind res_bind].
  rewrite template_entry. cbn [mbind res_bind].
  rewrite (sub_scan_ext _ (at_placeholder k)) by apply match_prefix_entry.
  by eapply sub_scan_round.
Qed.

Lemma finditer_entry (k : kind) (s : string) (toks : list token) :
  reads_as s toks →
  Re.finditer_starts (fst (fst (entry k))) s = Ok (starts_of k (occurrences 0 toks)).
Proof.
  intros Hr. unfold Re.finditer_starts. rewrite compile_entry. cbn [mbind res_bind].
  rewrite (finditer_scan_ext _ (at_placeholder k)) by apply match_prefix_entry.
  by rewrite (finditer_scan_round k s toks).
Qed.

Lemma one_round (k : kind) (done : kind → bool) (acc : list (parse_fn * nat))
    (s : string) (toks : list token) :
  reads_as s toks → done k = false →
  substitute_placeholder s (render done toks, acc) (entry k)
  = Ok (render (and_kind k done) toks,
        acc ++ map (λ start, (parser_of k, start)) (starts_of k (occurrences 0 toks))).
Proof.
  intros Hr Hk.
  pose proof (sub_entry k done s toks Hr Hk) as Hsub.
  pose proof (finditer_entry k s toks Hr) as Hfind.
  unfold parser_of, substitute_placeholder.
  destruct (entry k) as [[pat frag] f]. cbn [fst snd] in *.
  rewrite Hsub. cbn [mbind res_bind]. rewrite Hfind. done.
Qed.

Lemma rounds (ks : list kind) (done : kind → bool) (acc : list (parse_fn * nat))
    (s : string) (toks : list token) :
  reads_as s toks → NoDup ks → (∀ k, k ∈ ks → done k = false) →
  res_foldl (substitute_placeholder s) (render done toks, acc) (map entry ks)
  = Ok (render (after ks done) toks, acc ++ found ks (occurrences 0 toks)).
Proof.
  intros Hr. revert done acc. induction ks as [|k ks IH]; intros done acc Hnd Hdone.
  - simpl. unfold found. simpl. by rewrite app_nil_r.
  - apply NoDup_cons in Hnd as [Hk Hnd].
    cbn [map res_foldl]. rewrite one_round by (done || apply Hdone; left).
    cbn [mbind res_bind]. rewrite IH; [|done|].
    + unfold found. cbn [map concat]. by rewrite <-app_assoc.
    + intros k' Hk'. rewrite and_kind_other by (intros ->; done).
      apply Hdone. by right.
Qed.

Lemma render_ext (d d' : kind → bool) (toks : list token) :
  (∀ k, d k = d' k) → render d toks = render d' toks.
Proof.
  intros Hd. unfold render. f_equal. apply map_ext. intros [c|k arg]; [done|].
  cbn [show]. by rewrite Hd.
Qed.

Lemma kinds_all (k : kind) : k ∈ kinds.
Proof. destruct k; by apply (bool_decide_unpack _). Qed.

Lemma kinds_nodup : NoDup kinds.
Proof. by apply (bool_decide_unpack _). Qed.

(** The loop of [parsed_query] over the whole table. *)
Lemma compile_template_reads (s : string) (toks : list token) :
  reads_as s toks →
  compile_template s = Ok (regex_of_tokens toks, found kinds (occurrences 0 toks)).
Proof.
  intros Hr. unfold compile_template.
  change placeholders with (map entry kinds).
  rewrite <-(reads_render s toks Hr) at 2.
  rewrite (rounds kinds no_kind [] s toks Hr kinds_nodup) by done.
  cbn [app]. do 2 f_equal. apply render_ext. by intros [].
Qed.

(** ** Ordering the parse functions *)

#[local] Instance by_start_trans : Transitive by_start.
Proof. intros a b c. unfold by_start. lia. Qed.

Lemma insert_by_map {A B} (g : A → B) (ka : A → nat) (kb : B → nat) (x : A) (l : list A) :
  (∀ a, kb (g a) = ka a) →
  insert_by kb (g x) (map g l) = map g (insert_by ka x l).
Proof.
  intros Hk. induction l as [|y l IH]; [done|]. cbn [map insert_by].
  rewrite !Hk. destruct (ka x <=? ka y)%nat; [done|]. cbn [map]. by rewrite IH.
Qed.

Lemma sorted_map {A B} (g : A → B) (ka : A → nat) (kb : B → nat) (l : list A) :
  (∀ a, kb (g a) = ka a) → sorted kb (map g l) = map g (sorted ka l).
Proof.
  intros Hk. unfold sorted. induction l as [|x l IH]; [done|].
  cbn [map foldr]. rewrite IH. by apply insert_by_map.
Qed.

Lemma insert_by_perm {A} (key : A → nat) (x : A) (l : list A) :
  insert_by key x l ≡ₚ x :: l.
Proof.
  induction l as [|y l IH]; [done|]. cbn [insert_by].
  destruct (key x <=? key y)%nat; [done|]. rewrite IH. apply Permutation_swap.
Qed.

Lemma sorted_perm {A} (key : A → nat) (l : list A) : sorted key l ≡ₚ l.
Proof.
  unfold sorted. induction l as [|x l IH]; [done|].
  cbn [foldr]. by rewrite insert_by_perm, IH.
Qed.

Lemma insert_by_sorted {A} (key : A → nat) (x : A) (l : list A) :
  Sorted (λ a b, (key a ≤ key b)%nat) l →
  Sorted (λ a b, (key a ≤ key b)%nat) (insert_by key x l).
Proof.
  induction 1 as [|y l Hl IH Hhd]; cbn [insert_by].
  - repeat constructor.
  - destruct (key x <=? key y)%nat eqn:E.
    + apply Nat.leb_le in E. repeat constructor; done.
    + apply Nat.leb_gt in E. constructor; [done|].
      destruct Hhd as [|z l' Hz]; cbn [insert_by].
      * constructor. lia.
      * destruct (key x <=? key z)%nat; constructor; [lia|done].
Qed.

Lemma sorted_sorted {A} (key : A → nat) (l : list A) :
  Sorted (λ a b, (key a ≤ key b)%nat) (sorted key l).
Proof.
  unfold sorted. induction l as [|x l IH]; [constructor|].
  cbn [foldr]. by apply insert_by_sorted.
Qed.

(** The placeholders occur at strictly increasing offsets. *)
Lemma occurrences_from (pos : nat) (toks : list token) :
  Forall (λ x, (pos ≤ x.2)%nat) (occurrences pos toks).
Proof.
  revert pos. induction toks as [|[c|k arg] toks IH]; intros pos; cbn [occurrences].
  - constructor.
  - eapply Forall_impl; [apply IH|]. intros x; simpl; lia.
  - constructor; [done|]. eapply Forall_impl; [apply IH|]. intros x; simpl; lia.
Qed.

Lemma occurrences_increasing (pos : nat) (toks : list token) :
  StronglySorted (λ a b, (a.2 < b.2)%nat) (occurrences pos toks).
Proof.
  revert pos. induction toks as [|[c|k arg] toks IH]; intros pos; cbn [occurrences].
  - constructor.
  - apply IH.
  - constructor; [apply IH|].
    eapply Forall_impl; [apply occurrences_from|]. intros x. cbn [snd].
    destruct (written_len k arg) as (w & _ & ->). lia.
Qed.

Lemma increasing_inj (l : list (kind * nat)) (x y : kind * nat) :
  StronglySorted (λ a b, (a.2 < b.2)%nat) l → x ∈ l → y ∈ l → x.2 = y.2 → x = y.
Proof.
  induction 1 as [|z l Hl IH Hz]; intros Hx Hy Hxy; [by apply elem_of_nil in Hx|].
  rewrite Forall_forall in Hz.
  apply elem_of_cons in Hx as [->|Hx], Hy as [->|Hy]; [done| | |by apply IH].
  - specialize (Hz _ Hy). lia.
  - specialize (Hz _ Hx). lia.
Qed.

Lemma increasing_sorted (l : list (kind * nat)) :
  StronglySorted (λ a b, (a.2 < b.2)%nat) l → Sorted by_start l.
Proof.
  intros Hl. apply StronglySorted_Sorted.
  induction Hl as [|z l Hl IH Hz]; constructor; [done|].
  eapply Forall_impl; [done|]. unfold by_start. intros; simpl in *; lia.
Qed.

(** Collecting the occurrences kind by kind loses and repeats none. *)
Lemma by_kind_perm (ks : list kind) (occ : list (kind * nat)) :
  NoDup ks →
  concat (map (λ k, filter (λ x, x.1 = k) occ) ks) ≡ₚ filter (λ x, x.1 ∈ ks) occ.
Proof.
  induction 1 as [|k ks Hk Hnd IH]; cbn [map concat].
  - induction occ as [|x occ IHo]; [done|]. rewrite filter_cons.
    destruct (decide (x.1 ∈ [])) as [Hin|]; [by apply elem_of_nil in Hin|done].
  - rewrite IH. clear IH. induction occ as [|x occ IHo]; [done|].
    rewrite !filter_cons.
    destruct (decide (x.1 = k)) as [Hx|Hx].
    + destruct (decide (x.1 ∈ ks)) as [Hin|Hin]; [by rewrite Hx in Hin|].
      destruct (decide (x.1 ∈ k :: ks)) as [_|Hout]; [|by destruct Hout; rewrite Hx; left].
      cbn [app]. by rewrite IHo.
    + destruct (decide (x.1 ∈ ks)) as [Hin|Hin].
      * destruct (decide (x.1 ∈ k :: ks)) as [_|Hout]; [|by destruct Hout; right].
        rewrite <-IHo. by rewrite Permutation_middle.
      * destruct (decide (x.1 ∈ k :: ks)) as [Hin'|_]; [|done].
        apply elem_of_cons in Hin' as [?|?]; done.
Qed.

Lemma filter_all {A} (P : A → Prop) `{∀ x, Decision (P x)} (l : list A) :
  (∀ x, P x) → filter P l = l.
Proof.
  intros HP. induction l as [|x l IH]; [done|]. rewrite filter_cons.
  destruct (decide (P x)) as [_|Hn]; [by rewrite IH|]. by destruct Hn.
Qed.

Lemma found_tag (ks : list kind) (occ : list (kind * nat)) :
  found ks occ = map tag (concat (map (λ k, filter (λ x, x.1 = k) occ) ks)).
Proof.
  unfold found. induction ks as [|k ks IH]; [done|]. cbn [map concat].
  rewrite map_app, <-IH. f_equal. unfold starts_of. rewrite map_map.
  clear IH. induction occ as [|x occ IHo]; [done|]. rewrite filter_cons.
  destruct (decide (x.1 = k)) as [Hx|]; [|done]. cbn [map]. rewrite IHo.
  unfold tag. by rewrite Hx.
Qed.

(** Sorted by start offset, the recorded placeholders are the
    occurrences of the left-to-right reading, in that order. *)
Lemma sorted_found (pos : nat) (toks : list token) :
  sorted snd (found kinds (occurrences pos toks)) = map tag (occurrences pos toks).
Proof.
  rewrite found_tag. rewrite (sorted_map tag snd snd) by done. f_equal.
  pose proof (occurrences_increasing pos toks) as Hinc.
  apply (Sorted_unique_strong by_start).
  - intros x y Hx Hy Hxy Hyx. unfold by_start in *.
    apply (increasing_inj (occurrences pos toks)); [done| |done|lia].
    rewrite sorted_perm, by_kind_perm in Hx by apply kinds_nodup.
    rewrite filter_all in Hx by (intros; apply kinds_all). done.
  - apply sorted_sorted.
  - by apply increasing_sorted.
  - rewrite sorted_perm, by_kind_perm by apply kinds_nodup.
    by rewrite filter_all by (intros; apply kinds_all).
Qed.

(** Lines 123-143 of [parsed_query] on a template: the regex is the
    template with each placeholder turned into its group, in place, and
    the parse functions are those of the placeholders from left to
    right. *)
Lemma compile_template_tokenize (s : string) :
  compile_template s
  = Ok (regex_of_tokens (tokenize s), found kinds (occurrences 0 (tokenize s)))
  ∧ resolve_parse_function None (found kinds (occurrences 0 (tokenize s)))
    = map (λ x, parser_of x.1) (occurrences 0 (tokenize s)).
Proof.
  split; [apply compile_template_reads, tokenize_reads|].
  unfold resolve_parse_function. rewrite sorted_found, map_map. done.
Qed.

(** ** The claims *)

Section Ports.

Context {T : Type} `{Bus T}.

Lemma on_port_eq {A} obj ev (op : T → Res A * T) (w : World T) o r t' :
  heap w !! obj = Some o → op (port o) = (r, t') →
  on_port obj ev op w =
    (r, {| heap := <[obj := {| port := t'; termination_line := termination_line o;
                               ch := ch o; parent := parent o |}]> (heap w);
           stdout := stdout w;
           trace := trace w ++ [ev] |}).
Proof. intros Ho Hop. unfold on_port. by rewrite Ho, Hop. Qed.

(** A single-line query: flush, write, one readline, [strip]. *)
Lemma query_single_line fuel self cmd tmo (w : World T) o t1 t2 t3 line :
  heap w !! self = Some o →
  bus_flush_input_buffer (port o) = (Ok (), t1) →
  bus_write cmd t1 = (Ok (), t2) →
  bus_readline tmo t2 = (Ok line, t3) →
  query fuel self cmd {| multiline := false; kw_termination_line := None; timeout := tmo |} w
  = (Ok (Str.strip line),
     {| heap := <[self := {| port := t3; termination_line := termination_line o;
                             ch := ch o; parent := parent o |}]> (heap w);
        stdout := stdout w;
        trace := trace w ++ [EvFlush self; EvWrite self cmd; EvReadline self tmo] |}).
Proof.
  intros Ho Hf Hw Hr. unfold query. simpl.
  erewrite bind_ok; [|by apply on_port_eq].
  erewrite bind_ok; [|apply on_port_eq; [apply lookup_insert_eq|done]].
  erewrite bind_ok; [|apply on_port_eq; [apply lookup_insert_eq|done]].
  unfold mret, M_ret. simpl. rewrite !insert_insert_eq, <-!app_assoc. done.
Qed.

Lemma get_object_ok obj (w : World T) o :
  heap w !! obj = Some o → get_object obj w = (Ok o, w).
Proof. intros Ho. unfold get_object. by rewrite Ho. Qed.

Lemma assert_channel_ok obj (w : World T) o c pa :
  heap w !! obj = Some o → ch o = Some c → parent o = Some pa →
  assert_channel (Some obj) w = (Ok (), w).
Proof.
  intros Ho Hc Hpa. unfold assert_channel.
  erewrite bind_ok by (by apply get_object_ok). by rewrite Hc, Hpa.
Qed.

Lemma get_ch_ok obj (w : World T) o c :
  heap w !! obj = Some o → ch o = Some c → get_ch obj w = (Ok c, w).
Proof.
  intros Ho Hc. unfold get_ch.
  erewrite bind_ok by (by apply get_object_ok). by rewrite Hc.
Qed.

Lemma get_parent_ok obj (w : World T) o pa :
  heap w !! obj = Some o → parent o = Some pa → get_parent obj w = (Ok pa, w).
Proof.
  intros Ho Hpa. unfold get_parent.
  erewrite bind_ok by (by apply get_object_ok). by rewrite Hpa.
Qed.

(** The attribute reads leave the world as it is. *)
Lemma get_ch_pure obj (w w' : World T) r : get_ch obj w = (r, w') → w' = w.
Proof.
  unfold get_ch, mbind, M_bind, get_object.
  destruct (heap w !! obj) as [o|]; [destruct (ch o)|]; by intros [= _ <-].
Qed.

Lemma get_parent_pure obj (w w' : World T) r : get_parent obj w = (r, w') → w' = w.
Proof.
  unfold get_parent, mbind, M_bind, get_object.
  destruct (heap w !! obj) as [o|]; [destruct (parent o)|]; by intros [= _ <-].
Qed.

End Ports.

(** C10: [read_multiline] starts from the last line ["dummy"]. A
    termination line occurring in ["dummy"] (the empty string, ["m"],
    ["um"], ["dum"], ...) therefore ends the loop before its first round:
    the result is the empty string and the world, trace included, is
    untouched. With any other termination line the first call of
    [readline] is made. *)
Theorem C10_sentinel_dummy {T : Type} `{Bus T} (fuel : nat) (self : oid)
    (termination_line : string) (tmo : option Timeout) (w : World T) :
  (substring termination_line "dummy" →
     read_multiline fuel self (Some termination_line) tmo w = (Ok "", w))
  ∧ (¬ substring termination_line "dummy" → (0 < fuel)%nat → is_Some (heap w !! self) →
     ∃ later, trace (read_multiline fuel self (Some termination_line) tmo w).2
              = trace w ++ EvReadline self tmo :: later)
  ∧ Forall (λ t, substring t "dummy") [""; "m"; "um"; "dum"; "dummy"].
Proof.
  split; [|split].
  - intros Hsub. apply read_multiline_not_entered. by apply contains_iff.
  - intros Hsub Hfuel Hobj. apply read_multiline_entered; [|done..].
    destruct (Str.contains termination_line "dummy") eqn:E; [|done].
    by apply contains_iff in E.
  - repeat constructor; by apply contains_iff.
Qed.

Lemma C10_sentinel_dummy_witness :
  read_multiline 4 0%nat (Some "um") None (single (script ["a" +:+ LF; "um" +:+ LF]))
  = (Ok "", single (script ["a" +:+ LF; "um" +:+ LF]))
  ∧ ∃ later, trace (read_multiline 4 0%nat (Some "END") None
                      (single (script ["a" +:+ LF; "END" +:+ LF]))).2
             = [] ++ EvReadline 0%nat None :: later.
Proof.
  split.
  - apply (C10_sentinel_dummy 4 0%nat "um" None (single (script ["a" +:+ LF; "um" +:+ LF]))).
    by exists "d", "my".
  - apply (C10_sentinel_dummy 4 0%nat "END" None (single (script ["a" +:+ LF; "END" +:+ LF]))).
    + intros Hsub. apply contains_iff in Hsub. discriminate.
    + lia.
    + by eexists.
Defined.

(** C2: on the lines ["foo\n"], ["bar\n"], ["END\n"] with termination
    line ["END"], [read_multiline] returns their concatenation after
    exactly three calls of [readline]. With the termination line ["m"],
    which occurs in the sentinel ["dummy"], it returns the empty string
    without reading at all, although no line containing ["m"] has been
    seen and the stream is not exhausted. *)
Theorem C2_read_multiline_sentinel_collision :
  (∀ fuel, (3 ≤ fuel)%nat →
     read_multiline fuel 0%nat (Some "END") None
       (single (script ["foo" +:+ LF; "bar" +:+ LF; "END" +:+ LF]))
     = (Ok ("foo" +:+ LF +:+ "bar" +:+ LF +:+ "END" +:+ LF),
        {| heap := {[ 0%nat := lone (script []) ]};
           stdout := [];
           trace := [EvReadline 0%nat None; EvReadline 0%nat None; EvReadline 0%nat None] |}))
  ∧ (∀ fuel,
       read_multiline fuel 0%nat (Some "m") None (single (script ["a" +:+ LF; "m" +:+ LF]))
       = (Ok "", single (script ["a" +:+ LF; "m" +:+ LF]))).
Proof.
  split.
  - intros fuel Hfuel. eapply (read_multiline_more 3); [done| |done].
    vm_compute. reflexivity.
  - intros fuel. by apply read_multiline_not_entered.
Qed.

Lemma C2_read_multiline_sentinel_collision_witness :
  read_multiline 5 0%nat (Some "END") None
    (single (script ["foo" +:+ LF; "bar" +:+ LF; "END" +:+ LF]))
  = (Ok ("foo" +:+ LF +:+ "bar" +:+ LF +:+ "END" +:+ LF),
     {| heap := {[ 0%nat := lone (script []) ]};
        stdout := [];
        trace := [EvReadline 0%nat None; EvReadline 0%nat None; EvReadline 0%nat None] |}).
Proof.
  apply (proj1 C2_read_multiline_sentinel_collision 5%nat). lia.
Defined.

(** C5, as stated, fails: a single-line [query] does not return the line
    less its newline. On the line ["  12 \r\n"] it returns ["12"]. *)
Lemma C5_counterexample :
  ¬ (∀ line : string,
       (query 0 0%nat "Q?" no_kwargs (single (script [line]))).1
       = Ok (without_terminator line)).
Proof.
  intros Hclaim. specialize (Hclaim ("  12 " +:+ CRLF)). vm_compute in Hclaim. discriminate.
Qed.

(** C5, amended: a single-line [query] returns the line read with all
    leading and all trailing whitespace removed, the line terminator
    included, and the characters in between unchanged. *)
Theorem C5_query_strips_both_ends {T : Type} `{Bus T} (fuel : nat) (self : oid)
    (cmd : string) (tmo : option Timeout) (w : World T) (o : Instrument T)
    (t1 t2 t3 : T) (line : string) :
  heap w !! self = Some o →
  bus_flush_input_buffer (port o) = (Ok (), t1) →
  bus_write cmd t1 = (Ok (), t2) →
  bus_readline tmo t2 = (Ok line, t3) →
  (query fuel self cmd {| multiline := false; kw_termination_line := None; timeout := tmo |} w).1
  = Ok (Str.strip line)
  ∧ ∀ pre core post,
      line = pre +:+ core +:+ post →
      Str.all Chr.is_space pre = true → Str.all Chr.is_space post = true →
      no_space_at_ends core →
      Str.strip line = core.
Proof.
  intros Ho Hf Hw Hr. split.
  - by erewrite query_single_line.
  - intros pre core post -> Hpre Hpost Hcore. by apply strip_spec.
Qed.

Lemma C5_query_strips_both_ends_witness :
  (query 0 0%nat "Q?" {| multiline := false; kw_termination_line := None; timeout := None |}
     (single (script [" 1 2" +:+ CRLF]))).1 = Ok (Str.strip (" 1 2" +:+ CRLF))
  ∧ Str.strip (" 1 2" +:+ CRLF) = "1 2".
Proof.
  destruct (C5_query_strips_both_ends 0 0%nat "Q?" None (single (script [" 1 2" +:+ CRLF]))
              (lone (script [" 1 2" +:+ CRLF]))
              (script [" 1 2" +:+ CRLF])
              {| pending := [" 1 2" +:+ CRLF]; sent := ["Q?"] |}
              {| pending := []; sent := ["Q?"] |}
              (" 1 2" +:+ CRLF)) as [Hq Hs]; [reflexivity..|].
  split; [exact Hq|].
  apply (Hs " " "1 2" CRLF); [reflexivity..|].
  simpl. split; [reflexivity|]. by exists "1 ", "2"%char.
Defined.

(** C6, as stated, fails: a set-template holding both [{0] and [%] does
    not make the write fail. With the template ["s{0}%"] and the value
    ["y"] the command ["sy%"] is sent. *)
Lemma C6_counterexample :
  ¬ (∀ (message : string) (value : Value),
       Str.contains "{0" message = true → Str.contains "%" message = true →
       ∃ e, (queried_property_set
               {| dtype := "float"; get_cmd := None; set_cmd := Some message;
                  fvalidate := None; fdel := None |}
               0%nat value (single (script []))).1 = Raise e).
Proof.
  intros Hclaim.
  destruct (Hclaim "s{0}%" (VStr "y") eq_refl eq_refl) as [e He].
  vm_compute in He. discriminate.
Qed.

(** C6, amended: a set-template that contains [{0] is filled in with
    [str.format] and never with the [%] operator, whether or not it
    also contains [%]. For every such template, value and validator,
    [queried_property.__set__] prints, validates, takes
    [set_cmd.format(value)] as the message, prints it and writes it;
    [queried_channel_property.__set__] asserts, validates, takes
    [set_cmd.format(obj.ch, value)] and writes it to the parent. There
    is no check for mixed styles: an exception of [str.format] is the
    outcome of the call and nothing is written after it. In particular,
    for the template [pre{0}post] (on a channel [pre{0}mid{1}post])
    with no brace in [pre], [mid], [post], no validator, a value (and
    channel) that [str] renders and a write that succeeds, the command
    written is [pre ++ str(value) ++ post] (on a channel
    [pre ++ str(ch) ++ mid ++ str(value) ++ post]): the [%] signs of
    [pre], [mid] and [post] go out unchanged. *)
Theorem C6_brace_style_takes_precedence {T : Type} `{Bus T}
    (p : queried_property T) (obj : oid) (value : Value) (w : World T) (message : string) :
  set_cmd p = Some message →
  substring "{0" message →
  let validate : M T () :=
    match fvalidate p with Some f => f obj value | None => mret () end in
  queried_property_set p obj value w
  = (print (PrintSet obj value) ;; validate ;;
     m ← lift (Fmt.format message [value]) ;
     print (PrintLine m) ;; write obj m) w
  ∧ queried_channel_property_set p obj value w
    = (assert_channel (Some obj) ;; validate ;;
       obj_ch ← get_ch obj ;
       m ← lift (Fmt.format message [obj_ch; value]) ;
       obj_parent ← get_parent obj ;
       write obj_parent m) w
  ∧ (∀ e w1,
       (print (PrintSet obj value) ;; validate) w = (Ok (), w1) →
       Fmt.format message [value] = Raise e →
       queried_property_set p obj value w = (Raise e, w1))
  ∧ (∀ e w1 c,
       (assert_channel (Some obj) ;; validate) w = (Ok (), w1) →
       get_ch obj w1 = (Ok c, w1) →
       Fmt.format message [c; value] = Raise e →
       queried_channel_property_set p obj value w = (Raise e, w1))
  ∧ (∀ o pre post txt t',
       message = pre +:+ "{0}" +:+ post →
       fvalidate p = None →
       heap w !! obj = Some o →
       Str.all no_brace pre = true → Str.all no_brace post = true →
       Py.str value = Ok txt →
       bus_write (pre +:+ txt +:+ post) (port o) = (Ok (), t') →
       queried_property_set p obj value w
       = (Ok (),
          {| heap := <[obj := {| port := t'; termination_line := termination_line o;
                                ch := ch o; parent := parent o |}]> (heap w);
             stdout := stdout w ++ [PrintSet obj value; PrintLine (pre +:+ txt +:+ post)];
             trace := trace w ++ [EvWrite obj (pre +:+ txt +:+ post)] |}))
  ∧ (∀ o pre mid post txt c pa po ctxt t',
       message = pre +:+ "{0}" +:+ mid +:+ "{1}" +:+ post →
       fvalidate p = None →
       heap w !! obj = Some o →
       Str.all no_brace pre = true → Str.all no_brace mid = true →
       Str.all no_brace post = true →
       Py.str value = Ok txt →
       ch o = Some c → parent o = Some pa → heap w !! pa = Some po →
       Py.str c = Ok ctxt →
       bus_write (pre +:+ ctxt +:+ mid +:+ txt +:+ post) (port po) = (Ok (), t') →
       queried_channel_property_set p obj value w
       = (Ok (),
          {| heap := <[pa := {| port := t'; termination_line := termination_line po;
                               ch := ch po; parent := parent po |}]> (heap w);
             stdout := stdout w;
             trace := trace w ++ [EvWrite pa (pre +:+ ctxt +:+ mid +:+ txt +:+ post)] |})).
Proof.
  intros Hset Hin validate. apply contains_iff in Hin.
  assert (queried_property_set p obj value w
          = (print (PrintSet obj value) ;; validate ;;
             m ← lift (Fmt.format message [value]) ;
             print (PrintLine m) ;; write obj m) w) as Hplain.
  { unfold queried_property_set. by rewrite Hset, Hin. }
  assert (queried_channel_property_set p obj value w
          = (assert_channel (Some obj) ;; validate ;;
             obj_ch ← get_ch obj ;
             m ← lift (Fmt.format message [obj_ch; value]) ;
             obj_parent ← get_parent obj ;
             write obj_parent m) w) as Hchannel.
  { unfold queried_channel_property_set. by rewrite Hset, Hin. }
  split; [exact Hplain|]. split; [exact Hchannel|]. split; [|split; [|split]].
  - intros e w1 Hrun Hfmt. rewrite Hplain, Hfmt.
    unfold mbind, M_bind in Hrun |- *.
    destruct (print (PrintSet obj value) w) as [[[]|e0|l0] w0]; [|done..].
    destruct (validate w0) as [[[]|e1|l1] w0']; [|done..].
    by injection Hrun as ->.
  - intros e w1 c Hrun Hch Hfmt. rewrite Hchannel.
    unfold mbind, M_bind in Hrun |- *.
    destruct (assert_channel (Some obj) w) as [[[]|e0|l0] w0]; [|done..].
    destruct (validate w0) as [[[]|e1|l1] w0']; [|done..].
    injection Hrun as ->. by rewrite Hch, Hfmt.
  - intros o pre post txt t' -> Hval Ho Hpre Hpost Hv Hw. rewrite Hplain.
    subst validate. rewrite Hval, (format_one_field pre post txt value) by done.
    unfold mbind, M_bind, mret, M_ret, print, lift, write. simpl.
    erewrite on_port_eq by (simpl; eauto). simpl. by rewrite <-app_assoc.
  - intros o pre mid post txt c pa po ctxt t' -> Hval Ho Hpre Hmid Hpost Hv Hc Hpa Hpo Hcv Hw.
    rewrite Hchannel. subst validate. rewrite Hval.
    pose proof (format_two_fields pre mid post ctxt txt c value Hpre Hmid Hpost Hcv Hv) as Hfmt.
    revert Hfmt. generalize (pre +:+ "{0}" +:+ mid +:+ "{1}" +:+ post). intros template Hfmt.
    rewrite (bind_ok _ _ w w () (assert_channel_ok obj w o c pa Ho Hc Hpa)).
    rewrite (bind_ok (mret ()) _ w w () eq_refl).
    rewrite (bind_ok _ _ w w c (get_ch_ok obj w o c Ho Hc)).
    rewrite Hfmt. rewrite (bind_ok (lift (Ok _)) _ w w _ eq_refl).
    rewrite (bind_ok _ _ w w pa (get_parent_ok obj w o pa Ho Hpa)).
    unfold write. by erewrite on_port_eq by eauto.
Qed.

Lemma C6_brace_style_takes_precedence_witness :
  queried_property_set
    {| dtype := "float"; get_cmd := None; set_cmd := Some ("s%" +:+ "{0}" +:+ "%d");
       fvalidate := None; fdel := None |}
    0%nat (VStr "y") (single (script []))
  = (Ok (),
     {| heap := <[0%nat := {| port := {| pending := []; sent := ["s%y%d"] |};
                             termination_line := None; ch := None; parent := None |}]>
                  (heap (single (script [])));
        stdout := [] ++ [PrintSet 0%nat (VStr "y"); PrintLine ("s%" +:+ "y" +:+ "%d")];
        trace := [] ++ [EvWrite 0%nat ("s%" +:+ "y" +:+ "%d")] |}).
Proof.
  destruct (C6_brace_style_takes_precedence
              {| dtype := "float"; get_cmd := None; set_cmd := Some ("s%" +:+ "{0}" +:+ "%d");
                 fvalidate := None; fdel := None |}
              0%nat (VStr "y") (single (script [])) ("s%" +:+ "{0}" +:+ "%d") eq_refl)
    as (_ & _ & _ & _ & Hplain & _).
  - by exists "s%", "}%d".
  - apply (Hplain (lone (script [])) "s%" "%d" "y" {| pending := []; sent := ["s%y%d"] |});
      reflexivity.
Defined.

(** C7: when a validator is configured, a write to a bound property
    calls it with the object and the value before anything is formatted
    or sent. [queried_property.__set__] has only printed when it calls
    it, and [queried_channel_property.__set__] has done nothing but its
    assertion: the transport is as it was. If the validator raises, the
    call ends with that exception in the world the validator left, so
    no write is made. If it returns, the transport calls of the rest
    come after it and amount to at most one write. *)
Theorem C7_validator_before_write {T : Type} `{Bus T} (p : queried_property T)
    (f : oid → Value → M T ()) (obj : oid) (value : Value) (w : World T) :
  fvalidate p = Some f →
  let w0 := (print (PrintSet obj value) w).2 in
  (heap w0 = heap w ∧ trace w0 = trace w)
  ∧ match set_cmd p with
    | None =>
        queried_property_set p obj value w = (Raise (AttributeError "can't set attribute"), w0)
    | Some message =>
        ∀ r w1, f obj value w0 = (r, w1) →
          match r with
          | Ok _ =>
              ∃ later, trace (queried_property_set p obj value w).2 = trace w1 ++ later
                       ∧ (later = [] ∨ ∃ m, later = [EvWrite obj m])
          | Raise e => queried_property_set p obj value w = (Raise e, w1)
          | Beyond l => queried_property_set p obj value w = (Beyond l, w1)
          end
    end
  ∧ (∀ o c pa,
       heap w !! obj = Some o → ch o = Some c → parent o = Some pa →
       match set_cmd p with
       | None =>
           queried_channel_property_set p obj value w
           = (Raise (AttributeError "can't set attribute"), w)
       | Some message =>
           ∀ r w1, f obj value w = (r, w1) →
             match r with
             | Ok _ =>
                 ∃ later,
                   trace (queried_channel_property_set p obj value w).2 = trace w1 ++ later
                   ∧ (later = [] ∨ ∃ target m, later = [EvWrite target m])
             | Raise e => queried_channel_property_set p obj value w = (Raise e, w1)
             | Beyond l => queried_channel_property_set p obj value w = (Beyond l, w1)
             end
       end).
Proof.
  intros Hval w0. split; [done|]. split.
  - unfold queried_property_set. rewrite Hval.
    destruct (set_cmd p) as [message|]; [|done].
    intros r w1 Hf. subst w0. unfold print in Hf. simpl in Hf.
    destruct r as [[]|e|l]; unfold mbind, M_bind, print; simpl; rewrite Hf; [|done..].
    unfold lift, write.
    destruct (if Str.contains "{0" message then _ else _) as [m|e|l]; simpl.
    + unfold on_port. simpl. destruct (heap w1 !! obj) as [o|].
      * destruct (bus_write m (port o)) as [r t']. simpl. exists [EvWrite obj m]. eauto.
      * exists []. rewrite app_nil_r. auto.
    + exists []. rewrite app_nil_r. auto.
    + exists []. rewrite app_nil_r. auto.
  - intros o c pa Ho Hc Hpa. unfold queried_channel_property_set.
    rewrite (bind_ok _ _ w w () (assert_channel_ok obj w o c pa Ho Hc Hpa)).
    destruct (set_cmd p) as [message|]; [|done].
    rewrite Hval. intros r w1 Hf.
    destruct r as [[]|e|l];
      [rewrite (bind_ok _ _ w w1 () Hf)
      |by rewrite (bind_raise _ _ w w1 e Hf)
      |by rewrite (bind_beyond _ _ w w1 l Hf)].
    assert (∀ A (r : Res A), ∃ later : list BusEvent,
              trace (r, w1).2 = trace w1 ++ later
              ∧ (later = [] ∨ ∃ target m, later = [EvWrite target m])) as Hnone.
    { intros A r. exists []. rewrite app_nil_r. auto. }
    unfold mbind at 1, M_bind at 1.
    destruct (get_ch obj w1) as [[c1|e|l] w2] eqn:Hch;
      apply get_ch_pure in Hch as ->; [|apply Hnone..].
    unfold mbind at 1, M_bind at 1, lift.
    destruct (if Str.contains "{0" message then _ else _) as [m|e|l]; [|apply Hnone..].
    unfold mbind, M_bind.
    destruct (get_parent obj w1) as [[target|e|l] w2] eqn:Hpar;
      apply get_parent_pure in Hpar as ->; [|apply Hnone..].
    unfold write, on_port. destruct (heap w1 !! target) as [po|]; [|apply Hnone].
    destruct (bus_write m (port po)) as [r t']. cbn [snd trace].
    exists [EvWrite target m]. eauto.
Qed.

Lemma C7_validator_before_write_witness :
  queried_property_set
    {| dtype := "str"; get_cmd := None; set_cmd := Some "sx {0}";
       fvalidate := Some strings_only; fdel := None |}
    0%nat (VInt 3) (single (script []))
  = (Raise (ValueError "a string is required"),
     (print (PrintSet 0%nat (VInt 3)) (single (script []))).2)
  ∧ queried_channel_property_set
      {| dtype := "str"; get_cmd := None; set_cmd := Some "CH{0} {1}";
         fvalidate := Some strings_only; fdel := None |}
      1%nat (VInt 7) parent_and_channel
    = (Raise (ValueError "a string is required"), parent_and_channel).
Proof.
  split.
  - pose proof (C7_validator_before_write
                  {| dtype := "str"; get_cmd := None; set_cmd := Some "sx {0}";
                     fvalidate := Some strings_only; fdel := None |}
                  strings_only 0%nat (VInt 3) (single (script [])) eq_refl) as (_ & Hrun & _).
    exact (Hrun _ _ eq_refl).
  - pose proof (C7_validator_before_write
                  {| dtype := "str"; get_cmd := None; set_cmd := Some "CH{0} {1}";
                     fvalidate := Some strings_only; fdel := None |}
                  strings_only 1%nat (VInt 7) parent_and_channel eq_refl) as (_ & _ & Hrun).
    exact (Hrun {| port := EchoInstrument_init; termination_line := None;
                   ch := Some (VInt 3); parent := Some 0%nat |}
                (VInt 3) 0%nat eq_refl eq_refl eq_refl _ _ eq_refl).
Defined.



Section Parsed.

Context {T : Type} `{Bus T}.

(** [parsed_query] from the reply on. *)
Lemma parsed_query_run fuel self query_string response_string pf kwargs
    (w w1 : World T) reply :
  query fuel self query_string kwargs w = (Ok reply, w1) →
  parsed_query fuel self query_string response_string 0 pf kwargs w
  = (let response_regex := regex_of_tokens (tokenize response_string) in
     let parse_function :=
       resolve_parse_function pf (found kinds (occurrences 0 (tokenize response_string))) in
     res ← lift (Re.search response_regex reply 0) ;
     match res with
     | None =>
         raise (ValueError (not_matched query_string reply response_string response_regex))
     | Some groups =>
         match res_mapM (λ '(f, g), f g) (zip parse_function groups) with
         | Ok parsed_result =>
             match parsed_result with
             | [v] => mret v
             | _ => mret (VList parsed_result)
             end
         | Raise (ValueError _) =>
             print (PrintLine "Parsing Error") ;;
             print (PrintMatchedGroups groups) ;;
             print (PrintParsingFunctions parse_function) ;;
             raise (ValueError (not_parsed query_string reply))
         | Raise e => raise e
         | Beyond l => beyond l
         end
     end) w1.
Proof.
  intros Hq. unfold parsed_query.
  destruct (compile_template_tokenize response_string) as [-> _].
  rewrite (bind_ok (lift (Ok _)) _ w w _ eq_refl).
  by rewrite (bind_ok _ _ w w1 reply Hq).
Qed.

End Parsed.

(** C3: when the reply does not match the generated regex,
    [parsed_query] raises a [ValueError] whose message contains the
    command, the reply, the template and the generated regex. The
    template ["%d"] against the reply ["abc"] to the command ["Q?"]
    raises with a message that contains ["abc"] and ["Q?"]. *)
Theorem C3_mismatch_error_carries_context {T : Type} `{Bus T} (fuel : nat) (self : oid)
    (query_string response_string : string) (parse_function : option ParseArg)
    (kwargs : QueryKwargs) (w w1 : World T) (reply : string) :
  query fuel self query_string kwargs w = (Ok reply, w1) →
  Re.search (regex_of_tokens (tokenize response_string)) reply 0 = Ok None →
  (∃ msg,
     parsed_query fuel self query_string response_string 0 parse_function kwargs w
     = (Raise (ValueError msg), w1)
     ∧ substring query_string msg
     ∧ substring reply msg
     ∧ substring response_string msg
     ∧ substring (regex_of_tokens (tokenize response_string)) msg)
  ∧ (parsed_query 0 0%nat "Q?" "%d" 0 None no_kwargs (single (script ["abc" +:+ LF]))).1
    = Raise (ValueError
        "Stage response to 'Q?' ('abc') wasn't matched by /%d/ (generated regex /([-+]?\d+)/").
Proof.
  intros Hq Hsearch. split; [|by vm_compute].
  eexists. split.
  - rewrite (parsed_query_run _ _ _ _ _ _ _ _ _ Hq). cbv zeta.
    rewrite Hsearch. erewrite bind_ok by reflexivity. reflexivity.
  - unfold not_matched. repeat split.
    + by exists "Stage response to '", ("' ('" +:+ reply +:+ "') wasn't matched by /"
        +:+ response_string +:+ "/ (generated regex /"
        +:+ regex_of_tokens (tokenize response_string) +:+ "/").
    + eexists ("Stage response to '" +:+ query_string +:+ "' ('"), _.
      rewrite !str_app_assoc. reflexivity.
    + eexists ("Stage response to '" +:+ query_string +:+ "' ('" +:+ reply
               +:+ "') wasn't matched by /"), _.
      rewrite !str_app_assoc. reflexivity.
    + eexists ("Stage response to '" +:+ query_string +:+ "' ('" +:+ reply
               +:+ "') wasn't matched by /" +:+ response_string
               +:+ "/ (generated regex /"), "/".
      rewrite !str_app_assoc. reflexivity.
Qed.

Lemma C3_mismatch_error_carries_context_witness :
  ∃ msg,
    parsed_query 0 0%nat "Q?" "%d" 0 None no_kwargs (single (script ["abc" +:+ LF]))
    = (Raise (ValueError msg),
       {| heap := <[0%nat := lone {| pending := []; sent := ["Q?"] |}]>
                    (heap (single (script ["abc" +:+ LF])));
          stdout := [];
          trace := [EvFlush 0%nat; EvWrite 0%nat "Q?"; EvReadline 0%nat None] |})
    ∧ substring "Q?" msg ∧ substring "abc" msg ∧ substring "%d" msg
    ∧ substring (regex_of_tokens (tokenize "%d")) msg.
Proof.
  apply (C3_mismatch_error_carries_context 0 0%nat "Q?" "%d" None no_kwargs
           (single (script ["abc" +:+ LF])) _ "abc"); by vm_compute.
Defined.

(** ** Further properties of [parsed_query] *)

Lemma parser_of_rows :
  parser_of Kc = noop ∧ parser_of KNc = noop ∧ parser_of Kd = Py.int
  ∧ parser_of Kf = Py.float ∧ parser_of Ki = Py.int_base 0 ∧ parser_of Ko = Py.int_base 8
  ∧ parser_of Ks = noop ∧ parser_of Ku = Py.int ∧ parser_of Kx = Py.int_base 16.
Proof. repeat split. Qed.

Lemma parser_yields_scalar (k : kind) (g : option string) (v : Value) :
  parser_of k g = Ok v → ∀ items, v ≠ VList items.
Proof.
  destruct parser_of_rows as (Hc & HNc & Hd & Hf & Hi & Ho & Hs & Hu & Hx).
  intros Hv items ->.
  destruct k; rewrite ?Hc, ?HNc, ?Hd, ?Hf, ?Hi, ?Ho, ?Hs, ?Hu, ?Hx in Hv;
    unfold noop, Py.int, Py.int_base, Py.float in Hv;
    destruct g as [s|]; try discriminate;
    match type of Hv with
    | context [Py.int_of_string ?b ?s] => destruct (Py.int_of_string b s)
    | context [Py.float_of_string ?s] => destruct (Py.float_of_string s)
    end; discriminate.
Qed.

(** With exactly one placeholder in the template and a reply that
    matches, [parsed_query] returns the value the parse function of the
    placeholder yields on the first group, itself and not in a list;
    that value is never a list. When the parse functions yield a
    number of values other than one, the list of these values, in the
    order of the placeholders, is returned. The template ["%d"] on the
    reply ["12"] returns the integer 12. *)
Theorem single_value_unwrapped {T : Type} `{Bus T} (fuel : nat) (self : oid)
    (query_string response_string : string) (kwargs : QueryKwargs)
    (w w1 : World T) (reply : string) (groups : list (option string)) :
  query fuel self query_string kwargs w = (Ok reply, w1) →
  Re.search (regex_of_tokens (tokenize response_string)) reply 0 = Ok (Some groups) →
  (∀ k start g rest v,
     occurrences 0 (tokenize response_string) = [(k, start)] →
     groups = g :: rest →
     parser_of k g = Ok v →
     parsed_query fuel self query_string response_string 0 None kwargs w = (Ok v, w1)
     ∧ ∀ items, v ≠ VList items)
  ∧ (∀ vs,
       res_mapM (λ '(f, g), f g)
         (zip (map (λ x, parser_of x.1) (occurrences 0 (tokenize response_string))) groups)
       = Ok vs →
       length vs ≠ 1%nat →
       parsed_query fuel self query_string response_string 0 None kwargs w
       = (Ok (VList vs), w1))
  ∧ (parsed_query 0 0%nat "Q?" "%d" 0 None no_kwargs (single (script ["12" +:+ LF]))).1
    = Ok (VInt 12).
Proof.
  intros Hq Hsearch.
  pose proof (parsed_query_run fuel self query_string response_string None kwargs w w1 reply Hq)
    as Hrun.
  cbv zeta in Hrun. rewrite Hsearch in Hrun.
  rewrite (bind_ok (lift (Ok _)) _ w1 w1 _ eq_refl) in Hrun.
  destruct (compile_template_tokenize response_string) as [_ Hfs]. rewrite Hfs in Hrun.
  split; [|split].
  - intros k start g rest v Hocc -> Hv. split; [|by eapply parser_yields_scalar].
    rewrite Hrun, Hocc. cbn [map zip zip_with res_mapM fst]. rewrite Hv. done.
  - intros vs Hvs Hlen. rewrite Hrun, Hvs. by destruct vs as [|v [|v' vs]].
  - by vm_compute.
Qed.

Lemma single_value_unwrapped_witness :
  parsed_query 0 0%nat "Q?" "x%iy" 0 None no_kwargs (single (script ["x0x1Fy" +:+ LF]))
  = (Ok (VInt 31),
     {| heap := <[0%nat := lone {| pending := []; sent := ["Q?"] |}]>
                  (heap (single (script ["x0x1Fy" +:+ LF])));
        stdout := [];
        trace := [EvFlush 0%nat; EvWrite 0%nat "Q?"; EvReadline 0%nat None] |})
  ∧ ∀ items, VInt 31 ≠ VList items.
Proof.
  apply (proj1 (single_value_unwrapped 0 0%nat "Q?" "x%iy" no_kwargs
                  (single (script ["x0x1Fy" +:+ LF])) _ "x0x1Fy" [Some "0x1F"]
                  ltac:(by vm_compute) ltac:(by vm_compute))
               Ki 1%nat (Some "0x1F") []);
    by vm_compute.
Defined.

(** For every template, the loop of [parsed_query] over the table
    produces the regex in which each placeholder has become its capture
    group in place, and the parse functions it then applies are those of
    the placeholders in the order of their start offsets, which increase
    strictly from left to right: the i-th parse function belongs to the
    i-th group generated for a placeholder. The template ["A%d B%fC"] on
    the reply ["A12 B3.5C"] returns the list of 12 and 3.5. *)
Theorem parse_functions_in_template_order :
  (∀ response_string : string,
     ∃ matched_placeholders : list (parse_fn * nat),
       compile_template response_string
       = Ok (regex_of_tokens (tokenize response_string), matched_placeholders)
       ∧ sorted snd matched_placeholders
         = map (λ x, (parser_of x.1, x.2)) (occurrences 0 (tokenize response_string))
       ∧ resolve_parse_function None matched_placeholders
         = map (λ x, parser_of x.1) (occurrences 0 (tokenize response_string))
       ∧ StronglySorted (λ a b, (a.2 < b.2)%nat) (occurrences 0 (tokenize response_string)))
  ∧ tokenize "A%d B%fC"
    = [Text "A"; Placeholder Kd "d"; Text " "; Text "B"; Placeholder Kf "f"; Text "C"]
  ∧ (∀ fuel,
       (parsed_query fuel 0%nat "Q?" "A%d B%fC" 0 None no_kwargs
          (single (script ["A12 B3.5C" +:+ LF]))).1
       = Ok (VList [VInt 12; VFloat (FFinite (7 # 2))])).
Proof.
  split; [|split].
  - intros s. exists (found kinds (occurrences 0 (tokenize s))).
    destruct (compile_template_tokenize s) as [Hc Hfs].
    split; [done|]. split; [apply sorted_found|]. split; [done|].
    apply occurrences_increasing.
  - reflexivity.
  - intros fuel.
    erewrite parsed_query_run
      by (by apply (query_single_line fuel 0%nat "Q?" None
                      (single (script ["A12 B3.5C" +:+ LF]))
                      (lone (script ["A12 B3.5C" +:+ LF]))
                      (script ["A12 B3.5C" +:+ LF])
                      {| pending := ["A12 B3.5C" +:+ LF]; sent := ["Q?"] |}
                      {| pending := []; sent := ["Q?"] |}
                      ("A12 B3.5C" +:+ LF))).
    by vm_compute.
Qed.

(** ** Integer conversion *)

Lemma split_sign_eq (s : string) :
  Py.split_sign s
  = match s with
    | String c s' =>
        if Ascii.eqb c "-" then (true, s')
        else if Ascii.eqb c "+" then (false, s')
        else (false, s)
    | EmptyString => (false, EmptyString)
    end.
Proof. destruct s as [|c s]; [done|]. by destruct c as [[] [] [] [] [] [] [] []]. Qed.

Lemma radix_and_digits_eq (base : Z) (s : string) :
  Py.radix_and_digits base s
  = match s with
    | String z rest0 =>
        if Ascii.eqb z "0" then
          match rest0 with
          | String c rest =>
              let c' := Chr.lower c in
              if (base =? 0) then
                if Ascii.eqb c' "x" then (16, rest)
                else if Ascii.eqb c' "o" then (8, rest)
                else if Ascii.eqb c' "b" then (2, rest)
                else (8, s)
              else if (base =? 16) && Ascii.eqb c' "x" then (16, rest)
              else if (base =? 8) && Ascii.eqb c' "o" then (8, rest)
              else if (base =? 2) && Ascii.eqb c' "b" then (2, rest)
              else (base, s)
          | EmptyString => if base =? 0 then (8, s) else (base, s)
          end
        else if base =? 0 then (10, s) else (base, s)
    | EmptyString => if base =? 0 then (10, s) else (base, s)
    end.
Proof.
  destruct s as [|z [|c rest]]; [done|..];
    by destruct z as [[] [] [] [] [] [] [] []].
Qed.

Lemma digits_value_numeral (base acc : Z) (ds : string) :
  Str.all (digit_in base) ds = true →
  Py.digits_value base acc ds = Some (acc * base ^ Z.of_nat (Str.len ds) + numeral base ds).
Proof.
  revert acc. induction ds as [|c ds IH]; intros acc Hds.
  - simpl. f_equal. lia.
  - simpl in Hds. apply andb_prop in Hds as [Hc Hds]. unfold digit_in in Hc.
    cbn [Py.digits_value numeral]. destruct (Chr.digit_value c) as [d|]; [|done].
    rewrite Hc, IH by done. f_equal. cbn [default].
    rewrite len_cons, Nat2Z.inj_succ, Z.pow_succ_r by lia. unfold id. ring.
Qed.

Lemma lstrip_not_space (s : string) : Str.all not_space s = true → Str.lstrip s = s.
Proof.
  destruct s as [|c s]; [done|]. simpl. intros [Hc _]%andb_prop.
  unfold not_space in Hc. apply negb_true_iff in Hc. by rewrite Hc.
Qed.

Lemma rstrip_not_space (s : string) : Str.all not_space s = true → Str.rstrip s = s.
Proof.
  induction s as [|c s IH]; [done|]. simpl. intros [Hc Hs]%andb_prop.
  rewrite IH by done. unfold not_space in Hc. apply negb_true_iff in Hc.
  rewrite Hc. by destruct s.
Qed.

Lemma strip_not_space (s : string) : Str.all not_space s = true → Str.strip s = s.
Proof. intros Hs. unfold Str.strip. by rewrite lstrip_not_space, rstrip_not_space. Qed.

(** What a digit is not. *)
Lemma digit_in_facts (base : Z) (c : ascii) :
  digit_in base c = true →
  not_space c = true ∧ Ascii.eqb c "-" = false ∧ Ascii.eqb c "+" = false.
Proof.
  unfold digit_in, Chr.digit_value. intros Hc.
  destruct (Chr.is_digit c) eqn:Hd; [|destruct (Chr.is_lower c) eqn:Hl;
    [|destruct (Chr.is_upper c) eqn:Hu; [|done]]];
    clear Hc; destruct c as [[] [] [] [] [] [] [] []]; try done.
Qed.

Lemma digits_not_space (base : Z) (ds : string) :
  Str.all (digit_in base) ds = true → Str.all not_space ds = true.
Proof.
  induction ds as [|c ds IH]; [done|]. simpl. intros [Hc Hds]%andb_prop.
  destruct (digit_in_facts base c Hc) as (-> & _). by rewrite IH.
Qed.

Lemma sign_not_space (s : sign) : Str.all not_space (sign_text s) = true.
Proof. by destruct s. Qed.

(** Splitting off the sign written before a digit. *)
Lemma split_sign_signed (base : Z) (s : sign) (c : ascii) (rest : string) :
  digit_in base c = true →
  Py.split_sign (sign_text s +:+ String c rest)
  = (match s with Minus => true | _ => false end, String c rest).
Proof.
  intros Hc. destruct (digit_in_facts base c Hc) as (_ & Hm & Hp).
  destruct s; cbn [sign_text String.append]; rewrite split_sign_eq; [|done..].
  by rewrite Hm, Hp.
Qed.

(** [int] on a sign and a string of digits of the radix, once the
    radix and the digits have been told apart. *)
Lemma int_of_string_digits (base radix : Z) (s : sign) (c : ascii) (body ds : string) :
  (base = 0 ∨ (2 <= base <= 36)) →
  Str.all not_space (String c body) = true →
  digit_in base c = true ∨ digit_in 10 c = true →
  Py.radix_and_digits base (String c body) = (radix, ds) →
  ds ≠ "" →
  Str.all (digit_in radix) ds = true →
  Py.int_of_string base (sign_text s +:+ String c body) = Ok (signed s (numeral radix ds)).
Proof.
  intros Hbase Hns Hc Hradix Hne Hds. unfold Py.int_of_string.
  assert (negb ((base =? 0) || (2 <=? base) && (base <=? 36)) = false) as ->.
  { apply negb_false_iff. destruct Hbase as [->|[? ?]]; [done|].
    apply orb_true_iff. right. apply andb_true_iff. split; lia. }
  rewrite strip_not_space by by rewrite all_app, sign_not_space.
  assert (Py.split_sign (sign_text s +:+ String c body)
          = (match s with Minus => true | _ => false end, String c body)) as ->.
  { destruct Hc as [Hc|Hc]; by eapply split_sign_signed. }
  rewrite Hradix. destruct ds as [|d ds]; [done|].
  rewrite digits_value_numeral by done. cbn [Z.mul]. rewrite Z.mul_0_l, Z.add_0_l.
  by destruct s.
Qed.

Lemma hex_digit_not_x (c : ascii) :
  digit_in 16 c = true → Ascii.eqb (Chr.lower c) "x" = false.
Proof. by destruct c as [[] [] [] [] [] [] [] []]. Qed.

Lemma oct_digit_plain (c : ascii) :
  digit_in 8 c = true →
  Ascii.eqb (Chr.lower c) "x" = false ∧ Ascii.eqb (Chr.lower c) "o" = false
  ∧ Ascii.eqb (Chr.lower c) "b" = false.
Proof. by destruct c as [[] [] [] [] [] [] [] []]. Qed.

Lemma digit_in_weaken (c : ascii) : digit_in 8 c = true → digit_in 10 c = true.
Proof. by destruct c as [[] [] [] [] [] [] [] []]. Qed.

Lemma radix_fixed_10 (s : string) : Py.radix_and_digits 10 s = (10, s).
Proof. rewrite radix_and_digits_eq. destruct s as [|z [|c r]]; [done| |]; by destruct (Ascii.eqb z "0"). Qed.

Lemma radix_fixed_8 (c : ascii) (r : string) :
  Str.all (digit_in 8) (String c r) = true →
  Py.radix_and_digits 8 (String c r) = (8, String c r).
Proof.
  intros Hs. rewrite radix_and_digits_eq. destruct (Ascii.eqb c "0"); [|done].
  destruct r as [|c2 r]; [done|]. simpl in Hs.
  apply andb_prop in Hs as [_ [Hc2 _]%andb_prop].
  destruct (oct_digit_plain c2 Hc2) as (_ & Ho & _). cbv zeta. by rewrite Ho.
Qed.

Lemma radix_fixed_16 (c : ascii) (r : string) :
  Str.all (digit_in 16) (String c r) = true →
  Py.radix_and_digits 16 (String c r) = (16, String c r).
Proof.
  intros Hs. rewrite radix_and_digits_eq. destruct (Ascii.eqb c "0"); [|done].
  destruct r as [|c2 r]; [done|]. simpl in Hs.
  apply andb_prop in Hs as [_ [Hc2 _]%andb_prop].
  cbv zeta. by rewrite (hex_digit_not_x c2 Hc2).
Qed.

Lemma radix_auto_octal (os : string) :
  Str.all (digit_in 8) os = true →
  Py.radix_and_digits 0 (String "0" os) = (8, String "0" os).
Proof.
  intros Hs. rewrite radix_and_digits_eq. cbn [Ascii.eqb Bool.eqb]. 
  destruct os as [|c2 r]; [done|]. simpl in Hs. apply andb_prop in Hs as [Hc2 _].
  destruct (oct_digit_plain c2 Hc2) as (Hx & Ho & Hb). cbv zeta. by rewrite Hx, Ho, Hb.
Qed.

Lemma radix_auto_decimal (d : ascii) (ds : string) :
  d ≠ "0"%char → Py.radix_and_digits 0 (String d ds) = (10, String d ds).
Proof.
  intros Hd. rewrite radix_and_digits_eq.
  destruct (Ascii.eqb_spec d "0"); [done|done].
Qed.

Lemma digits_all_not_space (base : Z) (c : ascii) (ds : string) :
  Str.all (digit_in base) (String c ds) = true → Str.all not_space (String c ds) = true.
Proof. apply digits_not_space. Qed.

(** ** The conversions behind the integer placeholders *)

Lemma dec_digit_plain (c : ascii) :
  digit_in 10 c = true →
  Ascii.eqb (Chr.lower c) "x" = false ∧ Ascii.eqb (Chr.lower c) "o" = false
  ∧ Ascii.eqb (Chr.lower c) "b" = false.
Proof. by destruct c as [[] [] [] [] [] [] [] []]. Qed.

Lemma digits_value_bad (base acc : Z) (ds : string) :
  Str.all (digit_in base) ds = false → Py.digits_value base acc ds = None.
Proof.
  revert acc. induction ds as [|c ds IH]; intros acc; [done|].
  cbn [Str.all Py.digits_value]. unfold digit_in at 1.
  destruct (Chr.digit_value c) as [d|]; [|done].
  destruct (d <? base); [|done]. rewrite andb_true_l. apply IH.
Qed.

Lemma int_value (base : Z) (text : string) (z : Z) :
  Py.int_of_string base text = Ok z → Py.int_base base (Some text) = Ok (VInt z).
Proof. unfold Py.int_base. by intros ->. Qed.

Lemma int_value_10 (text : string) (z : Z) :
  Py.int_of_string 10 text = Ok z → Py.int (Some text) = Ok (VInt z).
Proof. unfold Py.int. by intros ->. Qed.

Lemma prefixed_not_space (x : ascii) (ds : string) :
  x = "x"%char ∨ x = "X"%char → Str.all (digit_in 16) ds = true →
  Str.all not_space (String "0" (String x ds)) = true.
Proof.
  intros Hx Hds. cbn [Str.all]. rewrite (digits_not_space 16 ds Hds).
  by destruct Hx as [->| ->].
Qed.

Lemma radix_prefixed (base : Z) (x : ascii) (ds : string) :
  base = 0 ∨ base = 16 → x = "x"%char ∨ x = "X"%char →
  Py.radix_and_digits base (String "0" (String x ds)) = (16, ds).
Proof.
  intros Hb Hx. rewrite radix_and_digits_eq.
  by destruct Hb as [->| ->], Hx as [->| ->].
Qed.

Lemma int_of_string_decimal (s : sign) (ds : string) :
  ds ≠ "" → Str.all (digit_in 10) ds = true →
  Py.int_of_string 10 (sign_text s +:+ ds) = Ok (signed s (numeral 10 ds)).
Proof.
  intros Hne Hds. destruct ds as [|c body]; [done|].
  apply (int_of_string_digits 10 10 s c body (String c body)); try done.
  - right. lia.
  - by apply digits_not_space with 10.
  - left. simpl in Hds. by apply andb_prop in Hds as [? _].
  - apply radix_fixed_10.
Qed.

(** The rows [%d] and [%u] convert with [int]: a run of decimal digits,
    signed or not, is read in base ten, leading zeros included. *)
Theorem decimal_placeholders_read_base_ten (s : sign) (ds : string) :
  ds ≠ "" → Str.all (digit_in 10) ds = true →
  parser_of Kd (Some (sign_text s +:+ ds)) = Ok (VInt (signed s (numeral 10 ds)))
  ∧ parser_of Ku (Some (sign_text s +:+ ds)) = Ok (VInt (signed s (numeral 10 ds))).
Proof.
  intros Hne Hds. destruct parser_of_rows as (_ & _ & -> & _ & _ & _ & _ & -> & _).
  by rewrite (int_value_10 _ _ (int_of_string_decimal s ds Hne Hds)).
Qed.

Lemma decimal_placeholders_read_base_ten_witness :
  parser_of Kd (Some "-0042") = Ok (VInt (-42))
  ∧ parser_of Ku (Some "-0042") = Ok (VInt (-42)).
Proof. by apply (decimal_placeholders_read_base_ten Minus "0042"). Defined.

(** The rows [%o] and [%x] convert with a fixed base: [%o] reads octal
    digits, [%x] reads hexadecimal digits of either case with or without
    the prefix [0x] or [0X]; the sign is kept. *)
Theorem radix_placeholders_read_their_base (s : sign) (ds : string) :
  ds ≠ "" →
  (Str.all (digit_in 8) ds = true →
   parser_of Ko (Some (sign_text s +:+ ds)) = Ok (VInt (signed s (numeral 8 ds))))
  ∧ (Str.all (digit_in 16) ds = true →
     parser_of Kx (Some (sign_text s +:+ ds)) = Ok (VInt (signed s (numeral 16 ds)))
     ∧ ∀ x, x = "x"%char ∨ x = "X"%char →
         parser_of Kx (Some (sign_text s +:+ String "0" (String x ds)))
         = Ok (VInt (signed s (numeral 16 ds)))).
Proof.
  intros Hne. destruct parser_of_rows as (_ & _ & _ & _ & _ & -> & _ & _ & ->).
  destruct ds as [|c body]; [done|]. split; [|split].
  - intros Hds. apply int_value.
    apply (int_of_string_digits 8 8 s c body (String c body)); try done.
    + right. lia.
    + by apply digits_not_space with 8.
    + left. simpl in Hds. by apply andb_prop in Hds as [? _].
    + by apply radix_fixed_8.
  - apply int_value.
    apply (int_of_string_digits 16 16 s c body (String c body)); try done.
    + right. lia.
    + by apply digits_not_space with 16.
    + left. simpl in H. by apply andb_prop in H as [? _].
    + by apply radix_fixed_16.
  - intros x Hx. apply int_value.
    apply (int_of_string_digits 16 16 s "0" (String x (String c body)) (String c body));
      try done.
    + right. lia.
    + by apply prefixed_not_space.
    + by left.
    + apply radix_prefixed; [by right|done].
Qed.

Lemma radix_placeholders_read_their_base_witness :
  parser_of Ko (Some "-17") = Ok (VInt (-15))
  ∧ parser_of Kx (Some "-17") = Ok (VInt (-23))
  ∧ parser_of Kx (Some "-0X17") = Ok (VInt (-23)).
Proof.
  destruct (radix_placeholders_read_their_base Minus "17") as [Ho Hx]; [done|].
  destruct (Hx eq_refl) as [Hx1 Hx2].
  exact (conj (Ho eq_refl) (conj Hx1 (Hx2 "X"%char (or_intror eq_refl)))).
Defined.

(** The row [%i] converts with [int(x, 0)]: the radix is read off the
    text. A prefix [0x] or [0X] selects sixteen, a leading zero selects
    eight, any other leading digit selects ten. A leading zero followed
    by decimal digits that are not all octal is rejected with
    [ValueError], although the pattern of [%i] can match such a text. *)
Theorem autodetect_placeholder_reads_prefix (s : sign) (ds : string) :
  (∀ x, x = "x"%char ∨ x = "X"%char → ds ≠ "" → Str.all (digit_in 16) ds = true →
     parser_of Ki (Some (sign_text s +:+ String "0" (String x ds)))
     = Ok (VInt (signed s (numeral 16 ds))))
  ∧ (Str.all (digit_in 8) ds = true →
     parser_of Ki (Some (sign_text s +:+ String "0" ds)) = Ok (VInt (signed s (numeral 8 ds))))
  ∧ (∀ d, d ≠ "0"%char → Str.all (digit_in 10) (String d ds) = true →
     parser_of Ki (Some (sign_text s +:+ String d ds))
     = Ok (VInt (signed s (numeral 10 (String d ds)))))
  ∧ (Str.all (digit_in 10) ds = true → Str.all (digit_in 8) ds = false →
     parser_of Ki (Some (sign_text s +:+ String "0" ds))
     = Raise (Py.invalid_literal 0 (sign_text s +:+ String "0" ds))).
Proof.
  destruct parser_of_rows as (_ & _ & _ & _ & -> & _).
  split; [|split; [|split]].
  - intros x Hx Hne Hds. apply int_value.
    apply (int_of_string_digits 0 16 s "0" (String x ds) ds); try done.
    + by left.
    + by apply prefixed_not_space.
    + by right.
    + apply radix_prefixed; [by left|done].
  - intros Hds. apply int_value.
    replace (numeral 8 ds) with (numeral 8 (String "0" ds)) by (cbn [numeral]; simpl; lia).
    apply (int_of_string_digits 0 8 s "0" ds (String "0" ds)); try done.
    + by left.
    + cbn [Str.all]. by rewrite (digits_not_space 8 ds Hds).
    + by right.
    + by apply radix_auto_octal.
  - intros d Hd Hds. apply int_value.
    apply (int_of_string_digits 0 10 s d ds (String d ds)); try done.
    + by left.
    + by apply digits_not_space with 10.
    + right. simpl in Hds. by apply andb_prop in Hds as [? _].
    + by apply radix_auto_decimal.
  - intros Hds Hbad. unfold Py.int_base, Py.int_of_string. cbn [Z.eqb orb negb].
    rewrite strip_not_space
      by (rewrite all_app, sign_not_space; cbn [Str.all]; by rewrite (digits_not_space 10 ds Hds)).
    rewrite (split_sign_signed 10 s "0" ds eq_refl).
    assert (Py.radix_and_digits 0 (String "0" ds) = (8, String "0" ds)) as ->.
    { rewrite radix_and_digits_eq. cbn [Ascii.eqb Bool.eqb].
      destruct ds as [|c r]; [done|]. simpl in Hds. apply andb_prop in Hds as [Hc _].
      destruct (dec_digit_plain c Hc) as (Hx & Ho & Hb). cbv zeta. by rewrite Hx, Ho, Hb. }
    rewrite digits_value_bad; [done|]. cbn [Str.all]. by rewrite Hbad.
Qed.

Lemma autodetect_placeholder_reads_prefix_witness :
  parser_of Ki (Some "-0x1f") = Ok (VInt (-31))
  ∧ parser_of Ki (Some "-017") = Ok (VInt (-15))
  ∧ parser_of Ki (Some "-17") = Ok (VInt (-17))
  ∧ parser_of Ki (Some "-09") = Raise (Py.invalid_literal 0 "-09").
Proof.
  split; [|split; [|split]].
  - by apply (proj1 (autodetect_placeholder_reads_prefix Minus "1f") "x"%char); [left| |].
  - by apply (proj1 (proj2 (autodetect_placeholder_reads_prefix Minus "17"))).
  - by apply (proj1 (proj2 (proj2 (autodetect_placeholder_reads_prefix Minus "7"))) "1"%char).
  - by apply (proj2 (proj2 (proj2 (autodetect_placeholder_reads_prefix Minus "9")))).
Defined.

(** ** The transport methods in sequence *)

Section Sequencing.

Context {T : Type} `{Bus T}.

Lemma loop_eq n self term tmo response last_line :
  read_multiline_loop n self term tmo response last_line
  = if negb (Str.contains term last_line) && (0 <? Str.len last_line)%nat then
      match n with
      | O => beyond OutOfFuel
      | S n' =>
          last_line' ← readline self tmo ;
          read_multiline_loop n' self term tmo (response +:+ last_line') last_line'
      end
    else mret response.
Proof. by destruct n. Qed.

Lemma read_multiline_given fuel self term tmo (w : World T) :
  read_multiline fuel self (Some term) tmo w
  = read_multiline_loop fuel self term tmo "" "dummy" w.
Proof. done. Qed.

Lemma call_eq {A} obj ev (op : T → Res A * T) (w : World T) o r t' :
  heap w !! obj = Some o → op (port o) = (r, t') →
  on_port obj ev op w
  = (r, {| heap := <[obj := with_port o t']> (heap w); stdout := stdout w;
           trace := trace w ++ [ev] |}).
Proof. apply on_port_eq. Qed.

Lemma readline_eq self tmo (w : World T) o r t' :
  heap w !! self = Some o → bus_readline tmo (port o) = (r, t') →
  readline self tmo w
  = (r, {| heap := <[self := with_port o t']> (heap w); stdout := stdout w;
           trace := trace w ++ [EvReadline self tmo] |}).
Proof. apply call_eq. Qed.

Lemma flush_eq self (w : World T) o r t' :
  heap w !! self = Some o → bus_flush_input_buffer (port o) = (r, t') →
  flush_input_buffer self w
  = (r, {| heap := <[self := with_port o t']> (heap w); stdout := stdout w;
           trace := trace w ++ [EvFlush self] |}).
Proof. apply call_eq. Qed.

Lemma write_eq self msg (w : World T) o r t' :
  heap w !! self = Some o → bus_write msg (port o) = (r, t') →
  write self msg w
  = (r, {| heap := <[self := with_port o t']> (heap w); stdout := stdout w;
           trace := trace w ++ [EvWrite self msg] |}).
Proof. apply call_eq. Qed.

Lemma loop_continues term last_line :
  Str.contains term last_line = false → last_line ≠ "" →
  negb (Str.contains term last_line) && (0 <? Str.len last_line)%nat = true.
Proof. intros -> Hne. by destruct last_line. Qed.

Lemma loop_stops term last_line :
  substring term last_line ∨ last_line = "" →
  negb (Str.contains term last_line) && (0 <? Str.len last_line)%nat = false.
Proof.
  intros [Hin| ->].
  - apply contains_iff in Hin. by rewrite Hin.
  - apply andb_false_r.
Qed.

Lemma readlines_S tmo n (t : T) :
  readlines tmo (S n) t
  = match bus_readline tmo t with
    | (Ok line, t') =>
        match readlines tmo n t' with
        | Some (lines, t'') => Some (line :: lines, t'')
        | None => None
        end
    | _ => None
    end.
Proof. done. Qed.

Lemma loop_collects (final term : string) tmo self (body : list string) :
  ∀ n response last_line (w : World T) o t',
  heap w !! self = Some o →
  Str.contains term last_line = false → last_line ≠ "" →
  readlines tmo (S (length body)) (port o) = Some (body ++ [final], t') →
  Forall (λ line, ¬ substring term line ∧ line ≠ "") body →
  substring term final ∨ final = "" →
  (length body < n)%nat →
  read_multiline_loop n self term tmo response last_line w
  = (Ok (response +:+ Str.concat (body ++ [final])),
     {| heap := <[self := with_port o t']> (heap w); stdout := stdout w;
        trace := trace w ++ replicate (S (length body)) (EvReadline self tmo) |}).
Proof.
  induction body as [|line body IH];
    intros n response last_line w o t' Ho Hlast Hne Hread Hbody Hfinal Hn;
    (destruct n as [|n]; [simpl in Hn; lia|]);
    rewrite loop_eq, loop_continues by done;
    cbn [length app] in Hread; rewrite readlines_S in Hread;
    destruct (bus_readline tmo (port o)) as [[l|e|lm] t1] eqn:Hb; try done.
  - cbn [readlines] in Hread. injection Hread as -> ->.
    rewrite (bind_ok _ _ w _ final (readline_eq self tmo w o _ _ Ho Hb)).
    rewrite loop_eq, loop_stops by done. cbn [Str.concat app replicate].
    by rewrite str_app_nil_r.
  - destruct (readlines tmo (S (length body)) t1) as [[lines t2]|] eqn:Hrest; [|done].
    injection Hread as -> -> ->. apply Forall_cons in Hbody as [[Hl1 Hl2] Hbody].
    rewrite (bind_ok _ _ w _ line (readline_eq self tmo w o _ _ Ho Hb)).
    erewrite (IH n _ line _ (with_port o t1)); [| |..]; cbn [heap port with_port].
    + cbn [stdout trace]. rewrite insert_insert_eq, <-app_assoc, str_app_assoc. done.
    + apply lookup_insert_eq.
    + destruct (Str.contains term line) eqn:E; [|done]. by apply contains_iff in E.
    + done.
    + exact Hrest.
    + done.
    + done.
    + simpl in Hn. lia.
Qed.


Lemma query_flush_fails fuel self cmd kw (w : World T) o e t1 :
  heap w !! self = Some o →
  bus_flush_input_buffer (port o) = (Raise e, t1) →
  query fuel self cmd kw w
  = (Raise e, {| heap := <[self := with_port o t1]> (heap w); stdout := stdout w;
                 trace := trace w ++ [EvFlush self] |}).
Proof.
  intros Ho Hf. unfold query.
  by rewrite (bind_raise _ _ w _ e (flush_eq self w o _ _ Ho Hf)).
Qed.

Lemma query_sent fuel self cmd kw (w : World T) o t1 t2 :
  heap w !! self = Some o →
  bus_flush_input_buffer (port o) = (Ok (), t1) →
  bus_write cmd t1 = (Ok (), t2) →
  query fuel self cmd kw w
  = (if match kw_termination_line kw with Some _ => true | None => multiline kw end
     then read_multiline fuel self (kw_termination_line kw) None
     else line ← readline self (timeout kw) ; mret (Str.strip line))
      {| heap := <[self := with_port o t2]> (heap w); stdout := stdout w;
         trace := trace w ++ [EvFlush self; EvWrite self cmd] |}.
Proof.
  intros Ho Hf Hw. unfold query.
  rewrite (bind_ok _ _ w _ () (flush_eq self w o _ _ Ho Hf)).
  erewrite (bind_ok _ _ _ _ ()); [|apply write_eq; [apply lookup_insert_eq|exact Hw]].
  cbn [heap stdout trace]. by rewrite insert_insert_eq, <-app_assoc.
Qed.

Lemma query_write_fails fuel self cmd kw (w : World T) o e t1 t2 :
  heap w !! self = Some o →
  bus_flush_input_buffer (port o) = (Ok (), t1) →
  bus_write cmd t1 = (Raise e, t2) →
  query fuel self cmd kw w
  = (Raise e, {| heap := <[self := with_port o t2]> (heap w); stdout := stdout w;
                 trace := trace w ++ [EvFlush self; EvWrite self cmd] |}).
Proof.
  intros Ho Hf Hw. unfold query.
  rewrite (bind_ok _ _ w _ () (flush_eq self w o _ _ Ho Hf)).
  erewrite (bind_raise _ _ _ _ e); [|apply write_eq; [apply lookup_insert_eq|exact Hw]].
  cbn [heap stdout trace]. by rewrite insert_insert_eq, <-app_assoc.
Qed.

End Sequencing.

(** [read_multiline] reads until a line contains the termination line or
    is empty, and returns everything it read, that line included, as it
    came: after [n] lines that are neither, and one that is, the result
    is the concatenation of the [n + 1] lines and [readline] was called
    [n + 1] times. (The termination line must not occur in ["dummy"].) *)
Theorem read_multiline_returns_all_lines_read {T : Type} `{Bus T} (fuel : nat) (self : oid)
    (term : string) (tmo : option Timeout) (w : World T) (o : Instrument T)
    (body : list string) (final : string) (t' : T) :
  heap w !! self = Some o →
  ¬ substring term "dummy" →
  readlines tmo (S (length body)) (port o) = Some (body ++ [final], t') →
  Forall (λ line, ¬ substring term line ∧ line ≠ "") body →
  substring term final ∨ final = "" →
  (length body < fuel)%nat →
  read_multiline fuel self (Some term) tmo w
  = (Ok (Str.concat (body ++ [final])),
     {| heap := <[self := with_port o t']> (heap w); stdout := stdout w;
        trace := trace w ++ replicate (S (length body)) (EvReadline self tmo) |}).
Proof.
  intros Ho Hdummy Hread Hbody Hfinal Hfuel. rewrite read_multiline_given.
  apply (loop_collects final term tmo self body fuel "" "dummy" w o t'); try done.
  destruct (Str.contains term "dummy") eqn:E; [|done]. by apply contains_iff in E.
Qed.

Lemma read_multiline_returns_all_lines_read_witness :
  read_multiline 3 0%nat (Some ">") (Some 5) (single (script ["a" +:+ LF; "b" +:+ LF; ""]))
  = (Ok ("a" +:+ LF +:+ "b" +:+ LF),
     {| heap := <[0%nat := with_port (lone (script ["a" +:+ LF; "b" +:+ LF; ""]))
                                     {| pending := []; sent := [] |}]>
                  (heap (single (script ["a" +:+ LF; "b" +:+ LF; ""])));
        stdout := [];
        trace := [] ++ replicate 3 (EvReadline 0%nat (Some 5)) |}).
Proof.
  apply (read_multiline_returns_all_lines_read 3 0%nat ">" (Some 5)
           (single (script ["a" +:+ LF; "b" +:+ LF; ""]))
           (lone (script ["a" +:+ LF; "b" +:+ LF; ""]))
           ["a" +:+ LF; "b" +:+ LF] "" {| pending := []; sent := [] |}).
  - reflexivity.
  - intros Hin. apply contains_iff in Hin. discriminate.
  - reflexivity.
  - repeat constructor; try discriminate; intros Hin; apply contains_iff in Hin; discriminate.
  - by right.
  - simpl. lia.
Defined.

Section Multiline.

Context {T : Type} `{Bus T}.



End Multiline.

(** With a termination line given, [query] reads several lines whatever
    [multiline] says, calls [readline] without the timeout of the
    caller, and returns the lines as they came, not stripped. *)
Theorem multiline_query_returns_raw_text {T : Type} `{Bus T} (fuel : nat) (self : oid)
    (cmd term : string) (m : bool) (tmo : option Timeout) (w : World T) (o : Instrument T)
    (t1 t2 t3 : T) (body : list string) (final : string) :
  heap w !! self = Some o →
  bus_flush_input_buffer (port o) = (Ok (), t1) →
  bus_write cmd t1 = (Ok (), t2) →
  ¬ substring term "dummy" →
  readlines None (S (length body)) t2 = Some (body ++ [final], t3) →
  Forall (λ line, ¬ substring term line ∧ line ≠ "") body →
  substring term final ∨ final = "" →
  (length body < fuel)%nat →
  query fuel self cmd {| multiline := m; kw_termination_line := Some term; timeout := tmo |} w
  = (Ok (Str.concat (body ++ [final])),
     {| heap := <[self := with_port o t3]> (heap w); stdout := stdout w;
        trace := trace w ++ EvFlush self :: EvWrite self cmd
                         :: replicate (S (length body)) (EvReadline self None) |}).
Proof.
  intros Ho Hf Hw Hdummy Hread Hbody Hfinal Hfuel.
  rewrite (query_sent fuel self cmd _ w o t1 t2 Ho Hf Hw). cbn [kw_termination_line].
  rewrite read_multiline_given.
  erewrite (loop_collects final term None self body fuel "" "dummy" _ (with_port o t2) t3);
    cbn [heap stdout trace port with_port]; try done.
  - by rewrite insert_insert_eq, <-app_assoc.
  - apply lookup_insert_eq.
  - destruct (Str.contains term "dummy") eqn:E; [|done]. by apply contains_iff in E.
Qed.

Lemma multiline_query_returns_raw_text_witness :
  query 2 0%nat "LIST?"
    {| multiline := false; kw_termination_line := Some "END"; timeout := Some 3 |}
    (single (script [" a" +:+ LF; "END" +:+ LF; "next"]))
  = (Ok (" a" +:+ LF +:+ "END" +:+ LF),
     {| heap := <[0%nat := with_port (lone (script [" a" +:+ LF; "END" +:+ LF; "next"]))
                                     {| pending := ["next"]; sent := ["LIST?"] |}]>
                  (heap (single (script [" a" +:+ LF; "END" +:+ LF; "next"])));
        stdout := [];
        trace := [] ++ EvFlush 0%nat :: EvWrite 0%nat "LIST?"
                    :: replicate 2 (EvReadline 0%nat None) |}).
Proof.
  apply (multiline_query_returns_raw_text 2 0%nat "LIST?" "END" false (Some 3)
           (single (script [" a" +:+ LF; "END" +:+ LF; "next"]))
           (lone (script [" a" +:+ LF; "END" +:+ LF; "next"]))
           (script [" a" +:+ LF; "END" +:+ LF; "next"])
           {| pending := [" a" +:+ LF; "END" +:+ LF; "next"]; sent := ["LIST?"] |}
           {| pending := ["next"]; sent := ["LIST?"] |}
           [" a" +:+ LF] ("END" +:+ LF)).
  - reflexivity.
  - reflexivity.
  - reflexivity.
  - intros Hin. apply contains_iff in Hin. discriminate.
  - reflexivity.
  - repeat constructor; try discriminate; intros Hin; apply contains_iff in Hin; discriminate.
  - left. by exists "", LF.
  - simpl. lia.
Defined.



(** A multi-line [query] on an instrument that has no termination line,
    with none given either, sends the command and then fails the
    assertion of [read_multiline]: nothing is read. A termination line
    that is given takes the place of the one of the instrument. *)
Theorem multiline_needs_termination_line {T : Type} `{Bus T} (fuel : nat) (self : oid)
    (cmd : string) (tmo : option Timeout) (w : World T) (o : Instrument T) (t1 t2 : T) :
  heap w !! self = Some o →
  bus_flush_input_buffer (port o) = (Ok (), t1) →
  bus_write cmd t1 = (Ok (), t2) →
  (termination_line o = None →
   ∃ msg,
     read_multiline fuel self None tmo w = (Raise (AssertionError msg), w)
     ∧ query fuel self cmd {| multiline := true; kw_termination_line := None; timeout := tmo |} w
       = (Raise (AssertionError msg),
          {| heap := <[self := with_port o t2]> (heap w); stdout := stdout w;
             trace := trace w ++ [EvFlush self; EvWrite self cmd] |}))
  ∧ (∀ own, termination_line o = Some own →
       read_multiline fuel self None tmo w = read_multiline fuel self (Some own) tmo w)
  ∧ (∀ given, read_multiline fuel self (Some given) tmo w
              = read_multiline_loop fuel self given tmo "" "dummy" w).
Proof.
  intros Ho Hf Hw. split; [|split].
  - intros Hnone. eexists. split.
    + unfold read_multiline. erewrite bind_ok.
      2:{ erewrite bind_ok by (by apply get_object_ok). done. }
      rewrite Hnone. done.
    + rewrite (query_sent fuel self cmd _ w o t1 t2 Ho Hf Hw). cbn [kw_termination_line multiline].
      unfold read_multiline. erewrite bind_ok.
      2:{ erewrite bind_ok by (apply get_object_ok, lookup_insert_eq). done. }
      cbn [termination_line with_port]. rewrite Hnone. done.
  - intros own Hown. unfold read_multiline. erewrite bind_ok.
    2:{ erewrite bind_ok by (by apply get_object_ok). done. }
    rewrite Hown. done.
  - done.
Qed.

Lemma multiline_needs_termination_line_witness :
  ∃ msg,
    read_multiline 2 0%nat None None (single (script ["x"]))
    = (Raise (AssertionError msg), single (script ["x"]))
    ∧ query 2 0%nat "LIST?"
        {| multiline := true; kw_termination_line := None; timeout := None |}
        (single (script ["x"]))
      = (Raise (AssertionError msg),
         {| heap := <[0%nat := with_port (lone (script ["x"]))
                                         {| pending := ["x"]; sent := ["LIST?"] |}]>
                      (heap (single (script ["x"])));
            stdout := [];
            trace := [] ++ [EvFlush 0%nat; EvWrite 0%nat "LIST?"] |}).
Proof.
  destruct (multiline_needs_termination_line 2 0%nat "LIST?" None (single (script ["x"]))
              (lone (script ["x"])) (script ["x"])
              {| pending := ["x"]; sent := ["LIST?"] |}) as [Hnone _]; [reflexivity..|].
  exact (Hnone eq_refl).
Defined.

(** [query] stops at the first transport method that raises: when
    [flush_input_buffer] raises nothing is written, and when [write]
    raises nothing is read. The exception is passed on as it is. *)
Theorem query_stops_at_first_failure {T : Type} `{Bus T} (fuel : nat) (self : oid)
    (cmd : string) (kw : QueryKwargs) (w : World T) (o : Instrument T) (e : PyExn) :
  heap w !! self = Some o →
  (∀ t1, bus_flush_input_buffer (port o) = (Raise e, t1) →
     query fuel self cmd kw w
     = (Raise e, {| heap := <[self := with_port o t1]> (heap w); stdout := stdout w;
                    trace := trace w ++ [EvFlush self] |}))
  ∧ (∀ t1 t2, bus_flush_input_buffer (port o) = (Ok (), t1) →
       bus_write cmd t1 = (Raise e, t2) →
       query fuel self cmd kw w
       = (Raise e, {| heap := <[self := with_port o t2]> (heap w); stdout := stdout w;
                      trace := trace w ++ [EvFlush self; EvWrite self cmd] |})).
Proof.
  intros Ho. split.
  - intros t1 Hf. by apply query_flush_fails.
  - intros t1 t2 Hf Hw. by eapply query_write_fails.
Qed.

Lemma query_stops_at_first_failure_witness :
  query 0 0%nat "Q?" no_kwargs (single ())
  = (Raise (NotImplementedError
              "Subclasses of MessageBusInstrument must override the write method!"),
     {| heap := <[0%nat := with_port (lone ()) ()]> (heap (single ()));
        stdout := []; trace := [] ++ [EvFlush 0%nat; EvWrite 0%nat "Q?"] |}).
Proof.
  destruct (query_stops_at_first_failure 0 0%nat "Q?" no_kwargs (single ()) (lone ())
              (NotImplementedError
                 "Subclasses of MessageBusInstrument must override the write method!"))
    as [_ Hwrite]; [reflexivity|].
  apply (Hwrite () ()); reflexivity.
Defined.

Section Raised.

Context {T : Type} `{Bus T}.

(** An exception of [query] passes through the callers of [query]. *)
Lemma parsed_query_raised fuel self cmd tpl pf kw (w w1 : World T) e :
  query fuel self cmd kw w = (Raise e, w1) →
  parsed_query fuel self cmd tpl 0 pf kw w = (Raise e, w1).
Proof.
  intros Hq. unfold parsed_query.
  destruct (compile_template_tokenize tpl) as [-> _].
  rewrite (bind_ok (lift (Ok _)) _ w w _ eq_refl).
  by rewrite (bind_raise _ _ w w1 e Hq).
Qed.

Lemma parsed_query_old_raised fuel self cmd pat flags f kw (w w1 : World T) e :
  query fuel self cmd kw w = (Raise e, w1) →
  parsed_query_old fuel self cmd pat flags f kw w = (Raise e, w1).
Proof. intros Hq. unfold parsed_query_old. by rewrite (bind_raise _ _ w w1 e Hq). Qed.

Lemma getter_raised fuel dt self cmd (w w1 : World T) e :
  query fuel self cmd no_kwargs w = (Raise e, w1) →
  getter fuel dt self cmd w = (Raise e, w1).
Proof.
  intros Hq. unfold getter, float_query, int_query.
  destruct (String.eqb dt "float"); [by apply parsed_query_raised|].
  destruct (String.eqb dt "int"); [by apply parsed_query_raised|].
  by rewrite (bind_raise _ _ w w1 e Hq).
Qed.

End Raised.

(** [MessageBusInstrument] itself cannot be queried: with [write] and
    [readline] not overridden, [query] and everything built on it
    ([parsed_query], [parsed_query_old], [int_query], [float_query], the
    read of a [queried_property]) flush the input buffer, call [write]
    and raise its [NotImplementedError]; [readline] is never reached. *)
Theorem base_class_cannot_be_queried (fuel : nat) (self : oid) (cmd : string)
    (kw : QueryKwargs) (w : World unit) (o : Instrument unit) :
  heap w !! self = Some o →
  let e := NotImplementedError
             "Subclasses of MessageBusInstrument must override the write method!" in
  let w' := {| heap := <[self := o]> (heap w); stdout := stdout w;
               trace := trace w ++ [EvFlush self; EvWrite self cmd] |} in
  query fuel self cmd kw w = (Raise e, w')
  ∧ (∀ tpl pf, parsed_query fuel self cmd tpl 0 pf kw w = (Raise e, w'))
  ∧ (∀ pat flags f, parsed_query_old fuel self cmd pat flags f kw w = (Raise e, w'))
  ∧ int_query fuel self cmd kw w = (Raise e, w')
  ∧ float_query fuel self cmd kw w = (Raise e, w')
  ∧ (∀ p, get_cmd p = Some cmd →
       queried_property_get fuel p (Some self) w = (Raise e, w')).
Proof.
  intros Ho e w'.
  assert (∀ kw', query fuel self cmd kw' w = (Raise e, w')) as Hq.
  { intros kw'. subst w'. destruct o as [[] tl c pa].
    by rewrite (query_write_fails fuel self cmd kw' w _ e () () Ho). }
  split; [apply Hq|]. split; [|split; [|split; [|split]]].
  - intros tpl pf. apply parsed_query_raised, Hq.
  - intros pat flags f. apply parsed_query_old_raised, Hq.
  - apply parsed_query_raised, Hq.
  - apply parsed_query_raised, Hq.
  - intros p Hp. unfold queried_property_get. rewrite Hp.
    by rewrite (bind_raise _ _ w w' e (getter_raised fuel _ self cmd w w' e (Hq _))).
Qed.

Lemma base_class_cannot_be_queried_witness :
  (float_query 0 0%nat "V?" no_kwargs (single ())).1
  = Raise (NotImplementedError
             "Subclasses of MessageBusInstrument must override the write method!").
Proof.
  destruct (base_class_cannot_be_queried 0 0%nat "V?" no_kwargs (single ()) (lone ()) eq_refl)
    as (_ & _ & _ & _ & Hfloat & _).
  by rewrite Hfloat.
Defined.

Section Echo.

Lemma echo_loop (term : string) tmo self :
  ∀ n response last_line (w : World EchoInstrument) o,
  heap w !! self = Some o →
  Str.contains term (_last_write (port o)) = false → _last_write (port o) ≠ "" →
  Str.contains term last_line = false → last_line ≠ "" →
  ∃ w', read_multiline_loop n self term tmo response last_line w = (Beyond OutOfFuel, w')
        ∧ trace w' = trace w ++ replicate n (EvReadline self tmo).
Proof.
  induction n as [|n IH]; intros response last_line w o Ho Hcmd Hne Hlast Hlne;
    rewrite loop_eq, loop_continues by done.
  - exists w. split; [done|]. simpl. by rewrite app_nil_r.
  - set (w1 := {| heap := <[self := with_port o (port o)]> (heap w); stdout := stdout w;
                  trace := trace w ++ [EvReadline self tmo] |}).
    rewrite (bind_ok _ _ w w1 (_last_write (port o))) by (by apply readline_eq).
    destruct (IH (response +:+ _last_write (port o)) (_last_write (port o)) w1
                (with_port o (port o)))
      as (w' & Hrun & Htr); [apply lookup_insert_eq|done..|].
    exists w'. split; [exact Hrun|]. rewrite Htr. subst w1. cbn [trace replicate].
    by rewrite <-app_assoc.
Qed.

End Echo.

(** On an [EchoInstrument] a single-line [query] returns the command it
    sent, stripped, whatever was written before; so the read of a
    property whose [dtype] is neither ['float'] nor ['int'] yields its
    own [get_cmd]. *)
Theorem echo_query_returns_command (fuel : nat) (self : oid) (cmd : string)
    (tmo : option Timeout) (w : World EchoInstrument) (o : Instrument EchoInstrument) :
  heap w !! self = Some o →
  let w' := {| heap := <[self := with_port o {| _last_write := cmd |}]> (heap w);
               stdout := stdout w;
               trace := trace w ++ [EvFlush self; EvWrite self cmd; EvReadline self None] |} in
  query fuel self cmd no_kwargs w = (Ok (Str.strip cmd), w')
  ∧ ∀ p, get_cmd p = Some cmd → dtype p ≠ "float" → dtype p ≠ "int" →
      queried_property_get fuel p (Some self) w = (Ok (GotValue (VStr (Str.strip cmd))), w').
Proof.
  intros Ho w'.
  assert (query fuel self cmd no_kwargs w = (Ok (Str.strip cmd), w')) as Hq.
  { by apply (query_single_line fuel self cmd None w o (port o)
                {| _last_write := cmd |} {| _last_write := cmd |} cmd). }
  split; [exact Hq|]. intros p Hp Hf Hi.
  unfold queried_property_get, getter. rewrite Hp.
  apply String.eqb_neq in Hf, Hi. rewrite Hf, Hi.
  erewrite bind_ok; [|by erewrite bind_ok by exact Hq]. done.
Qed.

Lemma echo_query_returns_command_witness :
  queried_property_get 0
    {| dtype := "str"; get_cmd := Some "gx"; set_cmd := Some "sx {0}";
       fvalidate := None; fdel := None |}
    (Some 0%nat) (single {| _last_write := "sx y" |})
  = (Ok (GotValue (VStr "gx")),
     {| heap := <[0%nat := with_port (lone {| _last_write := "sx y" |}) {| _last_write := "gx" |}]>
                  (heap (single {| _last_write := "sx y" |}));
        stdout := [];
        trace := [] ++ [EvFlush 0%nat; EvWrite 0%nat "gx"; EvReadline 0%nat None] |}).
Proof.
  destruct (echo_query_returns_command 0 0%nat "gx" None (single {| _last_write := "sx y" |})
              (lone {| _last_write := "sx y" |}) eq_refl) as [_ Hget].
  apply (Hget {| dtype := "str"; get_cmd := Some "gx"; set_cmd := Some "sx {0}";
                 fvalidate := None; fdel := None |}); [reflexivity|discriminate..].
Defined.

(** A multi-line [query] on an [EchoInstrument] does not return unless
    the termination line occurs in the command (or in ["dummy"]), or the
    command is empty: every line read is the command again, so the loop
    of [read_multiline] uses up any number of rounds it is given. *)
Theorem echo_multiline_never_returns (fuel : nat) (self : oid) (cmd term : string)
    (m : bool) (tmo : option Timeout) (w : World EchoInstrument)
    (o : Instrument EchoInstrument) :
  heap w !! self = Some o →
  ¬ substring term "dummy" → ¬ substring term cmd → cmd ≠ "" →
  ∃ w',
    query fuel self cmd {| multiline := m; kw_termination_line := Some term; timeout := tmo |} w
    = (Beyond OutOfFuel, w')
    ∧ trace w' = trace w ++ EvFlush self :: EvWrite self cmd
                          :: replicate fuel (EvReadline self None).
Proof.
  intros Ho Hdummy Hcmd Hne.
  assert (∀ s, ¬ substring term s → Str.contains term s = false) as Hno.
  { intros s Hs. destruct (Str.contains term s) eqn:E; [|done]. by apply contains_iff in E. }
  rewrite (query_sent fuel self cmd _ w o (port o) {| _last_write := cmd |} Ho) by done.
  cbn [kw_termination_line]. rewrite read_multiline_given.
  destruct (echo_loop term None self fuel "" "dummy"
              {| heap := <[self := with_port o {| _last_write := cmd |}]> (heap w);
                 stdout := stdout w;
                 trace := trace w ++ [EvFlush self; EvWrite self cmd] |}
              (with_port o {| _last_write := cmd |})) as (w' & Hrun & Htr);
    [apply lookup_insert_eq|by apply Hno|done|by apply Hno|done|].
  exists w'. split; [exact Hrun|]. rewrite Htr. cbn [trace]. by rewrite <-app_assoc.
Qed.

Lemma echo_multiline_never_returns_witness :
  ∃ w',
    query 7 0%nat "LIST?"
      {| multiline := false; kw_termination_line := Some "END"; timeout := None |}
      (single EchoInstrument_init)
    = (Beyond OutOfFuel, w')
    ∧ trace w' = [] ++ EvFlush 0%nat :: EvWrite 0%nat "LIST?"
                    :: replicate 7 (EvReadline 0%nat None).
Proof.
  apply (echo_multiline_never_returns 7 0%nat "LIST?" "END" false None
           (single EchoInstrument_init) (lone EchoInstrument_init)).
  - reflexivity.
  - intros Hin. apply contains_iff in Hin. discriminate.
  - intros Hin. apply contains_iff in Hin. discriminate.
  - discriminate.
Defined.

(** ** Templates of the set commands *)

Lemma percent_scan_text (args : list Value) (a s : string) :
  Str.all no_percent a = true →
  Fmt.percent_scan args (a +:+ s) = r ← Fmt.percent_scan args s ; Ok (a +:+ r).
Proof.
  induction a as [|c a IH]; intros Ha.
  - cbn [String.append]. by destruct (Fmt.percent_scan args s).
  - simpl in Ha. apply andb_prop in Ha as [Hc Ha]. cbn [String.append].
    unfold no_percent in Hc. apply negb_true_iff in Hc.
    assert (Fmt.percent_scan args (String c (a +:+ s))
            = r ← Fmt.percent_scan args (a +:+ s) ; Ok (String c r)) as ->.
    { destruct c as [[] [] [] [] [] [] [] []]; try done. }
    rewrite IH by done. by destruct (Fmt.percent_scan args s).
Qed.

Lemma percent_scan_end (a : string) :
  Str.all no_percent a = true → Fmt.percent_scan [] a = Ok a.
Proof.
  intros Ha. rewrite <-(str_app_nil_r a) at 1. rewrite percent_scan_text by done.
  cbn. by rewrite str_app_nil_r.
Qed.

Lemma percent_one_string (pre post txt : string) (v : Value) :
  Str.all no_percent pre = true → Str.all no_percent post = true → Py.str v = Ok txt →
  Fmt.percent (pre +:+ "%s" +:+ post) v = Ok (pre +:+ txt +:+ post).
Proof.
  intros Hpre Hpost Hv. unfold Fmt.percent.
  assert (match v with VTuple items => items | _ => [v] end = [v]) as -> by by destruct v.
  rewrite percent_scan_text by done. cbn [String.append Fmt.percent_scan Ascii.eqb Bool.eqb].
  rewrite Hv. cbn. by rewrite percent_scan_end.
Qed.

Lemma percent_one_integer (pre post : string) (z : Z) :
  Str.all no_percent pre = true → Str.all no_percent post = true →
  Fmt.percent (pre +:+ "%d" +:+ post) (VInt z) = Ok (pre +:+ Str.of_Z z +:+ post).
Proof.
  intros Hpre Hpost. unfold Fmt.percent.
  rewrite percent_scan_text by done. cbn [String.append Fmt.percent_scan Ascii.eqb Bool.eqb orb].
  by rewrite percent_scan_end.
Qed.

Lemma no_field0 (s : string) : Str.all no_brace s = true → Str.contains "{0" s = false.
Proof.
  induction s as [|c s IH]; intros Hs; rewrite contains_unfold; [done|].
  simpl in Hs. apply andb_prop in Hs as [Hc Hs]. rewrite IH by done.
  destruct c as [[] [] [] [] [] [] [] []]; try done.
Qed.

Lemma percent_template_branch (pre post : string) (letter : ascii) :
  Str.all no_brace pre = true → Str.all no_brace post = true →
  no_brace letter = true →
  Str.contains "{0" (pre +:+ String "%" (String letter post)) = false
  ∧ Str.contains "%" (pre +:+ String "%" (String letter post)) = true.
Proof.
  intros Hpre Hpost Hl. split.
  - apply no_field0. rewrite all_app, Hpre. cbn [Str.all andb]. by rewrite Hl.
  - apply (contains_middle pre "%" (String letter post)).
Qed.

Section Templates.

Context {T : Type} `{Bus T}.

(** [__set__] once the message is known. *)
Lemma set_with_message (p : queried_property T) obj value (w : World T) template message :
  set_cmd p = Some template →
  (if Str.contains "{0" template then Fmt.format template [value]
   else if Str.contains "%" template then Fmt.percent template value
   else Ok template) = Ok message →
  queried_property_set p obj value w
  = (print (PrintSet obj value) ;;
     match fvalidate p with Some f => f obj value | None => mret () end ;;
     print (PrintLine message) ;; write obj message) w.
Proof. intros Hset Hm. unfold queried_property_set. rewrite Hset, Hm. done. Qed.

End Templates.

(** For a value that is [None], an integer or a string (the values
    [Py.str] renders; a tuple is not among them), and for [pre] and
    [post] without brace and without [%], the set-templates
    [pre{0}post] and [pre%spost] send the same command
    [pre ++ str(value) ++ post], and so does [pre%dpost] for an integer:
    the run of [__set__] is the same whichever style is used. *)
Theorem brace_and_percent_templates_agree {T : Type} `{Bus T} (p : queried_property T)
    (obj : oid) (value : Value) (w : World T) (pre post txt : string) :
  Str.all no_brace pre = true → Str.all no_percent pre = true →
  Str.all no_brace post = true → Str.all no_percent post = true →
  Py.str value = Ok txt →
  let with_cmd message :=
    {| dtype := dtype p; get_cmd := get_cmd p; set_cmd := Some message;
       fvalidate := fvalidate p; fdel := fdel p |} in
  let run := (print (PrintSet obj value) ;;
              match fvalidate p with Some f => f obj value | None => mret () end ;;
              print (PrintLine (pre +:+ txt +:+ post)) ;;
              write obj (pre +:+ txt +:+ post)) w in
  queried_property_set (with_cmd (pre +:+ "{0}" +:+ post)) obj value w = run
  ∧ queried_property_set (with_cmd (pre +:+ "%s" +:+ post)) obj value w = run
  ∧ (∀ z, value = VInt z →
       queried_property_set (with_cmd (pre +:+ "%d" +:+ post)) obj value w = run).
Proof.
  intros Hpre Hpre' Hpost Hpost' Hv with_cmd run. split; [|split].
  - apply (set_with_message (with_cmd _) obj value w _ _ eq_refl).
    rewrite contains_field0. by apply format_one_field.
  - apply (set_with_message (with_cmd _) obj value w _ _ eq_refl).
    change ("%s" +:+ post) with (String "%" (String "s" post)).
    destruct (percent_template_branch pre post "s" Hpre Hpost eq_refl) as [-> ->].
    by apply percent_one_string.
  - intros z ->. apply (set_with_message (with_cmd _) obj (VInt z) w _ _ eq_refl).
    change ("%d" +:+ post) with (String "%" (String "d" post)).
    destruct (percent_template_branch pre post "d" Hpre Hpost eq_refl) as [-> ->].
    injection Hv as <-. by apply percent_one_integer.
Qed.

Lemma brace_and_percent_templates_agree_witness :
  queried_property_set
    {| dtype := "int"; get_cmd := None; set_cmd := Some ("V " +:+ "{0}" +:+ ";");
       fvalidate := None; fdel := None |} 0%nat (VInt 5) (single (script []))
  = queried_property_set
      {| dtype := "int"; get_cmd := None; set_cmd := Some ("V " +:+ "%d" +:+ ";");
         fvalidate := None; fdel := None |} 0%nat (VInt 5) (single (script [])).
Proof.
  destruct (brace_and_percent_templates_agree
              {| dtype := "int"; get_cmd := None; set_cmd := None;
                 fvalidate := None; fdel := None |}
              0%nat (VInt 5) (single (script [])) "V " ";" "5"
              eq_refl eq_refl eq_refl eq_refl eq_refl) as (Hbrace & _ & Hint).
  exact (eq_trans Hbrace (eq_sym (Hint 5 eq_refl))).
Defined.

(** A set-template that contains neither [{0] nor [%] is sent as it
    stands: the value is printed by the first [print] but does not reach
    the instrument. This includes templates with the fields [{}] or
    [{1}]. *)
Theorem set_template_without_field_sent_as_is {T : Type} `{Bus T} (p : queried_property T)
    (obj : oid) (value : Value) (w : World T) (o : Instrument T) (message : string) (t' : T) :
  set_cmd p = Some message → fvalidate p = None →
  ¬ substring "{0" message → ¬ substring "%" message →
  heap w !! obj = Some o →
  bus_write message (port o) = (Ok (), t') →
  queried_property_set p obj value w
  = (Ok (),
     {| heap := <[obj := with_port o t']> (heap w);
        stdout := stdout w ++ [PrintSet obj value; PrintLine message];
        trace := trace w ++ [EvWrite obj message] |}).
Proof.
  intros Hset Hval Hb Hp Ho Hw.
  rewrite (set_with_message p obj value w message message Hset).
  - rewrite Hval. unfold mbind, M_bind, print, mret, M_ret, write, on_port. cbn.
    rewrite Ho, Hw. by rewrite <-app_assoc.
  - destruct (Str.contains "{0" message) eqn:E1; [by apply contains_iff in E1|].
    destruct (Str.contains "%" message) eqn:E2; [by apply contains_iff in E2|]. done.
Qed.

Lemma set_template_without_field_sent_as_is_witness :
  queried_property_set
    {| dtype := "str"; get_cmd := None; set_cmd := Some "sx {}";
       fvalidate := None; fdel := None |} 0%nat (VStr "y") (single (script []))
  = (Ok (),
     {| heap := <[0%nat := with_port (lone (script [])) {| pending := []; sent := ["sx {}"] |}]>
                  (heap (single (script [])));
        stdout := [] ++ [PrintSet 0%nat (VStr "y"); PrintLine "sx {}"];
        trace := [] ++ [EvWrite 0%nat "sx {}"] |}).
Proof.
  apply (set_template_without_field_sent_as_is
           {| dtype := "str"; get_cmd := None; set_cmd := Some "sx {}";
              fvalidate := None; fdel := None |}
           0%nat (VStr "y") (single (script [])) (lone (script [])) "sx {}"
           {| pending := []; sent := ["sx {}"] |}).
  - reflexivity.
  - reflexivity.
  - intros Hin. apply contains_iff in Hin. discriminate.
  - intros Hin. apply contains_iff in Hin. discriminate.
  - reflexivity.
  - reflexivity.
Defined.

(** ** Channel properties *)

Section Channels.

Context {T : Type} `{Bus T}.

Lemma bind_never {A B} (m : M T A) (k : A → M T B) (w : World T) (b : B) :
  (∀ a w', (k a w').1 ≠ Ok b) → ((m ≫= k) w).1 ≠ Ok b.
Proof.
  intros Hk. unfold mbind, M_bind. destruct (m w) as [[a|e|l] w']; [apply Hk|done..].
Qed.

Lemma assert_channel_fails obj (w : World T) o :
  heap w !! obj = Some o → ch o = None ∨ parent o = None →
  assert_channel (Some obj) w
  = (Raise (AssertionError "object must have a ch attribute and a parent attribute"), w).
Proof.
  intros Ho Hmiss. unfold assert_channel.
  erewrite bind_ok by (by apply get_object_ok).
  destruct Hmiss as [-> | ->]; [done|]. by destruct (ch o).
Qed.

End Channels.

(** A [queried_channel_property] checks for [ch] and [parent] before
    anything else. Read on the class, where [queried_property] returns
    the descriptor, it fails the assertion, and so it never returns the
    descriptor at all. On an object that lacks [ch] or [parent] both the
    read and the write fail the assertion before they look at the
    commands or call the validator, and nothing is sent. *)
Theorem channel_property_asserts_first {T : Type} `{Bus T} (fuel : nat)
    (p : queried_property T) (w : World T) :
  queried_property_get fuel p None w = (Ok (GotDescriptor p), w)
  ∧ (∃ msg, queried_channel_property_get fuel p None w = (Raise (AssertionError msg), w))
  ∧ (∀ obj o value, heap w !! obj = Some o → ch o = None ∨ parent o = None →
       ∃ msg,
         queried_channel_property_get fuel p (Some obj) w = (Raise (AssertionError msg), w)
         ∧ queried_channel_property_set p obj value w = (Raise (AssertionError msg), w))
  ∧ (∀ obj d, (queried_channel_property_get fuel p obj w).1 ≠ Ok (GotDescriptor d)).
Proof.
  split; [done|]. split; [by eexists|]. split.
  - intros obj o value Ho Hmiss. eexists. split.
    + unfold queried_channel_property_get.
      by rewrite (bind_raise _ _ w w _ (assert_channel_fails obj w o Ho Hmiss)).
    + unfold queried_channel_property_set.
      by rewrite (bind_raise _ _ w w _ (assert_channel_fails obj w o Ho Hmiss)).
  - intros [obj|] d; [|done]. unfold queried_channel_property_get.
    apply bind_never. intros _ w1. destruct (get_cmd p) as [message|]; [|done].
    do 4 (apply bind_never; intros ? ?). done.
Qed.

Lemma channel_property_asserts_first_witness :
  ∃ msg,
    queried_channel_property_get 0
      {| dtype := "str"; get_cmd := None; set_cmd := None; fvalidate := None; fdel := None |}
      (Some 0%nat) parent_and_channel
    = (Raise (AssertionError msg), parent_and_channel)
    ∧ queried_channel_property_set
        {| dtype := "str"; get_cmd := None; set_cmd := None; fvalidate := None; fdel := None |}
        0%nat (VInt 1) parent_and_channel
      = (Raise (AssertionError msg), parent_and_channel).
Proof.
  apply (proj1 (proj2 (proj2 (channel_property_asserts_first 0
           {| dtype := "str"; get_cmd := None; set_cmd := None; fvalidate := None; fdel := None |}
           parent_and_channel))) 0%nat (lone EchoInstrument_init) (VInt 1)).
  - reflexivity.
  - by left.
Defined.

(** Without a validator, the write of a [queried_channel_property]
    prints nothing (unlike [queried_property.__set__]), calls nothing
    but [write] of the parent, once at most, and leaves every object but
    the parent as it is. *)
Theorem channel_set_writes_to_parent_only {T : Type} `{Bus T} (p : queried_property T)
    (obj pa : oid) (o : Instrument T) (c value : Value) (w : World T) :
  heap w !! obj = Some o → ch o = Some c → parent o = Some pa →
  fvalidate p = None →
  let w' := (queried_channel_property_set p obj value w).2 in
  stdout w' = stdout w
  ∧ (trace w' = trace w ∨ ∃ message, trace w' = trace w ++ [EvWrite pa message])
  ∧ (∀ other, other ≠ pa → heap w' !! other = heap w !! other).
Proof.
  intros Ho Hc Hpa Hval w'. subst w'. unfold queried_channel_property_set.
  rewrite (bind_ok _ _ w w () (assert_channel_ok obj w o c pa Ho Hc Hpa)).
  destruct (set_cmd p) as [template|]; [|by auto].
  rewrite Hval. rewrite (bind_ok (mret ()) _ w w () eq_refl).
  rewrite (bind_ok _ _ w w c (get_ch_ok obj w o c Ho Hc)).
  destruct (if Str.contains "{0" template then _ else _) as [message|e|l] eqn:E.
  - rewrite (bind_ok (lift (Ok message)) _ w w message eq_refl).
    rewrite (bind_ok _ _ w w pa (get_parent_ok obj w o pa Ho Hpa)).
    unfold write, on_port. destruct (heap w !! pa) as [po|]; [|by auto].
    destruct (bus_write message (port po)) as [r t']. cbn [snd heap stdout trace].
    split; [done|]. split; [by eauto|]. intros other Hother. by apply lookup_insert_ne.
  - rewrite (bind_raise (lift (Raise e)) _ w w e eq_refl). by auto.
  - rewrite (bind_beyond (lift (Beyond l)) _ w w l eq_refl). by auto.
Qed.

Lemma channel_set_writes_to_parent_only_witness :
  let w' := (queried_channel_property_set
               {| dtype := "int"; get_cmd := None; set_cmd := Some "CH{0}:V {1}";
                  fvalidate := None; fdel := None |}
               1%nat (VInt 7) parent_and_channel).2 in
  stdout w' = stdout parent_and_channel
  ∧ (trace w' = trace parent_and_channel
     ∨ ∃ message, trace w' = trace parent_and_channel ++ [EvWrite 0%nat message])
  ∧ (∀ other, other ≠ 0%nat → heap w' !! other = heap parent_and_channel !! other).
Proof.
  apply (channel_set_writes_to_parent_only
           {| dtype := "int"; get_cmd := None; set_cmd := Some "CH{0}:V {1}";
              fvalidate := None; fdel := None |}
           1%nat 0%nat
           {| port := EchoInstrument_init; termination_line := None;
              ch := Some (VInt 3); parent := Some 0%nat |}
           (VInt 3) (VInt 7) parent_and_channel); reflexivity.
Defined.

(** ** After the match: the parse functions *)

Lemma plain_tokens (done : kind → bool) (n : nat) :
  ∀ (s : string) (pos : nat),
  Str.all no_percent s = true → (Str.len s ≤ n)%nat →
  render done (tokens_upto n s) = s ∧ occurrences pos (tokens_upto n s) = [].
Proof.
  induction n as [|n IH]; intros s pos Hs Hn.
  - destruct s; [done|]. rewrite len_cons in Hn. lia.
  - destruct s as [|c s]; [done|]. rewrite len_cons in Hn.
    simpl in Hs. apply andb_prop in Hs as [Hc Hs].
    unfold no_percent in Hc. apply negb_true_iff in Hc.
    assert (placeholder_at (String c s) = None) as Hno.
    { unfold placeholder_at. destruct s; [done|]. by rewrite Hc. }
    cbn [tokens_upto]. rewrite Hno, render_cons, occurrences_text.
    destruct (IH s (S pos) Hs ltac:(lia)) as [-> ->]. done.
Qed.

Lemma plain_template (s : string) :
  Str.all no_percent s = true →
  regex_of_tokens (tokenize s) = s ∧ occurrences 0 (tokenize s) = [].
Proof. intros Hs. by apply plain_tokens. Qed.

(** The parse functions in force, by the form of [parse_function]. *)
Lemma resolved (pf : option ParseArg) (toks : list token) :
  resolve_parse_function pf (found kinds (occurrences 0 toks))
  = match pf with
    | None => map (λ x, parser_of x.1) (occurrences 0 toks)
    | Some (OneFunction f) => [f]
    | Some (Functions fs) => fs
    end.
Proof.
  destruct pf as [[f|fs]|]; [done..|].
  unfold resolve_parse_function. rewrite sorted_found, map_map. done.
Qed.

(** When a parse function raises [ValueError], [parsed_query] prints
    three lines (a heading, the groups, the parse functions) and raises
    a new [ValueError] that names the command and the reply but neither
    the template nor the text that failed to parse. Any other exception
    of a parse function goes through as it is, and nothing is printed.
    So [%i;] on the reply [09;] matches and then fails to parse. *)
Theorem parse_failure_is_reported {T : Type} `{Bus T} (fuel : nat) (self : oid)
    (cmd tpl : string) (pf : option ParseArg) (kw : QueryKwargs) (w w1 : World T)
    (reply : string) (groups : Re.captures) (e : PyExn) :
  query fuel self cmd kw w = (Ok reply, w1) →
  Re.search (regex_of_tokens (tokenize tpl)) reply 0 = Ok (Some groups) →
  let fs := match pf with
            | None => map (λ x, parser_of x.1) (occurrences 0 (tokenize tpl))
            | Some (OneFunction f) => [f]
            | Some (Functions fs) => fs
            end in
  res_mapM (λ '(f, g), f g) (zip fs groups) = Raise e →
  parsed_query fuel self cmd tpl 0 pf kw w
  = match e with
    | ValueError _ =>
        (Raise (ValueError ("Stage response to " +:+ cmd +:+ " ('" +:+ reply
                            +:+ "') couldn't be parsed by the supplied function")),
         {| heap := heap w1;
            stdout := stdout w1 ++ [PrintLine "Parsing Error"; PrintMatchedGroups groups;
                                    PrintParsingFunctions fs];
            trace := trace w1 |})
    | _ => (Raise e, w1)
    end.
Proof.
  intros Hq Hs fs Hparse. rewrite (parsed_query_run _ _ _ _ _ _ w w1 reply Hq).
  cbv zeta. rewrite Hs. rewrite (bind_ok (lift (Ok _)) _ w1 w1 _ eq_refl).
  rewrite resolved. fold fs. rewrite Hparse.
  destruct e; try done.
  unfold mbind, M_bind, print, raise. cbn. by rewrite <-!app_assoc.
Qed.

Lemma parse_failure_is_reported_witness :
  parsed_query 0 0%nat "Q?" "%i;" 0 None no_kwargs (single (script ["09;" +:+ LF]))
  = (Raise (ValueError ("Stage response to " +:+ "Q?" +:+ " ('" +:+ "09;"
                        +:+ "') couldn't be parsed by the supplied function")),
     {| heap := heap (query 0 0%nat "Q?" no_kwargs (single (script ["09;" +:+ LF]))).2;
        stdout := [] ++ [PrintLine "Parsing Error"; PrintMatchedGroups [Some "09"];
                         PrintParsingFunctions
                           (map (λ x, parser_of x.1) (occurrences 0 (tokenize "%i;")))];
        trace := trace (query 0 0%nat "Q?" no_kwargs (single (script ["09;" +:+ LF]))).2 |}).
Proof.
  refine (parse_failure_is_reported 0 0%nat "Q?" "%i;" None no_kwargs
            (single (script ["09;" +:+ LF]))
            (query 0 0%nat "Q?" no_kwargs (single (script ["09;" +:+ LF]))).2
            "09;" [Some "09"]
            (Py.invalid_literal 0 "09") _ _ _).
  - vm_compute. reflexivity.
  - vm_compute. reflexivity.
  - vm_compute. reflexivity.
Defined.

(** A single callable given as [parse_function] is applied to the first
    group only, and its result is returned bare, although the docstring
    says it is applied to all groups; [parsed_query_old] with the same
    regex and callable applies it to every group and returns the list.
    (The regex holds no [%], so both methods search with it as it
    stands.) *)
Theorem single_callable_parses_first_group_only {T : Type} `{Bus T} (fuel : nat) (self : oid)
    (cmd pat : string) (f : parse_fn) (kw : QueryKwargs) (w w1 : World T)
    (reply : string) (g : option string) (rest : Re.captures) (v : Value) (vs : list Value) :
  Str.all no_percent pat = true →
  query fuel self cmd kw w = (Ok reply, w1) →
  Re.search pat reply 0 = Ok (Some (g :: rest)) →
  rest ≠ [] →
  f g = Ok v → res_mapM f rest = Ok vs →
  parsed_query fuel self cmd pat 0 (Some (OneFunction f)) kw w = (Ok v, w1)
  ∧ parsed_query_old fuel self cmd pat 0 f kw w = (Ok (VList (v :: vs)), w1).
Proof.
  intros Hpat Hq Hs Hrest Hv Hvs. destruct (plain_template pat Hpat) as [Hre _]. split.
  - rewrite (parsed_query_run _ _ _ _ _ _ w w1 reply Hq). cbv zeta.
    rewrite Hre, Hs. rewrite (bind_ok (lift (Ok _)) _ w1 w1 _ eq_refl).
    cbn [resolve_parse_function zip zip_with res_mapM]. rewrite Hv. done.
  - unfold parsed_query_old. rewrite (bind_ok _ _ w w1 reply Hq), Hs.
    rewrite (bind_ok (lift (Ok _)) _ w1 w1 _ eq_refl).
    destruct rest as [|g' rest]; [done|].
    assert (res_mapM f (g :: g' :: rest) = Ok (v :: vs)) as ->; [|done].
    change (res_mapM f (g :: g' :: rest))
      with (y ← f g ; l ← res_mapM f (g' :: rest) ; Ok (y :: l)).
    by rewrite Hv, Hvs.
Qed.

Lemma single_callable_parses_first_group_only_witness :
  parsed_query 0 0%nat "P?" "(\d+),(\d+)" 0 (Some (OneFunction Py.int)) no_kwargs
    (single (script ["3,4" +:+ LF]))
  = (Ok (VInt 3), (query 0 0%nat "P?" no_kwargs (single (script ["3,4" +:+ LF]))).2)
  ∧ parsed_query_old 0 0%nat "P?" "(\d+),(\d+)" 0 Py.int no_kwargs
      (single (script ["3,4" +:+ LF]))
    = (Ok (VList [VInt 3; VInt 4]),
       (query 0 0%nat "P?" no_kwargs (single (script ["3,4" +:+ LF]))).2).
Proof.
  refine (single_callable_parses_first_group_only 0 0%nat "P?" "(\d+),(\d+)" Py.int no_kwargs
            (single (script ["3,4" +:+ LF]))
            (query 0 0%nat "P?" no_kwargs (single (script ["3,4" +:+ LF]))).2
            "3,4" (Some "3") [Some "4"] (VInt 3) [VInt 4] _ _ _ _ _ _).
  - reflexivity.
  - vm_compute. reflexivity.
  - vm_compute. reflexivity.
  - discriminate.
  - vm_compute. reflexivity.
  - vm_compute. reflexivity.
Defined.

(** A template without any [%] is used as the regex as it stands and
    yields no parse functions: with [parse_function] left out, a match
    returns the empty list whatever groups the regex has. *)
Theorem template_without_placeholders_yields_empty_list {T : Type} `{Bus T} (fuel : nat)
    (self : oid) (cmd tpl : string) (kw : QueryKwargs) (w w1 : World T)
    (reply : string) (groups : Re.captures) :
  Str.all no_percent tpl = true →
  query fuel self cmd kw w = (Ok reply, w1) →
  Re.search tpl reply 0 = Ok (Some groups) →
  compile_template tpl = Ok (tpl, [])
  ∧ parsed_query fuel self cmd tpl 0 None kw w = (Ok (VList []), w1).
Proof.
  intros Htpl Hq Hs. destruct (plain_template tpl Htpl) as [Hre Hocc]. split.
  - destruct (compile_template_tokenize tpl) as [-> _]. rewrite Hre, Hocc.
    done.
  - rewrite (parsed_query_run _ _ _ _ _ _ w w1 reply Hq). cbv zeta.
    rewrite Hre, Hs. rewrite (bind_ok (lift (Ok _)) _ w1 w1 _ eq_refl).
    rewrite resolved, Hocc. done.
Qed.

Lemma template_without_placeholders_yields_empty_list_witness :
  compile_template "(\d+),(\d+)" = Ok ("(\d+),(\d+)", [])
  ∧ parsed_query 0 0%nat "P?" "(\d+),(\d+)" 0 None no_kwargs (single (script ["3,4" +:+ LF]))
    = (Ok (VList []), (query 0 0%nat "P?" no_kwargs (single (script ["3,4" +:+ LF]))).2).
Proof.
  refine (template_without_placeholders_yields_empty_list 0 0%nat "P?" "(\d+),(\d+)" no_kwargs
            (single (script ["3,4" +:+ LF]))
            (query 0 0%nat "P?" no_kwargs (single (script ["3,4" +:+ LF]))).2
            "3,4" [Some "3"; Some "4"] _ _ _).
  - reflexivity.
  - vm_compute. reflexivity.
  - vm_compute. reflexivity.
Defined.

(** ** Matching the numeric patterns *)

Lemma digit_in_10 (c : ascii) : digit_in 10 c = Chr.is_digit c.
Proof. by destruct c as [[] [] [] [] [] [] [] []]. Qed.

Lemma all_ext (p q : ascii → bool) (s : string) :
  (∀ c, p c = q c) → Str.all p s = Str.all q s.
Proof. intros Hpq. induction s as [|c s IH]; simpl; [done|]. by rewrite Hpq, IH. Qed.

Lemma span_digits (ds post : string) :
  Str.all Chr.is_digit ds = true → ends_numeral post →
  Py.span Chr.is_digit (ds +:+ post) = (ds, post).
Proof.
  intros Hds Hpost. induction ds as [|d ds IH].
  - destruct post as [|c post]; [done|]. simpl in *. by rewrite Hpost.
  - simpl in Hds. apply andb_prop in Hds as [Hd Hds]. cbn [String.append Py.span].
    by rewrite Hd, IH.
Qed.

(** Longest-first repetition of a character class: when what follows
    accepts the text after the whole run, that is the match. *)
Lemma rep_greedy_takes_span {R} (p : ascii → bool) (budget : nat) (s : string)
    (caps : Re.captures) (k : Re.cont R) (x : R) :
  (Str.len s ≤ budget)%nat →
  k (Py.span p s).2 caps = Some x →
  Re.rep_greedy (Re.one_char p) budget None s caps k = Some x.
Proof.
  revert s. induction budget as [|b IH]; intros s Hb Hk.
  - destruct s; [done|]. rewrite len_cons in Hb. lia.
  - destruct s as [|c s]; [by cbn in *; rewrite Hk|]. rewrite len_cons in Hb.
    cbn [Re.rep_greedy Re.one_char Py.span] in *. destruct (p c) eqn:Hc.
    + assert ((Str.len s <? Str.len (String c s))%nat = true) as ->.
      { apply Nat.ltb_lt. rewrite len_cons. lia. }
      cbn [fmap option_fmap option_map]. rewrite IH; [done|lia|].
      by destruct (Py.span p s).
    + cbn [snd] in Hk. by rewrite Hk.
Qed.

Section Numerals.

Context {R : Type}.

Lemma digits_run (ds post : string) (caps : Re.captures) (k : Re.cont R) (x : R) :
  ds ≠ "" → Str.all Chr.is_digit ds = true → ends_numeral post →
  k post caps = Some x →
  Re.run (Re.RRepeat 1 None (Re.RSet false [Re.CDigit false])) (ds +:+ post) caps k = Some x.
Proof.
  intros Hne Hds Hpost Hk. destruct ds as [|d ds]; [done|].
  simpl in Hds. apply andb_prop in Hds as [Hd Hds].
  cbn [Re.run Re.rep_exactly String.append Re.one_char].
  rewrite set_matches_digit, Hd. cbn [fmap option_fmap option_map].
  change (λ (s : string) (caps0 : Re.captures) (k0 : Re.cont R),
            Re.one_char (Re.set_matches false [Re.CDigit false]) s caps0 k0)
    with (Re.one_char (R:=R) (Re.set_matches false [Re.CDigit false])).
  apply rep_greedy_takes_span; [done|].
  rewrite (span_ext _ Chr.is_digit) by apply set_matches_digit.
  by rewrite span_digits.
Qed.

Lemma digits_run_fails (s : string) (caps : Re.captures) (k : Re.cont R) :
  ends_numeral s → Re.run (Re.RRepeat 1 None (Re.RSet false [Re.CDigit false])) s caps k = None.
Proof.
  intros Hs. cbn [Re.run Re.rep_exactly].
  destruct s as [|c s]; [done|]. cbn [Re.one_char]. rewrite set_matches_digit.
  simpl in Hs. by rewrite Hs.
Qed.

Lemma sign_opt_run (sg : sign) (d : ascii) (rest : string) (caps : Re.captures)
    (k : Re.cont R) (x : R) :
  Chr.is_digit d = true →
  k (String d rest) caps = Some x →
  Re.run (Re.RRepeat 0 (Some 1%nat) (Re.RSet false [Re.CChar "-"; Re.CChar "+"]))
    (sign_text sg +:+ String d rest) caps k = Some x.
Proof.
  intros Hd Hk. cbn [Re.run Re.rep_exactly fmap option_fmap option_map].
  assert (Re.set_matches false [Re.CChar "-"; Re.CChar "+"] d = false) as Hnot.
  { clear Hk. by destruct d as [[] [] [] [] [] [] [] []]. }
  destruct sg; cbn [sign_text String.append].
  - rewrite len_cons. cbn [Re.rep_greedy Nat.sub Re.one_char]. by rewrite Hnot.
  - rewrite len_cons. cbn [Re.rep_greedy Nat.sub Re.one_char].
    change (Re.set_matches false [Re.CChar "-"; Re.CChar "+"] "+") with true.
    cbv iota. rewrite !len_cons.
    assert ((S (Str.len rest) <? S (S (Str.len rest)))%nat = true) as ->
      by (apply Nat.ltb_lt; lia).
    cbn [fmap option_fmap option_map pred Re.rep_greedy]. by rewrite Hk.
  - rewrite len_cons. cbn [Re.rep_greedy Nat.sub Re.one_char].
    change (Re.set_matches false [Re.CChar "-"; Re.CChar "+"] "-") with true.
    cbv iota. rewrite !len_cons.
    assert ((S (Str.len rest) <? S (S (Str.len rest)))%nat = true) as ->
      by (apply Nat.ltb_lt; lia).
    cbn [fmap option_fmap option_map pred Re.rep_greedy]. by rewrite Hk.
Qed.

Lemma sign_opt_run_fails (s : string) (caps : Re.captures) (k : Re.cont R) :
  match s with String c _ => no_digit_or_sign c = true | EmptyString => True end →
  (∀ s' caps', ends_numeral s' → k s' caps' = None) →
  Re.run (Re.RRepeat 0 (Some 1%nat) (Re.RSet false [Re.CChar "-"; Re.CChar "+"]))
    s caps k = None.
Proof.
  intros Hs Hk. cbn [Re.run Re.rep_exactly fmap option_fmap option_map].
  destruct s as [|c s]; [by apply Hk|].
  rewrite len_cons. cbn [Re.rep_greedy Nat.sub Re.one_char].
  assert (Re.set_matches false [Re.CChar "-"; Re.CChar "+"] c = false
          ∧ Chr.is_digit c = false) as [-> Hd].
  { clear Hk. by destruct c as [[] [] [] [] [] [] [] []]. }
  by apply Hk.
Qed.

End Numerals.

Lemma group_text (a b : string) : Str.take (Str.len (a +:+ b) - Str.len b) (a +:+ b) = a.
Proof.
  rewrite len_app. replace (Str.len a + Str.len b - Str.len b)%nat with (Str.len a) by lia.
  apply take_app.
Qed.

Lemma match_unsigned (ds post : string) :
  ds ≠ "" → Str.all Chr.is_digit ds = true → ends_numeral post →
  Re.match_prefix
    (Re.Pattern (Re.RGroup 1 (Re.RRepeat 1 None (Re.RSet false [Re.CDigit false]))) 1)
    (ds +:+ post)
  = Some (Str.len ds, [Some ds]).
Proof.
  intros Hne Hds Hpost. unfold Re.match_prefix.
  cbn [Re.p_regex Re.p_groups replicate]. cbn [Re.run].
  apply digits_run; [done..|]. rewrite group_text. cbn [pred].
  rewrite len_app. do 2 f_equal. lia.
Qed.

Lemma match_unsigned_fails (s : string) :
  ends_numeral s →
  Re.match_prefix
    (Re.Pattern (Re.RGroup 1 (Re.RRepeat 1 None (Re.RSet false [Re.CDigit false]))) 1) s
  = None.
Proof.
  intros Hs. unfold Re.match_prefix. cbn [Re.p_regex Re.p_groups replicate]. cbn [Re.run].
  by apply digits_run_fails.
Qed.

Lemma match_signed (sg : sign) (ds post : string) :
  ds ≠ "" → Str.all Chr.is_digit ds = true → ends_numeral post →
  Re.match_prefix
    (Re.Pattern
       (Re.RGroup 1
          (Re.RSeq (Re.RRepeat 0 (Some 1%nat) (Re.RSet false [Re.CChar "-"; Re.CChar "+"]))
                   (Re.RRepeat 1 None (Re.RSet false [Re.CDigit false])))) 1)
    (sign_text sg +:+ ds +:+ post)
  = Some (Str.len (sign_text sg +:+ ds), [Some (sign_text sg +:+ ds)]).
Proof.
  intros Hne Hds Hpost. unfold Re.match_prefix.
  cbn [Re.p_regex Re.p_groups replicate]. cbn [Re.run].
  destruct ds as [|d ds]; [done|]. cbn [String.append].
  apply sign_opt_run; [simpl in Hds; by apply andb_prop in Hds as [? _]|].
  apply (digits_run (String d ds) post); [done..|].
  change (String d (ds +:+ post)) with (String d ds +:+ post).
  rewrite <-str_app_assoc, group_text. cbn [pred].
  rewrite len_app. do 2 f_equal. lia.
Qed.

Lemma match_signed_fails (s : string) :
  match s with String c _ => no_digit_or_sign c = true | EmptyString => True end →
  Re.match_prefix
    (Re.Pattern
       (Re.RGroup 1
          (Re.RSeq (Re.RRepeat 0 (Some 1%nat) (Re.RSet false [Re.CChar "-"; Re.CChar "+"]))
                   (Re.RRepeat 1 None (Re.RSet false [Re.CDigit false])))) 1) s
  = None.
Proof.
  intros Hs. unfold Re.match_prefix. cbn [Re.p_regex Re.p_groups replicate]. cbn [Re.run].
  apply sign_opt_run_fails; [done|]. intros s' caps' Hs'. by apply digits_run_fails.
Qed.

Lemma search_from_skip (p : Re.pattern) (q : ascii → bool) :
  (∀ c s, q c = true → Re.match_prefix p (String c s) = None) →
  ∀ pre rest pos, Str.all q pre = true →
    Re.search_from p pos (pre +:+ rest) = Re.search_from p (pos + Str.len pre) rest.
Proof.
  intros Hq. induction pre as [|c pre IH]; intros rest pos Hpre.
  - cbn. by rewrite Nat.add_0_r.
  - simpl in Hpre. apply andb_prop in Hpre as [Hc Hpre].
    cbn [String.append Re.search_from]. rewrite (Hq c _ Hc), IH by done.
    rewrite len_cons. f_equal. lia.
Qed.

Lemma search_from_here (p : Re.pattern) (pos n : nat) (s : string) (caps : Re.captures) :
  Re.match_prefix p s = Some (n, caps) → Re.search_from p pos s = Some (pos, n, caps).
Proof. intros Hm. destruct s; cbn [Re.search_from]; by rewrite Hm. Qed.

Lemma search_unsigned (pre ds post : string) :
  Str.all no_digit pre = true →
  ds ≠ "" → Str.all Chr.is_digit ds = true → ends_numeral post →
  Re.search "(\d+)" (pre +:+ ds +:+ post) 0 = Ok (Some [Some ds]).
Proof.
  intros Hpre Hne Hds Hpost. unfold Re.search. cbn [Z.eqb negb].
  let p := eval vm_compute in (Re.compile "(\d+)") in
    change (Re.compile "(\d+)") with p.
  cbn [mbind res_bind].
  rewrite (search_from_skip _ no_digit); [|..|done].
  - by rewrite (search_from_here _ _ _ _ _ (match_unsigned ds post Hne Hds Hpost)).
  - intros c s Hc. apply match_unsigned_fails. simpl. unfold no_digit in Hc.
    by apply negb_true_iff in Hc.
Qed.

Lemma search_signed (pre : string) (sg : sign) (ds post : string) :
  Str.all no_digit_or_sign pre = true →
  ds ≠ "" → Str.all Chr.is_digit ds = true → ends_numeral post →
  Re.search "([-+]?\d+)" (pre +:+ sign_text sg +:+ ds +:+ post) 0
  = Ok (Some [Some (sign_text sg +:+ ds)]).
Proof.
  intros Hpre Hne Hds Hpost. unfold Re.search. cbn [Z.eqb negb].
  let p := eval vm_compute in (Re.compile "([-+]?\d+)") in
    change (Re.compile "([-+]?\d+)") with p.
  cbn [mbind res_bind].
  rewrite (search_from_skip _ no_digit_or_sign); [|..|done].
  - by rewrite (search_from_here _ _ _ _ _ (match_signed sg ds post Hne Hds Hpost)).
  - intros c s Hc. by apply match_signed_fails.
Qed.

(** [int_query] returns the first integer of the reply with its sign:
    when the reply is some text without digits or signs, then an
    optional sign and a run of decimal digits, then anything that does
    not go on with a digit, the result is the number these digits
    denote in base ten, negated after a minus sign. *)
Theorem int_query_reads_first_integer {T : Type} `{Bus T} (fuel : nat) (self : oid)
    (cmd : string) (kw : QueryKwargs) (w w1 : World T)
    (pre : string) (sg : sign) (ds post : string) :
  query fuel self cmd kw w = (Ok (pre +:+ sign_text sg +:+ ds +:+ post), w1) →
  Str.all no_digit_or_sign pre = true →
  ds ≠ "" → Str.all Chr.is_digit ds = true → ends_numeral post →
  int_query fuel self cmd kw w = (Ok (VInt (signed sg (numeral 10 ds))), w1).
Proof.
  intros Hq Hpre Hne Hds Hpost. unfold int_query.
  rewrite (parsed_query_run _ _ _ _ _ _ w w1 _ Hq). cbv zeta.
  change (regex_of_tokens (tokenize "%d")) with "([-+]?\d+)".
  rewrite (search_signed pre sg ds post Hpre Hne Hds Hpost).
  rewrite (bind_ok (lift (Ok _)) _ w1 w1 _ eq_refl).
  rewrite resolved.
  change (map (λ x, parser_of x.1) (occurrences 0 (tokenize "%d"))) with [Py.int].
  cbn [zip zip_with res_mapM].
  rewrite (int_value_10 _ _ (int_of_string_decimal sg ds Hne
             ltac:(by rewrite (all_ext _ Chr.is_digit) by apply digit_in_10))).
  done.
Qed.

Lemma int_query_reads_first_integer_witness :
  int_query 0 0%nat "T?" no_kwargs (single (script ["T=-12C" +:+ CRLF]))
  = (Ok (VInt (-12)), (query 0 0%nat "T?" no_kwargs (single (script ["T=-12C" +:+ CRLF]))).2).
Proof.
  refine (int_query_reads_first_integer 0 0%nat "T?" no_kwargs
            (single (script ["T=-12C" +:+ CRLF]))
            (query 0 0%nat "T?" no_kwargs (single (script ["T=-12C" +:+ CRLF]))).2
            "T=" Minus "12" "C" _ _ _ _ _).
  - vm_compute. reflexivity.
  - reflexivity.
  - discriminate.
  - reflexivity.
  - reflexivity.
Defined.

(** [parsed_query_old] with its defaults, the regex [(\d+)] and [int],
    returns the first run of decimal digits of the reply as a number
    and ignores a sign in front of it: where [int_query] reads [-12],
    it reads [12]. *)
Theorem parsed_query_old_reads_unsigned {T : Type} `{Bus T} (fuel : nat) (self : oid)
    (cmd : string) (kw : QueryKwargs) (w w1 : World T) (pre ds post : string) :
  query fuel self cmd kw w = (Ok (pre +:+ ds +:+ post), w1) →
  Str.all no_digit pre = true →
  ds ≠ "" → Str.all Chr.is_digit ds = true → ends_numeral post →
  parsed_query_old fuel self cmd "(\d+)" 0 Py.int kw w = (Ok (VInt (numeral 10 ds)), w1).
Proof.
  intros Hq Hpre Hne Hds Hpost. unfold parsed_query_old.
  rewrite (bind_ok _ _ w w1 _ Hq).
  rewrite (search_unsigned pre ds post Hpre Hne Hds Hpost).
  rewrite (bind_ok (lift (Ok _)) _ w1 w1 _ eq_refl).
  pose proof (int_value_10 _ _ (int_of_string_decimal NoSign ds Hne
                ltac:(by rewrite (all_ext _ Chr.is_digit) by apply digit_in_10))) as Hint.
  cbn [sign_text String.append signed] in Hint. by rewrite Hint.
Qed.

Lemma parsed_query_old_reads_unsigned_witness :
  parsed_query_old 0 0%nat "T?" "(\d+)" 0 Py.int no_kwargs
    (single (script ["T=-12C" +:+ CRLF]))
  = (Ok (VInt 12), (query 0 0%nat "T?" no_kwargs (single (script ["T=-12C" +:+ CRLF]))).2).
Proof.
  refine (parsed_query_old_reads_unsigned 0 0%nat "T?" no_kwargs
            (single (script ["T=-12C" +:+ CRLF]))
            (query 0 0%nat "T?" no_kwargs (single (script ["T=-12C" +:+ CRLF]))).2
            "T=-" "12" "C" _ _ _ _ _).
  - vm_compute. reflexivity.
  - reflexivity.
  - discriminate.
  - reflexivity.
  - reflexivity.
Defined.

(** ** Matching the pattern of [%s] *)

Lemma not_space_class (c : ascii) : Re.set_matches false [Re.CSpace true] c = not_space c.
Proof. unfold Re.set_matches, not_space. cbn [existsb Re.item_matches xorb]. by rewrite orb_false_r. Qed.

Lemma span_word (word post : string) :
  Str.all not_space word = true → ends_word post →
  Py.span not_space (word +:+ post) = (word, post).
Proof.
  intros Hw Hpost. induction word as [|c word IH].
  - destruct post as [|c post]; [done|]. simpl in *. unfold not_space. by rewrite Hpost.
  - simpl in Hw. apply andb_prop in Hw as [Hc Hw]. cbn [String.append Py.span].
    by rewrite Hc, IH.
Qed.

Lemma match_word (word post : string) :
  word ≠ "" → Str.all not_space word = true → ends_word post →
  Re.match_prefix
    (Re.Pattern (Re.RGroup 1 (Re.RRepeat 1 None (Re.RSet false [Re.CSpace true]))) 1)
    (word +:+ post)
  = Some (Str.len word, [Some word]).
Proof.
  intros Hne Hw Hpost. unfold Re.match_prefix.
  cbn [Re.p_regex Re.p_groups replicate]. cbn [Re.run Re.rep_exactly].
  destruct word as [|c word]; [done|]. simpl in Hw. apply andb_prop in Hw as [Hc Hw].
  cbn [String.append Re.one_char]. rewrite not_space_class, Hc.
  cbn [fmap option_fmap option_map].
  change (λ (s : string) (caps0 : Re.captures) (k0 : Re.cont (nat * Re.captures)),
            Re.one_char (Re.set_matches false [Re.CSpace true]) s caps0 k0)
    with (Re.one_char (R:=nat * Re.captures) (Re.set_matches false [Re.CSpace true])).
  apply rep_greedy_takes_span; [done|].
  rewrite (span_ext _ not_space) by apply not_space_class.
  rewrite span_word by done. cbn [snd].
  change (String c (word +:+ post)) with (String c word +:+ post).
  rewrite group_text. cbn [pred]. rewrite len_app. do 2 f_equal. lia.
Qed.

Lemma match_word_fails (c : ascii) (s : string) :
  Chr.is_space c = true →
  Re.match_prefix
    (Re.Pattern (Re.RGroup 1 (Re.RRepeat 1 None (Re.RSet false [Re.CSpace true]))) 1)
    (String c s)
  = None.
Proof.
  intros Hc. unfold Re.match_prefix.
  cbn [Re.p_regex Re.p_groups replicate]. cbn [Re.run Re.rep_exactly Re.one_char].
  rewrite not_space_class. unfold not_space. by rewrite Hc.
Qed.

Lemma search_word (pre word post : string) :
  Str.all Chr.is_space pre = true →
  word ≠ "" → Str.all not_space word = true → ends_word post →
  Re.search "(\S+)" (pre +:+ word +:+ post) 0 = Ok (Some [Some word]).
Proof.
  intros Hpre Hne Hw Hpost. unfold Re.search. cbn [Z.eqb negb].
  let p := eval vm_compute in (Re.compile "(\S+)") in
    change (Re.compile "(\S+)") with p.
  cbn [mbind res_bind].
  rewrite (search_from_skip _ Chr.is_space); [|..|done].
  - by rewrite (search_from_here _ _ _ _ _ (match_word word post Hne Hw Hpost)).
  - intros c s Hc. by apply match_word_fails.
Qed.

(** The placeholder [%s] reads the first word of the reply: the text up
    to the first white space, leading white space apart, returned as a
    string. What follows the word is ignored. *)
Theorem word_placeholder_reads_first_word {T : Type} `{Bus T} (fuel : nat) (self : oid)
    (cmd : string) (kw : QueryKwargs) (w w1 : World T) (pre word post : string) :
  query fuel self cmd kw w = (Ok (pre +:+ word +:+ post), w1) →
  Str.all Chr.is_space pre = true →
  word ≠ "" → Str.all not_space word = true → ends_word post →
  parsed_query fuel self cmd "%s" 0 None kw w = (Ok (VStr word), w1).
Proof.
  intros Hq Hpre Hne Hw Hpost.
  rewrite (parsed_query_run _ _ _ _ _ _ w w1 _ Hq). cbv zeta.
  change (regex_of_tokens (tokenize "%s")) with "(\S+)".
  rewrite (search_word pre word post Hpre Hne Hw Hpost).
  rewrite (bind_ok (lift (Ok _)) _ w1 w1 _ eq_refl).
  rewrite resolved.
  change (map (λ x, parser_of x.1) (occurrences 0 (tokenize "%s"))) with [noop].
  done.
Qed.

Lemma word_placeholder_reads_first_word_witness :
  parsed_query 0 0%nat "*idn?" "%s" 0 None no_kwargs
    (single (script ["ACME Corp,Model 5" +:+ CRLF]))
  = (Ok (VStr "ACME"),
     (query 0 0%nat "*idn?" no_kwargs (single (script ["ACME Corp,Model 5" +:+ CRLF]))).2).
Proof.
  refine (word_placeholder_reads_first_word 0 0%nat "*idn?" no_kwargs
            (single (script ["ACME Corp,Model 5" +:+ CRLF]))
            (query 0 0%nat "*idn?" no_kwargs
               (single (script ["ACME Corp,Model 5" +:+ CRLF]))).2
            "" "ACME" " Corp,Model 5" _ _ _ _ _).
  - vm_compute. reflexivity.
  - reflexivity.
  - discriminate.
  - reflexivity.
  - reflexivity.
Defined.

(** ** [VisaInstrument.query] *)

(** [VisaInstrument.query] never raises: its bare [except] swallows
    every exception of [instr.query], prints [fail] and tries again.
    When it returns, the reply is that of the second of two calls of
    [instr.query] that succeeded in a row, the reply of the first being
    dropped; all rounds before are failed rounds. In particular, when
    the resource answers twice, one round is made and the command has
    been submitted twice. *)
Theorem visa_query_swallows_every_exception {R A : Type} `{Resource R A} (fuel : nat)
    (args : A) (w : Visa R) :
  match VisaInstrument_query fuel args w with
  | (Raise _, _) => False
  | (Ok reply, w') =>
      ∃ (rounds : list (list VisaEvent)) (r1 r2 : R) (first : string),
        visa_log w' = visa_log w ++ concat rounds
                                 ++ [VisaQuery true; VisaSleep (1 # 10); VisaQuery true]
        ∧ Forall failed_round rounds ∧ (length rounds < fuel)%nat
        ∧ resource_query args r1 = (Ok first, r2)
        ∧ resource_query args r2 = (Ok reply, instr w')
  | (Beyond _, _) => True
  end
  ∧ (∀ first r1 reply r2,
       (0 < fuel)%nat →
       resource_query args (instr w) = (Ok first, r1) →
       resource_query args r1 = (Ok reply, r2) →
       VisaInstrument_query fuel args w
       = (Ok reply,
          {| instr := r2;
             visa_log := visa_log w ++ [VisaQuery true; VisaSleep (1 # 10); VisaQuery true] |})).
Proof.
  split.
  - revert w. induction fuel as [|n IH]; intros w; [done|].
    cbn [VisaInstrument_query].
    destruct (resource_query args (instr w)) as [[first|e|l] r1] eqn:E1; [| |done].
    + destruct (resource_query args r1) as [[reply|e|l] r2] eqn:E2; [| |done].
      * exists [], (instr w), r1, first. cbn [visa_step visa_log instr concat app length].
        rewrite <-app_assoc. repeat split; [done|lia|done..].
      * specialize (IH (visa_step (visa_step w r1 [VisaQuery true; VisaSleep (1 # 10)]) r2
                          [VisaQuery false; VisaPrint "fail"])).
        destruct (VisaInstrument_query n args _) as [[reply|e'|l] w']; [|done..].
        destruct IH as (rounds & q1 & q2 & fst & Hlog & Hrounds & Hlen & Hq1 & Hq2).
        exists ([VisaQuery true; VisaSleep (1 # 10); VisaQuery false; VisaPrint "fail"]
                  :: rounds), q1, q2, fst.
        split; [|split; [|split; [|done]]].
        -- rewrite Hlog. cbn [visa_step visa_log concat]. by rewrite <-!app_assoc.
        -- constructor; [by right|done].
        -- simpl. lia.
    + specialize (IH (visa_step w r1 [VisaQuery false; VisaPrint "fail"])).
      destruct (VisaInstrument_query n args _) as [[reply|e'|l] w']; [|done..].
      destruct IH as (rounds & q1 & q2 & fst & Hlog & Hrounds & Hlen & Hq1 & Hq2).
      exists ([VisaQuery false; VisaPrint "fail"] :: rounds), q1, q2, fst.
      split; [|split; [|split; [|done]]].
      -- rewrite Hlog. cbn [visa_step visa_log concat]. by rewrite <-!app_assoc.
      -- constructor; [by left|done].
      -- simpl. lia.
  - intros first r1 reply r2 Hfuel H1 H2. destruct fuel as [|n]; [lia|].
    cbn [VisaInstrument_query]. rewrite H1, H2. unfold visa_step. cbn [visa_log instr].
    by rewrite <-app_assoc.
Qed.

Lemma visa_query_swallows_every_exception_witness :
  VisaInstrument_query 1 "*idn?" {| instr := {| failures := 0; calls := 0 |}; visa_log := [] |}
  = (Ok "2",
     {| instr := {| failures := 0; calls := 2 |};
        visa_log := [] ++ [VisaQuery true; VisaSleep (1 # 10); VisaQuery true] |}).
Proof.
  apply (proj2 (visa_query_swallows_every_exception 1 "*idn?"
                  {| instr := {| failures := 0; calls := 0 |}; visa_log := [] |})
           "1" {| failures := 0; calls := 1 |} "2" {| failures := 0; calls := 2 |});
    [lia|reflexivity..].
Defined.
